(** * UEFA draw simulator: constraint engine, backtracking solver, fixtures

    A shallow embedding of [Python/Sorteio_Jogos]: [models.py] (Club,
    Fixture, DrawState, DrawResult), [constraints.py] (DrawConstraints and
    the three competition profiles) and [draw_simulator.py]
    (UEFADrawSimulator).

    Club objects live in the simulator's club list; an opponent list holds
    references to clubs, modelled as positions in that list.  Python's
    [==] on clubs is [Club.__eq__] (same name and same country), which is
    what [in] and [list.remove] use.  The [random] module is outside the
    repository: its generator state and [random.shuffle] are parameters of
    the development, and [Module PyRandom] instantiates them with CPython's
    generator. *)

From Stdlib Require Import ZArith List Bool Lia Permutation Sorted.
From stdpp Require Import base option list gmap strings pretty.

Open Scope string_scope.
Open Scope list_scope.
Open Scope Z_scope.

(** ** models.py *)

Inductive Competition := CHAMPIONS_LEAGUE | EUROPA_LEAGUE | CONFERENCE_LEAGUE.

(** [Club]: the fields [coefficient] (a float) and [competition] are read by
    none of the functions below and are left out.  [pot] is any int. *)
Record Club := mkClub {
  name : string;
  country : string;
  pot : Z;
  home_opponents : list nat;
  away_opponents : list nat
}.

#[global] Instance Club_inhabited : Inhabited Club :=
  populate (mkClub "" "" 1 [] []).

(** The object store: reference [r] denotes the club at position [r]. *)
Definition deref (h : list Club) (r : nat) : Club := h !!! r.

(** [Club.__eq__] *)
Definition club_eq (c1 c2 : Club) : bool :=
  bool_decide (name c1 = name c2) && bool_decide (country c1 = country c2).

Definition ref_eq (h : list Club) (r1 r2 : nat) : bool :=
  club_eq (deref h r1) (deref h r2).

(** [x in l] for a list of club references *)
Definition contains (h : list Club) (l : list nat) (x : nat) : bool :=
  existsb (fun e => ref_eq h e x) l.

(** [l.remove(x)]: drops the first element equal to [x]; [None] stands for
    the ValueError raised when there is none. *)
Fixpoint list_remove (h : list Club) (x : nat) (l : list nat) : option (list nat) :=
  match l with
  | [] => None
  | e :: l' =>
      if ref_eq h e x then Some l'
      else match list_remove h x l' with
           | Some r => Some (e :: r)
           | None => None
           end
  end.

Definition all_opponents (c : Club) : list nat :=
  home_opponents c ++ away_opponents c.

(** [Club.opponent_countries]: the dict built by the loop. *)
Definition opponent_countries (h : list Club) (c : Club) : gmap string nat :=
  foldl (fun (countries : gmap string nat) opp =>
           let k := country (deref h opp) in
           <[k := (default 0%nat (countries !! k) + 1)%nat]> countries)
        ∅ (all_opponents c).

Definition is_complete (c : Club) : bool :=
  (length (home_opponents c) =? 4)%nat && (length (away_opponents c) =? 4)%nat.

Definition needs_home (c : Club) : Z := 4 - Z.of_nat (length (home_opponents c)).
Definition needs_away (c : Club) : Z := 4 - Z.of_nat (length (away_opponents c)).

(** [Club.reset] *)
Definition reset (c : Club) : Club :=
  mkClub (name c) (country c) (pot c) [] [].

Record Fixture := mkFixture { home : nat; away : nat }.

Record DrawResult := mkDrawResult {
  r_competition : Competition;
  r_clubs : list Club;
  fixtures : list Fixture;
  is_valid : bool;
  r_backtrack_count : nat
}.

(** ** constraints.py *)

Record DrawConstraints := mkConstraints {
  c_competition : Competition;
  max_same_country : Z;
  matches_per_team : Z;
  home_matches : Z;
  away_matches : Z
}.

Definition ChampionsLeagueConstraints : DrawConstraints :=
  mkConstraints CHAMPIONS_LEAGUE 2 8 4 4.
Definition EuropaLeagueConstraints : DrawConstraints :=
  mkConstraints EUROPA_LEAGUE 2 8 4 4.
Definition ConferenceLeagueConstraints : DrawConstraints :=
  mkConstraints CONFERENCE_LEAGUE 2 6 3 3.

(** The reasons [can_pair] gives, with the data its messages print. *)
Inductive Reason :=
| SelfPairing
| SameCountry (c : string)
| AlreadyOpponents
| CountryLimit (who : string) (limit : Z) (from : string)
| HomeFull (who : string)
| AwayFull (who : string).

Definition count_from (h : list Club) (c : Club) (k : string) : Z :=
  Z.of_nat (default 0%nat (opponent_countries h c !! k)).

Definition len (l : list nat) : Z := Z.of_nat (length l).

(** [DrawConstraints.can_pair] *)
Definition can_pair (dc : DrawConstraints) (h : list Club)
    (club1 club2 : nat) (as_home : bool) : bool * option Reason :=
  let c1 := deref h club1 in
  let c2 := deref h club2 in
  if club_eq c1 c2 then (false, Some SelfPairing)
  else if bool_decide (country c1 = country c2) then (false, Some (SameCountry (country c1)))
  else if contains h (all_opponents c1) club2 then (false, Some AlreadyOpponents)
  else
    let c1_from_c2_country := count_from h c1 (country c2) in
    let c2_from_c1_country := count_from h c2 (country c1) in
    if c1_from_c2_country >=? max_same_country dc
    then (false, Some (CountryLimit (name c1) (max_same_country dc) (country c2)))
    else if c2_from_c1_country >=? max_same_country dc
    then (false, Some (CountryLimit (name c2) (max_same_country dc) (country c1)))
    else if as_home then
      if len (home_opponents c1) >=? home_matches dc then (false, Some (HomeFull (name c1)))
      else if len (away_opponents c2) >=? away_matches dc then (false, Some (AwayFull (name c2)))
      else (true, None)
    else
      if len (away_opponents c1) >=? away_matches dc then (false, Some (AwayFull (name c1)))
      else if len (home_opponents c2) >=? home_matches dc then (false, Some (HomeFull (name c2)))
      else (true, None).

(** [DrawConstraints.get_valid_opponents] *)
Definition get_valid_opponents (dc : DrawConstraints) (h : list Club)
    (club : nat) (candidates : list nat) (as_home : bool) : list nat :=
  List.filter (fun candidate => fst (can_pair dc h club candidate as_home)) candidates.

(** [DrawConstraints.is_draw_possible] *)
Definition is_draw_possible (dc : DrawConstraints) (h : list Club)
    (club : nat) (remaining_clubs : list nat) : bool :=
  let needed_home := needs_home (deref h club) in
  let needed_away := needs_away (deref h club) in
  let valid_home := len (get_valid_opponents dc h club remaining_clubs true) in
  let valid_away := len (get_valid_opponents dc h club remaining_clubs false) in
  (valid_home >=? needed_home) && (valid_away >=? needed_away).

(** ** draw_simulator.py *)

(** What a run can end in: a value, the ValueError of [list.remove] or of
    [min] on an empty list, or the recursion budget of the model used up. *)
Inductive exn := ValueError.

Inductive result (A : Type) :=
| Ret (a : A)
| Raise (e : exn)
| OutOfFuel.
Arguments Ret {A} a.
Arguments Raise {A} e.
Arguments OutOfFuel {A}.

(** The mutation steps of the search, in the order performed.  The log is
    ghost state: the source prints the assignments (when verbose) and only
    counts the undos. *)
Inductive Event :=
| Assigned (club opponent : nat) (as_home : bool)
| Undone (club opponent : nat) (as_home : bool).

Definition is_undo (e : Event) : bool :=
  match e with Undone _ _ _ => true | Assigned _ _ _ => false end.

(** One record of the input list given to [load_clubs]. *)
Record ClubData := mkData { d_name : string; d_country : string; d_pot : Z }.

Definition set_home (l : list nat) (c : Club) : Club :=
  mkClub (name c) (country c) (pot c) l (away_opponents c).
Definition set_away (l : list nat) (c : Club) : Club :=
  mkClub (name c) (country c) (pot c) (home_opponents c) l.

(** [a.home_opponents.append(b)] and [a.away_opponents.append(b)] *)
Definition append_home (h : list Club) (a b : nat) : list Club :=
  alter (fun c => set_home (home_opponents c ++ [b]) c) a h.
Definition append_away (h : list Club) (a b : nat) : list Club :=
  alter (fun c => set_away (away_opponents c ++ [b]) c) a h.

(** [a.home_opponents.remove(b)] and [a.away_opponents.remove(b)] *)
Definition remove_home (h : list Club) (a b : nat) : option (list Club) :=
  match list_remove h b (home_opponents (deref h a)) with
  | Some l => Some (alter (set_home l) a h)
  | None => None
  end.
Definition remove_away (h : list Club) (a b : nat) : option (list Club) :=
  match list_remove h b (away_opponents (deref h a)) with
  | Some l => Some (alter (set_away l) a h)
  | None => None
  end.

(** The assignment of the search loop and its undo, on the club store. *)
Definition assign (h : list Club) (club opponent : nat) (as_home : bool) : list Club :=
  if as_home then append_away (append_home h club opponent) opponent club
  else append_home (append_away h club opponent) opponent club.

Definition unassign (h : list Club) (club opponent : nat) (as_home : bool)
    : option (list Club) :=
  if as_home then
    match remove_home h club opponent with
    | Some h1 => remove_away h1 opponent club
    | None => None
    end
  else
    match remove_away h club opponent with
    | Some h1 => remove_home h1 opponent club
    | None => None
    end.

(** [club_name in k] on strings *)
Fixpoint substring_of (p s : string) : bool :=
  String.prefix p s ||
  match s with
  | EmptyString => false
  | String _ s' => substring_of p s'
  end.

(** The key built by [_count_valid_opponents_cached]. *)
Definition cache_key (c : Club) : string :=
  name c +:+ "_" +:+ pretty (length (home_opponents c))
         +:+ "_" +:+ pretty (length (away_opponents c)).

(** [_invalidate_cache] on the cache dict *)
Definition invalidate (club_name : string) (cache : gmap string nat) : gmap string nat :=
  filter (fun kv => substring_of club_name kv.1 = false) cache.

(** [_count_valid_opponents] *)
Definition _count_valid_opponents (dc : DrawConstraints) (h : list Club)
    (club : nat) (all_clubs : list nat) : nat :=
  foldl (fun count other =>
           if ref_eq h other club || is_complete (deref h other) then count
           else
             let count1 :=
               if (needs_home (deref h club) >? 0) && fst (can_pair dc h club other true)
               then S count else count in
             if (needs_away (deref h club) >? 0) && fst (can_pair dc h club other false)
             then S count1 else count1)
        0%nat all_clubs.

(** [_get_valid_opponents] *)
Definition _get_valid_opponents (dc : DrawConstraints) (h : list Club)
    (club : nat) (all_clubs : list nat) (as_home : bool) : list nat :=
  List.filter (fun other =>
                 negb (ref_eq h other club || is_complete (deref h other))
                 && fst (can_pair dc h club other as_home)
                 && fst (can_pair dc h other club (negb as_home)))
              all_clubs.

(** [list.sort(key=...)]: a stable sort, ascending in the key. *)
Fixpoint insert_by {A} (key : A -> nat) (x : A) (l : list A) : list A :=
  match l with
  | [] => [x]
  | y :: l' => if (key x <=? key y)%nat then x :: y :: l' else y :: insert_by key x l'
  end.

Definition sort_by {A} (key : A -> nat) (l : list A) : list A :=
  foldr (insert_by key) [] l.

(** [_get_default_clubs] *)
Definition _get_default_clubs : list ClubData :=
  [ mkData "Real Madrid" "ESP" 1; mkData "Manchester City" "ENG" 1;
    mkData "Bayern Munich" "GER" 1; mkData "PSG" "FRA" 1;
    mkData "Liverpool" "ENG" 1; mkData "Inter Milan" "ITA" 1;
    mkData "Borussia Dortmund" "GER" 1; mkData "Barcelona" "ESP" 1;
    mkData "Leverkusen" "GER" 1;
    mkData "Atletico Madrid" "ESP" 2; mkData "Juventus" "ITA" 2;
    mkData "Benfica" "POR" 2; mkData "Arsenal" "ENG" 2;
    mkData "Club Brugge" "BEL" 2; mkData "Shakhtar" "UKR" 2;
    mkData "AC Milan" "ITA" 2; mkData "Atalanta" "ITA" 2;
    mkData "Sporting CP" "POR" 2;
    mkData "FC Porto" "POR" 3; mkData "Feyenoord" "NED" 3;
    mkData "PSV" "NED" 3; mkData "Celtic" "SCO" 3;
    mkData "Monaco" "FRA" 3; mkData "Aston Villa" "ENG" 3;
    mkData "Bologna" "ITA" 3; mkData "Lille" "FRA" 3;
    mkData "Girona" "ESP" 3;
    mkData "Stuttgart" "GER" 4; mkData "Sturm Graz" "AUT" 4;
    mkData "Brest" "FRA" 4; mkData "Salzburg" "AUT" 4;
    mkData "Red Star" "SRB" 4; mkData "Young Boys" "SUI" 4;
    mkData "Dinamo Zagreb" "CRO" 4; mkData "Sparta Prague" "CZE" 4;
    mkData "Slovan Bratislava" "SVK" 4 ].

Definition club_of_data (d : ClubData) : Club :=
  mkClub (d_name d) (d_country d) (d_pot d) [] [].

(** [_generate_fixtures], on the club store: [seen] is the set of
    (home name, away name) pairs already emitted. *)
Fixpoint fixtures_of_club (h : list Club) (club : nat) (opps : list nat)
    (acc : list Fixture * gset (string * string)) : list Fixture * gset (string * string) :=
  match opps with
  | [] => acc
  | opp :: rest =>
      let key := (name (deref h club), name (deref h opp)) in
      if bool_decide (key ∈ acc.2) then fixtures_of_club h club rest acc
      else fixtures_of_club h club rest (acc.1 ++ [mkFixture club opp], {[key]} ∪ acc.2)
  end.

Definition _generate_fixtures (h : list Club) : list Fixture :=
  (foldl (fun acc club => fixtures_of_club h club (home_opponents (deref h club)) acc)
         ([], ∅) (seq 0 (length h))).1.

Definition fixture_key (h : list Club) (f : Fixture) : string * string :=
  (name (deref h (home f)), name (deref h (away f))).

(** The profile [__init__] picks for a competition. *)
Definition constraints_for (competition : Competition) : DrawConstraints :=
  match competition with
  | CHAMPIONS_LEAGUE => ChampionsLeagueConstraints
  | EUROPA_LEAGUE => EuropaLeagueConstraints
  | CONFERENCE_LEAGUE => ConferenceLeagueConstraints
  end.

(** ** The simulator, over a pseudo-random generator *)

Section Simulator.

(** The state of the process-wide generator of [random], [random.seed(n)]
    and [random.shuffle] on a list of club references. *)
Variable RNG : Type.
Variable seed_state : Z -> RNG.
Variable shuffle : RNG -> list nat -> list nat * RNG.

(** [UEFADrawSimulator]: [_valid_cache] is only ever cleared and is left
    out; [rng] is the global generator state; [history] is the ghost log. *)
Record Simulator := mkSim {
  competition : Competition;
  constraints : DrawConstraints;
  clubs : list Club;
  backtrack_count : nat;
  max_backtrack : Z;
  _opponent_count_cache : gmap string nat;
  rng : RNG;
  history : list Event
}.

Definition set_clubs (h : list Club) (s : Simulator) : Simulator :=
  mkSim (competition s) (constraints s) h (backtrack_count s) (max_backtrack s)
        (_opponent_count_cache s) (rng s) (history s).
Definition set_cache (m : gmap string nat) (s : Simulator) : Simulator :=
  mkSim (competition s) (constraints s) (clubs s) (backtrack_count s) (max_backtrack s)
        m (rng s) (history s).
Definition set_rng (g : RNG) (s : Simulator) : Simulator :=
  mkSim (competition s) (constraints s) (clubs s) (backtrack_count s) (max_backtrack s)
        (_opponent_count_cache s) g (history s).
Definition set_backtrack_count (n : nat) (s : Simulator) : Simulator :=
  mkSim (competition s) (constraints s) (clubs s) n (max_backtrack s)
        (_opponent_count_cache s) (rng s) (history s).
(** [sim.max_backtrack = m], the attribute a caller sets to bound the search *)
Definition set_max_backtrack (m : Z) (s : Simulator) : Simulator :=
  mkSim (competition s) (constraints s) (clubs s) (backtrack_count s) m
        (_opponent_count_cache s) (rng s) (history s).
Definition log (e : Event) (s : Simulator) : Simulator :=
  mkSim (competition s) (constraints s) (clubs s) (backtrack_count s) (max_backtrack s)
        (_opponent_count_cache s) (rng s) (history s ++ [e]).

(** [__init__]: [g] is the generator state the process is in. *)
Definition new_simulator (competition : Competition) (seed : option Z) (g : RNG) : Simulator :=
  mkSim competition (constraints_for competition)
        [] 0%nat 50000 ∅
        (match seed with Some n => seed_state n | None => g end)
        [].

(** [load_clubs] *)
Definition load_clubs (data : option (list ClubData)) (s : Simulator) : Simulator :=
  let data := match data with Some d => d | None => _get_default_clubs end in
  set_cache ∅ (set_clubs (map club_of_data data) s).

(** [_invalidate_cache] *)
Definition _invalidate_cache (club_name : string) (s : Simulator) : Simulator :=
  set_cache (invalidate club_name (_opponent_count_cache s)) s.

(** [_count_valid_opponents_cached] *)
Definition _count_valid_opponents_cached (s : Simulator) (club : nat)
    (all_clubs : list nat) : nat * Simulator :=
  let key := cache_key (deref (clubs s) club) in
  match _opponent_count_cache s !! key with
  | Some n => (n, s)
  | None =>
      let count := _count_valid_opponents (constraints s) (clubs s) club all_clubs in
      (count, set_cache (<[key := count]> (_opponent_count_cache s)) s)
  end.

(** The counter of the comparison solver: always the uncached count. *)
Definition count_valid_opponents_uncached (s : Simulator) (club : nat)
    (all_clubs : list nat) : nat * Simulator :=
  (_count_valid_opponents (constraints s) (clubs s) club all_clubs, s).

(** [_get_valid_opponents_sorted] *)
Definition _get_valid_opponents_sorted (s : Simulator) (club : nat)
    (all_clubs : list nat) (as_home : bool) : list nat * Simulator :=
  let valid := _get_valid_opponents (constraints s) (clubs s) club all_clubs as_home in
  let '(valid, g) := shuffle (rng s) valid in
  (sort_by (fun c => _count_valid_opponents (constraints s) (clubs s) c all_clubs) valid,
   set_rng g s).

(** The assignment of the loop body: the two appends, the two cache
    invalidations, and the log entry. *)
Definition do_assign (club opponent : nat) (as_home : bool) (s : Simulator) : Simulator :=
  let s := set_clubs (assign (clubs s) club opponent as_home) s in
  let s := _invalidate_cache (name (deref (clubs s) club)) s in
  let s := _invalidate_cache (name (deref (clubs s) opponent)) s in
  log (Assigned club opponent as_home) s.

(** The backtrack of the loop body: the counter, the two removes, the two
    cache invalidations, and the log entry. *)
Definition do_backtrack (club opponent : nat) (as_home : bool) (s : Simulator)
    : result Simulator :=
  let s := set_backtrack_count (S (backtrack_count s)) s in
  match unassign (clubs s) club opponent as_home with
  | None => Raise ValueError
  | Some h =>
      let s := set_clubs h s in
      let s := _invalidate_cache (name (deref (clubs s) club)) s in
      let s := _invalidate_cache (name (deref (clubs s) opponent)) s in
      Ret (log (Undone club opponent as_home) s)
  end.

Section Search.

(** The search is written once over the counter it consults for forward
    checking and for the MRV choice; the source's
    [_assign_opponents_optimized] is its instance at
    [_count_valid_opponents_cached]. *)
Variable counter : Simulator -> nat -> list nat -> nat * Simulator.

(** The forward-checking loop: [false] when a club has no valid option. *)
Fixpoint forward_check (all_clubs incomplete : list nat) (s : Simulator)
    : bool * Simulator :=
  match incomplete with
  | [] => (true, s)
  | club :: rest =>
      let '(valid_count, s) := counter s club all_clubs in
      if (valid_count =? 0)%nat then (false, s)
      else forward_check all_clubs rest s
  end.

(** [min(incomplete, key=...)]: the first club with the least key. *)
Fixpoint min_scan (all_clubs l : list nat) (best best_key : nat) (s : Simulator)
    : nat * Simulator :=
  match l with
  | [] => (best, s)
  | c :: l' =>
      let '(k, s) := counter s c all_clubs in
      if (k <? best_key)%nat then min_scan all_clubs l' c k s
      else min_scan all_clubs l' best best_key s
  end.

Definition min_by_count (all_clubs incomplete : list nat) (s : Simulator)
    : result (nat * Simulator) :=
  match incomplete with
  | [] => Raise ValueError
  | c :: l' =>
      let '(k, s) := counter s c all_clubs in
      Ret (min_scan all_clubs l' c k s)
  end.

(** [for opponent in candidates]: [true] when the loop returned True,
    [false] when it ran to its end. *)
Fixpoint try_candidates (rec : Simulator -> result (bool * Simulator))
    (club : nat) (as_home : bool) (candidates : list nat) (s : Simulator)
    : result (bool * Simulator) :=
  match candidates with
  | [] => Ret (false, s)
  | opponent :: rest =>
      match rec (do_assign club opponent as_home s) with
      | Ret (true, s) => Ret (true, s)
      | Ret (false, s) =>
          match do_backtrack club opponent as_home s with
          | Ret s => try_candidates rec club as_home rest s
          | Raise e => Raise e
          | OutOfFuel => OutOfFuel
          end
      | Raise e => Raise e
      | OutOfFuel => OutOfFuel
      end
  end.

(** [for as_home in directions] *)
Fixpoint try_directions (rec : Simulator -> result (bool * Simulator))
    (all_clubs : list nat) (club : nat) (directions : list bool) (s : Simulator)
    : result (bool * Simulator) :=
  match directions with
  | [] => Ret (false, s)
  | as_home :: rest =>
      let '(candidates, s) := _get_valid_opponents_sorted s club all_clubs as_home in
      match try_candidates rec club as_home candidates s with
      | Ret (false, s) => try_directions rec all_clubs club rest s
      | r => r
      end
  end.

(** The recursive search; [fuel] bounds the recursion depth (the
    interpreter's own recursion limit is not modelled). *)
Fixpoint assign_opponents (fuel : nat) (all_clubs : list nat) (s : Simulator)
    : result (bool * Simulator) :=
  match fuel with
  | O => OutOfFuel
  | S fuel =>
      if Z.of_nat (backtrack_count s) >? max_backtrack s then Ret (false, s)
      else
        let incomplete :=
          List.filter (fun c => negb (is_complete (deref (clubs s) c))) all_clubs in
        match incomplete with
        | [] => Ret (true, s)
        | _ :: _ =>
            let '(ok, s) := forward_check all_clubs incomplete s in
            if negb ok then Ret (false, s)
            else
              match min_by_count all_clubs incomplete s with
              | Ret (club, s) =>
                  let needs_home := needs_home (deref (clubs s) club) >? 0 in
                  let needs_away := needs_away (deref (clubs s) club) >? 0 in
                  if negb needs_home && negb needs_away
                  then assign_opponents fuel all_clubs s
                  else
                    let directions :=
                      (if needs_home then [true] else [])
                        ++ (if needs_away then [false] else []) in
                    try_directions (assign_opponents fuel all_clubs)
                                   all_clubs club directions s
              | Raise e => Raise e
              | OutOfFuel => OutOfFuel
              end
        end
  end.

(** The clubs of one pot, as references, in list order. *)
Definition pot_clubs (h : list Club) (p : Z) : list nat :=
  List.filter (fun c => bool_decide (pot (deref h c) = p)) (seq 0 (length h)).

(** The pot loop of [_draw_with_backtracking_optimized]. *)
Fixpoint shuffle_pots (h : list Club) (pots : list Z) (g : RNG) : list nat * RNG :=
  match pots with
  | [] => ([], g)
  | p :: rest =>
      let '(l, g) := shuffle g (pot_clubs h p) in
      let '(ls, g) := shuffle_pots h rest g in
      (l ++ ls, g)
  end.

Definition draw_with_backtracking (fuel : nat) (s : Simulator)
    : result (bool * Simulator) :=
  let '(shuffled, g) := shuffle_pots (clubs s) [1; 2; 3; 4] (rng s) in
  assign_opponents fuel shuffled (set_rng g s).

(** [draw] *)
Definition draw_with (fuel : nat) (s : Simulator) : result (DrawResult * Simulator) :=
  let s := match clubs s with [] => load_clubs None s | _ :: _ => s end in
  let s := set_clubs (map reset (clubs s)) s in
  let s := set_backtrack_count 0 s in
  let s := set_cache ∅ s in
  let s := mkSim (competition s) (constraints s) (clubs s) (backtrack_count s)
                 (max_backtrack s) (_opponent_count_cache s) (rng s) [] in
  match draw_with_backtracking fuel s with
  | Ret (success, s) =>
      Ret (mkDrawResult (competition s) (clubs s)
             (if success then _generate_fixtures (clubs s) else [])
             success (backtrack_count s), s)
  | Raise e => Raise e
  | OutOfFuel => OutOfFuel
  end.

End Search.

(** The source's search and [draw]: the counter is the cached one. *)
Definition _assign_opponents_optimized := assign_opponents _count_valid_opponents_cached.
Definition _draw_with_backtracking_optimized := draw_with_backtracking _count_valid_opponents_cached.
Definition draw := draw_with _count_valid_opponents_cached.

(** The comparison solver: the same search, always counting afresh. *)
Definition draw_uncached := draw_with count_valid_opponents_uncached.

End Simulator.

Arguments mkSim {RNG}.
Arguments competition {RNG} s.
Arguments constraints {RNG} s.
Arguments clubs {RNG} s.
Arguments backtrack_count {RNG} s.
Arguments max_backtrack {RNG} s.
Arguments _opponent_count_cache {RNG} s.
Arguments rng {RNG} s.
Arguments history {RNG} s.
Arguments set_clubs {RNG} h s.
Arguments set_cache {RNG} m s.
Arguments set_rng {RNG} g s.
Arguments set_backtrack_count {RNG} n s.
Arguments log {RNG} e s.
Arguments set_max_backtrack {RNG} m s.
Arguments new_simulator {RNG} seed_state competition seed g.
Arguments load_clubs {RNG} data s.
Arguments _invalidate_cache {RNG} club_name s.
Arguments _count_valid_opponents_cached {RNG} s club all_clubs.
Arguments count_valid_opponents_uncached {RNG} s club all_clubs.
Arguments _get_valid_opponents_sorted {RNG} shuffle s club all_clubs as_home.
Arguments do_assign {RNG} club opponent as_home s.
Arguments do_backtrack {RNG} club opponent as_home s.
Arguments forward_check {RNG} counter all_clubs incomplete s.
Arguments min_scan {RNG} counter all_clubs l best best_key s.
Arguments min_by_count {RNG} counter all_clubs incomplete s.
Arguments try_candidates {RNG} rec club as_home candidates s.
Arguments try_directions {RNG} shuffle rec all_clubs club directions s.
Arguments assign_opponents {RNG} shuffle counter fuel all_clubs s.
Arguments shuffle_pots {RNG} shuffle h pots g.
Arguments draw_with_backtracking {RNG} shuffle counter fuel s.
Arguments draw_with {RNG} shuffle counter fuel s.
Arguments _assign_opponents_optimized {RNG} shuffle fuel all_clubs s.
Arguments _draw_with_backtracking_optimized {RNG} shuffle fuel s.
Arguments draw {RNG} shuffle fuel s.
Arguments draw_uncached {RNG} shuffle fuel s.

(** ** CPython's [random]: MT19937, [seed] on an int, [shuffle]

    The generator behind the parameters above, as CPython implements it
    ([_randommodule.c] and [random.py]); it is used to run the simulator on
    concrete seeds. *)

Module PyRandom.

Record state := mkState { mt : list Z; mti : nat }.

Definition w32 (x : Z) : Z := Z.land x 4294967295.

Definition N : nat := 624.
Definition M : nat := 397.

Fixpoint init_genrand_from (n : nat) (i prev : Z) : list Z :=
  match n with
  | O => []
  | S n' =>
      let x := w32 (1812433253 * Z.lxor prev (Z.shiftr prev 30) + i) in
      x :: init_genrand_from n' (i + 1) x
  end.

Definition init_genrand (s : Z) : list Z :=
  w32 s :: init_genrand_from (N - 1) 1 (w32 s).

Definition wrap_index (v : list Z) (i : nat) : list Z * nat :=
  if (N <=? i)%nat then (<[0%nat := v !!! (N - 1)%nat]> v, 1%nat) else (v, i).

Fixpoint key_loop (k : nat) (key : list Z) (v : list Z) (i j : nat) : list Z * nat :=
  match k with
  | O => (v, i)
  | S k' =>
      let p := v !!! (i - 1)%nat in
      let x := w32 (Z.lxor (v !!! i) (w32 (Z.lxor p (Z.shiftr p 30) * 1664525))
                    + key !!! j + Z.of_nat j) in
      let '(v, i) := wrap_index (<[i := x]> v) (S i) in
      let j := if (length key <=? S j)%nat then 0%nat else S j in
      key_loop k' key v i j
  end.

Fixpoint mix_loop (k : nat) (v : list Z) (i : nat) : list Z :=
  match k with
  | O => v
  | S k' =>
      let p := v !!! (i - 1)%nat in
      let x := w32 (Z.lxor (v !!! i) (w32 (Z.lxor p (Z.shiftr p 30) * 1566083941))
                    - Z.of_nat i) in
      let '(v, i) := wrap_index (<[i := x]> v) (S i) in
      mix_loop k' v i
  end.

Definition init_by_array (key : list Z) : state :=
  let '(v, i) := key_loop (Nat.max N (length key)) key (init_genrand 19650218) 1 0 in
  mkState (<[0%nat := 2147483648]> (mix_loop (N - 1) v i)) N.

(** The 32-bit digits of [n], least significant first. *)
Fixpoint digits32 (fuel : nat) (n : Z) : list Z :=
  match fuel with
  | O => []
  | S f => if n <? 4294967296 then [n] else w32 n :: digits32 f (Z.shiftr n 32)
  end.

Definition seed (a : Z) : state :=
  let n := Z.abs a in
  init_by_array (digits32 (S (Z.to_nat (Z.log2 n))) n).

Definition twist (v : list Z) : list Z :=
  foldl (fun v kk =>
           let y := Z.lor (Z.land (v !!! kk) 2147483648)
                          (Z.land (v !!! ((kk + 1) mod N)%nat) 2147483647) in
           <[kk := Z.lxor (Z.lxor (v !!! ((kk + M) mod N)%nat) (Z.shiftr y 1))
                          (if Z.odd y then 2567483615 else 0)]> v)
        v (seq 0 N).

Definition genrand_uint32 (s : state) : Z * state :=
  let s := if (N <=? mti s)%nat then mkState (twist (mt s)) 0 else s in
  let y := mt s !!! mti s in
  let y := Z.lxor y (Z.shiftr y 11) in
  let y := Z.lxor y (Z.land (Z.shiftl y 7) 2636928640) in
  let y := Z.lxor y (Z.land (Z.shiftl y 15) 4022730752) in
  let y := Z.lxor y (Z.shiftr y 18) in
  (y, mkState (mt s) (S (mti s))).

(** [getrandbits(k)] for [0 < k <= 32] *)
Definition getrandbits (k : Z) (s : state) : Z * state :=
  let '(y, s) := genrand_uint32 s in (Z.shiftr y (32 - k), s).

Definition bit_length (n : Z) : Z := if n =? 0 then 0 else Z.log2 n + 1.

(** [_randbelow_with_getrandbits]; [tries] bounds the rejection loop. *)
Fixpoint randbelow_loop (tries : nat) (n k : Z) (s : state) : Z * state :=
  let '(r, s) := getrandbits k s in
  match tries with
  | O => (0, s)
  | S t => if r >=? n then randbelow_loop t n k s else (r, s)
  end.

Definition randbelow (n : Z) (s : state) : Z * state :=
  randbelow_loop 1000 n (bit_length n) s.

Definition swap (l : list nat) (i j : nat) : list nat :=
  <[j := l !!! i]> (<[i := l !!! j]> l).

(** [random.shuffle]: [i] runs from [len(x) - 1] down to 1. *)
Fixpoint shuffle_from (i : nat) (s : state) (l : list nat) : list nat * state :=
  match i with
  | O => (l, s)
  | S i' =>
      let '(j, s) := randbelow (Z.of_nat (i + 1)) s in
      shuffle_from i' s (swap l i (Z.to_nat j))
  end.

Definition shuffle (s : state) (l : list nat) : list nat * state :=
  shuffle_from (length l - 1) s l.

End PyRandom.

(** * Vocabulary of the properties *)

Open Scope nat_scope.

(** The fields of a club that the search never changes. *)
Definition ident (c : Club) : string * string * Z := (name c, country c, pot c).

(** The identity [Club.__eq__] and [Club.__hash__] look at. *)
Definition key (h : list Club) (r : nat) : string * string :=
  (name (deref h r), country (deref h r)).

(** Two stores holding the same clubs, in the same order, up to their
    opponent lists. *)
Definition same_ids (h h' : list Club) : Prop := ident <$> h = ident <$> h'.

(** A pair the search may assign: both directions of [can_pair] hold. *)
Definition pairable (dc : DrawConstraints) (h : list Club)
    (club opponent : nat) (as_home : bool) : Prop :=
  fst (can_pair dc h club opponent as_home) = true /\
  fst (can_pair dc h opponent club (negb as_home)) = true.

(** The invariants of one club [c], stored at reference [i]: its opponents
    are clubs of the store, it is not its own opponent, no opponent occurs
    twice across its two lists, and each list is within the profile's quota. *)
Definition club_ok (dc : DrawConstraints) (h : list Club) (i : nat) (c : Club) : Prop :=
  Forall (fun x => x < length h) (all_opponents c) /\
  (key h i ∉ key h <$> all_opponents c) /\
  NoDup (key h <$> all_opponents c) /\
  (len (home_opponents c) <= home_matches dc)%Z /\
  (len (away_opponents c) <= away_matches dc)%Z.

(** The invariants of every club of the store. *)
Definition store_ok (dc : DrawConstraints) (h : list Club) : Prop :=
  forall i, i < length h -> club_ok dc h i (deref h i).

(** The number of entries in all opponent lists of the store. *)
Definition total (h : list Club) : nat :=
  sum_list ((fun c => length (all_opponents c)) <$> h).

(** The mutation of the store a log entry stands for. *)
Definition apply_event (h : list Club) (e : Event) : option (list Club) :=
  match e with
  | Assigned club opponent as_home => Some (assign h club opponent as_home)
  | Undone club opponent as_home => unassign h club opponent as_home
  end.

(** The store after the events [evs], from [h]. *)
Fixpoint replay (h : list Club) (evs : list Event) : option (list Club) :=
  match evs with
  | [] => Some h
  | e :: evs => match apply_event h e with
                | Some h' => replay h' evs
                | None => None
                end
  end.

(** Every event of [evs] applies, and every store it leads to satisfies [P]. *)
Fixpoint visits (P : list Club -> Prop) (h : list Club) (evs : list Event) : Prop :=
  match evs with
  | [] => True
  | e :: evs => match apply_event h e with
                | Some h' => P h' /\ visits P h' evs
                | None => False
                end
  end.

(** The number of undo steps in a log. *)
Definition undo_count (evs : list Event) : nat := length (List.filter is_undo evs).

(** The states the search runs on: the store satisfies the invariants
    under the profile [dc] of the simulator and holds [n] clubs. *)
Definition search_pre {RNG} (dc : DrawConstraints) (n : nat) (s : Simulator RNG) : Prop :=
  store_ok dc (clubs s) /\ constraints s = dc /\ length (clubs s) = n.

(** What the search has done between two of its states: the events it
    logged lead from the one store to the other, through stores that all
    satisfy the invariants, and the counter grew by the number of undos. *)
Definition search_trace {RNG} (dc : DrawConstraints) (s s' : Simulator RNG) : Prop :=
  exists evs,
    history s' = history s ++ evs /\
    replay (clubs s) evs = Some (clubs s') /\
    visits (store_ok dc) (clubs s) evs /\
    backtrack_count s' = backtrack_count s + undo_count evs /\
    constraints s' = constraints s /\
    max_backtrack s' = max_backtrack s /\
    competition s' = competition s.

(** What a call of the search on the clubs [all_clubs] that returns [b]
    has done. *)
Definition search_post {RNG} (dc : DrawConstraints) (all_clubs : list nat)
    (s : Simulator RNG) (b : bool) (s' : Simulator RNG) : Prop :=
  search_trace dc s s' /\
  (b = false -> clubs s' = clubs s) /\
  (b = true -> Forall (fun c => is_complete (deref (clubs s') c) = true) all_clubs).

(** The state [draw] hands to the search: default clubs when there are
    none, opponent lists reset, counter and cache cleared, empty log. *)
Definition prepare {RNG} (s : Simulator RNG) : Simulator RNG :=
  let s := match clubs s with [] => load_clubs None s | _ :: _ => s end in
  mkSim (competition s) (constraints s) (map reset (clubs s)) 0
        (max_backtrack s) ∅ (rng s) [].

(** The clubs the search is called with: those of pots 1 to 4. *)
Definition active (h : list Club) : list nat :=
  concat (map (pot_clubs h) [1; 2; 3; 4]%Z).

(** The [DrawResult] of a run that returned. *)
Definition drawn {RNG} (x : result (DrawResult * Simulator RNG)) : option DrawResult :=
  match x with
  | Ret (r, _) => Some r
  | Raise _ | OutOfFuel => None
  end.


(** [UEFADrawSimulator(competition, seed=seed)] in a process whose generator
    was last seeded with 1, followed by [load_clubs(data)]. *)
Definition python_simulator (competition : Competition) (seed : Z)
    (data : list ClubData) : Simulator PyRandom.state :=
  load_clubs (Some data) (new_simulator PyRandom.seed competition (Some seed) (PyRandom.seed 1)).

(** The four clubs of the repository's [test_load_custom_clubs]. *)
Definition four_clubs : list ClubData :=
  [ mkData "Team A" "AAA" 1; mkData "Team B" "BBB" 1;
    mkData "Team C" "CCC" 2; mkData "Team D" "DDD" 2 ].

(** Eleven clubs of eleven countries, taken from the default list. *)
Definition eleven_clubs : list ClubData :=
  [ mkData "Real Madrid" "ESP" 1; mkData "Manchester City" "ENG" 1;
    mkData "Bayern Munich" "GER" 1; mkData "PSG" "FRA" 2;
    mkData "Inter Milan" "ITA" 2; mkData "Benfica" "POR" 2;
    mkData "Club Brugge" "BEL" 3; mkData "Shakhtar" "UKR" 3;
    mkData "Feyenoord" "NED" 3; mkData "Celtic" "SCO" 4;
    mkData "Salzburg" "AUT" 4 ].

(** Seed 0, the eleven clubs, and [sim.max_backtrack = 100] as in the
    repository's [test_max_backtrack_limit]. *)
Definition sim_eleven : Simulator PyRandom.state :=
  set_max_backtrack 100 (python_simulator CHAMPIONS_LEAGUE 0 eleven_clubs).

(** Three clubs, the name of one a substring of the name of another. *)
Definition inter_clubs : list ClubData :=
  [ mkData "Inter Milan" "ITA" 1; mkData "Inter" "USA" 2; mkData "Benfica" "POR" 3 ].

(** The simulator after [load_clubs(inter_clubs)] and one cached count for
    Inter Milan, as forward checking makes it. *)
Definition sim_inter : Simulator PyRandom.state :=
  (_count_valid_opponents_cached
     (python_simulator CHAMPIONS_LEAGUE 0 inter_clubs) 0 [0; 1; 2]).2.

(** The unordered identity pair of a fixture. *)
Definition unordered_pair (h : list Club) (f : Fixture) : gset (string * string) :=
  {[ key h (home f); key h (away f) ]}.

(** The stores that arise from [h0] by assignments alone, each of a pair of
    clubs of [all_clubs] that [can_pair] accepts in both directions, made
    in a store that satisfies the invariants. *)
Inductive built (dc : DrawConstraints) (all_clubs : list nat) (h0 : list Club)
    : list Club -> Prop :=
| built_start : built dc all_clubs h0 h0
| built_assign h club opponent as_home :
    built dc all_clubs h0 h ->
    store_ok dc h ->
    In club all_clubs -> In opponent all_clubs ->
    club < length h -> opponent < length h ->
    pairable dc h club opponent as_home ->
    built dc all_clubs h0 (assign h club opponent as_home).

(** * Validation, draw state and club queries *)

(** ** constraints.py: the final validation *)

(** What [validate_final_draw] reports, with the data its messages print. *)
Inductive Violation :=
| HomeCount (who : string) (found : nat) (expected : Z)
| AwayCount (who : string) (found : nat) (expected : Z)
| SameCountryMatch (who opponent : string)
| CountryCount (who : string) (count : nat) (from : string)
| DuplicateOpponent (who : string).

(** [countries[k] = countries.get(k, 0) + 1] on the dict as the list of its
    items: a key keeps its place, a new key goes to the end. *)
Fixpoint bump (k : string) (items : list (string * nat)) : list (string * nat) :=
  match items with
  | [] => [(k, 1)]
  | (k', count) :: items' =>
      if decide (k' = k) then (k', count + 1) :: items'
      else (k', count) :: bump k items'
  end.

(** [Club.opponent_countries.items()]: the dict of [opponent_countries], in
    the order a loop over it sees. *)
Definition opponent_countries_items (h : list Club) (c : Club) : list (string * nat) :=
  foldl (fun items opp => bump (country (deref h opp)) items) [] (all_opponents c).

(** The body of the loop of [validate_final_draw] for one club;
    [len(set(...))] counts the distinct club identities. *)
Definition club_violations (dc : DrawConstraints) (h : list Club) (club : nat)
    : list Violation :=
  let c := deref h club in
  (if bool_decide (len (home_opponents c) = home_matches dc) then []
   else [HomeCount (name c) (length (home_opponents c)) (home_matches dc)])
  ++ (if bool_decide (len (away_opponents c) = away_matches dc) then []
      else [AwayCount (name c) (length (away_opponents c)) (away_matches dc)])
  ++ flat_map (fun opp =>
                 if bool_decide (country (deref h opp) = country c)
                 then [SameCountryMatch (name c) (name (deref h opp))] else [])
              (all_opponents c)
  ++ flat_map (fun item =>
                 if (Z.of_nat item.2 >? max_same_country dc)%Z
                 then [CountryCount (name c) item.2 item.1] else [])
              (opponent_countries_items h c)
  ++ (if bool_decide (length (all_opponents c)
                      = size (list_to_set (key h <$> all_opponents c)
                                : gset (string * string)))
      then [] else [DuplicateOpponent (name c)]).

(** [DrawConstraints.validate_final_draw] *)
Definition validate_final_draw (dc : DrawConstraints) (h : list Club) (clubs : list nat)
    : bool * list Violation :=
  let violations := flat_map (club_violations dc h) clubs in
  (length violations =? 0, violations).

(** ** models.py: the draw state, [can_face], [get_club_fixtures] *)

(** [DrawState] of models.py: its clubs are references into the store; an
    assignment is the tuple (club1, club2, is_home). *)
Record DrawState := mkDrawState {
  ds_clubs : list nat;
  assignments : list (nat * nat * bool);
  current_club_idx : Z
}.

(** The dict [DrawState.save] returns, with the four keys it writes; its
    two inner dicts are keyed by club name.  Lists are held by their
    contents: [save] copies them. *)
Record SavedState := mkSaved {
  sv_assignments : list (nat * nat * bool);
  sv_club_idx : Z;
  sv_home_opponents : gmap string (list nat);
  sv_away_opponents : gmap string (list nat)
}.

(** [{c.name: f(c) for c in clubs}]: a later club of the same name
    overwrites the entry of an earlier one. *)
Definition by_name (h : list Club) (f : Club -> list nat) (clubs : list nat)
    : gmap string (list nat) :=
  foldl (fun m c => <[name (deref h c) := f (deref h c)]> m) ∅ clubs.

(** [DrawState.save] *)
Definition save (h : list Club) (st : DrawState) : SavedState :=
  mkSaved (assignments st) (current_club_idx st)
          (by_name h home_opponents (ds_clubs st))
          (by_name h away_opponents (ds_clubs st)).

(** The loop of [DrawState.restore]; [None] stands for the KeyError of a
    name the saved dicts do not hold. *)
Fixpoint restore_clubs (state : SavedState) (h : list Club) (clubs : list nat)
    : option (list Club) :=
  match clubs with
  | [] => Some h
  | club :: rest =>
      match sv_home_opponents state !! name (deref h club) with
      | None => None
      | Some l =>
          let h := alter (set_home l) club h in
          match sv_away_opponents state !! name (deref h club) with
          | None => None
          | Some l' => restore_clubs state (alter (set_away l') club h) rest
          end
      end
  end.

(** [DrawState.restore] *)
Definition restore (h : list Club) (st : DrawState) (state : SavedState)
    : option (list Club * DrawState) :=
  let st := mkDrawState (ds_clubs st) (sv_assignments state) (sv_club_idx state) in
  match restore_clubs state h (ds_clubs st) with
  | Some h' => Some (h', st)
  | None => None
  end.

(** [Club.can_face] of models.py *)
Definition can_face (h : list Club) (self other : nat) (max_same_country : Z) : bool :=
  if bool_decide (name (deref h self) = name (deref h other)) then false
  else if bool_decide (country (deref h self) = country (deref h other)) then false
  else if contains h (all_opponents (deref h self)) other then false
  else
    let current_from_country := count_from h (deref h self) (country (deref h other)) in
    if (current_from_country >=? max_same_country)%Z then false
    else true.

(** [DrawResult.get_club_fixtures]: the loop over [self.clubs], which
    returns at the first club of that name; the pair stands for the dict
    with the keys "home" and "away". *)
Fixpoint club_fixtures_loop (h : list Club) (cs : list Club) (club_name : string)
    : list string * list string :=
  match cs with
  | [] => ([], [])
  | club :: rest =>
      if bool_decide (name club = club_name)
      then ((fun c => name (deref h c)) <$> home_opponents club,
            (fun c => name (deref h c)) <$> away_opponents club)
      else club_fixtures_loop h rest club_name
  end.

Definition get_club_fixtures (r : DrawResult) (club_name : string)
    : list string * list string :=
  club_fixtures_loop (r_clubs r) (r_clubs r) club_name.

(** * Vocabulary of the results *)

(** The number of the references of [l] whose club is of country [k]. *)
Definition count_in (h : list Club) (l : list nat) (k : string) : nat :=
  length (filter (fun o => country (deref h o) = k) l).

(** Home and away lists mirror each other: [b] is a home opponent of [a]
    exactly when [a] is an away opponent of [b]. *)
Definition mirror_ok (h : list Club) : Prop :=
  forall a b, a < length h -> b < length h ->
    (In b (home_opponents (deref h a)) <-> In a (away_opponents (deref h b))).

(** No club has an opponent of its own country. *)
Definition foreign_ok (h : list Club) : Prop :=
  forall a x, a < length h -> In x (all_opponents (deref h a)) ->
    country (deref h x) <> country (deref h a).

(** No club has more opponents of one country than the profile allows. *)
Definition limit_ok (dc : DrawConstraints) (h : list Club) : Prop :=
  forall a k, a < length h ->
    (Z.of_nat (count_in h (all_opponents (deref h a)) k) <= max_same_country dc)%Z.

(** Clubs outside [all_clubs] have no opponents. *)
Definition idle_ok (all_clubs : list nat) (h : list Club) : Prop :=
  forall a, a < length h -> ~ In a all_clubs -> all_opponents (deref h a) = [].

(** What [validate_final_draw] checks of one club: both quotas met, no
    opponent of its own country, no country met more often than allowed,
    no opponent identity twice. *)
Definition club_valid (dc : DrawConstraints) (h : list Club) (club : nat) : Prop :=
  len (home_opponents (deref h club)) = home_matches dc /\
  len (away_opponents (deref h club)) = away_matches dc /\
  (forall opp, In opp (all_opponents (deref h club)) ->
     country (deref h opp) <> country (deref h club)) /\
  (forall opp, In opp (all_opponents (deref h club)) ->
     (Z.of_nat (count_in h (all_opponents (deref h club)) (country (deref h opp)))
      <= max_same_country dc)%Z) /\
  NoDup (key h <$> all_opponents (deref h club)).

(** Every home entry of every club, as a fixture, club by club. *)
Definition home_entries (h : list Club) : list Fixture :=
  flat_map (fun club => mkFixture club <$> home_opponents (deref h club))
           (seq 0 (length h)).

(** The backtrack counter has not passed [max_backtrack]. *)
Definition within_budget {RNG} (s : Simulator RNG) : Prop :=
  (Z.of_nat (backtrack_count s) <= max_backtrack s)%Z.

(** Distinct clubs of the store differ in name or country. *)
Definition distinct_ids (h : list Club) : Prop := NoDup (key h <$> seq 0 (length h)).

(** What the statements about [draw] ask of a run: a shuffle that
    permutes, quotas between 0 and 4 (as in the three profiles), a country
    limit that is not negative, and fuel above four times the club count. *)
Definition ready {RNG} (shuffle : RNG -> list nat -> list nat * RNG)
    (s : Simulator RNG) (fuel : nat) : Prop :=
  (forall g l, (shuffle g l).1 ≡ₚ l) /\
  (0 <= home_matches (constraints s) <= 4)%Z /\
  (0 <= away_matches (constraints s) <= 4)%Z /\
  (0 <= max_same_country (constraints s))%Z /\
  4 * length (clubs (prepare s)) < fuel.

(** The [DrawResult] of a run, or an empty one when it did not return. *)
Definition result_of {RNG} (x : result (DrawResult * Simulator RNG)) : DrawResult :=
  default (mkDrawResult CHAMPIONS_LEAGUE [] [] false 0) (drawn x).

(** Nine clubs of nine countries, taken from the default list, and the
    same with a tenth club outside the four pots. *)
Definition nine_clubs : list ClubData :=
  [ mkData "Real Madrid" "ESP" 1; mkData "Manchester City" "ENG" 1;
    mkData "Bayern Munich" "GER" 1; mkData "PSG" "FRA" 1;
    mkData "Inter Milan" "ITA" 1; mkData "Benfica" "POR" 2;
    mkData "Club Brugge" "BEL" 2; mkData "Shakhtar" "UKR" 2;
    mkData "Feyenoord" "NED" 3 ].

Definition sim_nine : Simulator PyRandom.state :=
  python_simulator CHAMPIONS_LEAGUE 0 nine_clubs.

Definition sim_guest : Simulator PyRandom.state :=
  python_simulator CHAMPIONS_LEAGUE 0 (nine_clubs ++ [mkData "Guest" "ISL" 5]).

Definition sim_four : Simulator PyRandom.state :=
  python_simulator CHAMPIONS_LEAGUE 0 four_clubs.



(** The clubs of pots 1 to 4 of another country than club [c]: those the
    rules leave for [c] to be paired with. *)
Definition rivals (h : list Club) (c : nat) : list nat :=
  filter (fun o => country (deref h o) <> country (deref h c)) (active h).

(** The countries of a list of clubs, and the number of countries among
    the rivals of [c]. *)
Definition countries_of (h : list Club) (l : list nat) : gset string :=
  list_to_set ((fun o => country (deref h o)) <$> l).

Definition rival_countries (h : list Club) (c : nat) : nat :=
  size (countries_of h (rivals h c)).

(** Malformed input: a club of pots 1 to 4 cannot reach the four home and
    four away opponents [is_complete] asks for, because a quota of the
    profile is below four, or there are fewer than nine entrants, or the
    club has fewer than eight rivals, or its rivals are of too few
    countries for the country limit. *)
Definition malformed {RNG} (s : Simulator RNG) : Prop :=
  let h := clubs (prepare s) in
  let dc := constraints s in
  (active h <> [] /\
   ((home_matches dc < 4)%Z \/ (away_matches dc < 4)%Z \/ length h < 9)) \/
  (exists c, In c (active h) /\
     (length (rivals h c) < 8 \/
      (Z.of_nat (rival_countries h c) * max_same_country dc < 8)%Z)).

(** Input on which the search can make a first assignment: the budget is
    not negative, the quotas and the country limit allow one match, and
    every club of pots 1 to 4 has a rival. *)
Definition startable {RNG} (s : Simulator RNG) : Prop :=
  let h := clubs (prepare s) in
  let dc := constraints s in
  (0 <= max_backtrack s)%Z /\
  (1 <= home_matches dc)%Z /\ (1 <= away_matches dc)%Z /\
  (1 <= max_same_country dc)%Z /\
  forall c, In c (active h) -> rivals h c <> [].

(** Ten clubs of two countries, five of each: every club has five rivals
    only. *)
Definition two_country_clubs : list ClubData :=
  [ mkData "Real Madrid" "ESP" 1; mkData "Manchester City" "ENG" 1;
    mkData "Liverpool" "ENG" 1; mkData "Barcelona" "ESP" 1;
    mkData "Atletico Madrid" "ESP" 2; mkData "Arsenal" "ENG" 2;
    mkData "Aston Villa" "ENG" 3; mkData "Girona" "ESP" 3;
    mkData "Chelsea" "ENG" 4; mkData "Sevilla" "ESP" 4 ].

Definition sim_two_countries : Simulator PyRandom.state :=
  python_simulator CHAMPIONS_LEAGUE 0 two_country_clubs.

(** * Properties *)

(** ** Club identity and the store *)

Lemma same_ids_refl h : same_ids h h.
Proof. reflexivity. Qed.

Lemma same_ids_trans h1 h2 h3 : same_ids h1 h2 -> same_ids h2 h3 -> same_ids h1 h3.
Proof. unfold same_ids. congruence. Qed.

Lemma same_ids_length h h' : same_ids h h' -> length h = length h'.
Proof.
  intros H. apply (f_equal length) in H. by rewrite !length_fmap in H.
Qed.

Lemma deref_ident h h' r : same_ids h h' -> ident (deref h r) = ident (deref h' r).
Proof.
  intros H. unfold deref. rewrite !list_lookup_total_alt.
  assert (E : ident <$> (h !! r) = ident <$> (h' !! r)).
  { rewrite <- !list_lookup_fmap. by rewrite H. }
  destruct (h !! r), (h' !! r); simpl in *; congruence.
Qed.

Lemma same_ids_key h h' r : same_ids h h' -> key h r = key h' r.
Proof.
  intros H. pose proof (deref_ident h h' r H) as E.
  unfold ident in E. unfold key. congruence.
Qed.

Lemma same_ids_keys h h' (l : list nat) : same_ids h h' -> key h <$> l = key h' <$> l.
Proof.
  intros H. apply list_fmap_ext. intros _ x _. by apply same_ids_key.
Qed.

Lemma same_ids_alter f a h :
  (forall c, ident (f c) = ident c) -> same_ids h (alter f a h).
Proof.
  intros Hf. unfold same_ids. apply list_eq. intros i.
  rewrite !list_lookup_fmap, list_lookup_alter.
  case_decide; subst; [|done].
  destruct (h !! i); simpl; [|done]. by rewrite Hf.
Qed.

Lemma club_eq_key h a b : ref_eq h a b = true <-> key h a = key h b.
Proof.
  unfold ref_eq, club_eq, key. rewrite andb_true_iff, !bool_decide_eq_true.
  split; [intros [-> ->]; done | intros [= -> ->]; done].
Qed.

Lemma ref_eq_false_key h a b : ref_eq h a b = false <-> key h a <> key h b.
Proof.
  rewrite <- club_eq_key. destruct (ref_eq h a b); split; congruence.
Qed.

Lemma ref_eq_same_ids h h' a b : same_ids h h' -> ref_eq h a b = ref_eq h' a b.
Proof.
  intros H. apply eq_true_iff_eq. rewrite !club_eq_key.
  by rewrite !(same_ids_key h h' _ H).
Qed.

Lemma contains_key h l x : contains h l x = true <-> key h x ∈ key h <$> l.
Proof.
  unfold contains. rewrite existsb_exists, list_elem_of_fmap.
  split.
  - intros (e & Hin & He). exists e. apply club_eq_key in He.
    split; [done | by apply list_elem_of_In].
  - intros (e & He & Hin). exists e.
    split; [by apply list_elem_of_In | by apply club_eq_key].
Qed.

Lemma contains_false_key h l x : contains h l x = false <-> key h x ∉ key h <$> l.
Proof.
  rewrite <- contains_key. destruct (contains h l x); split; congruence.
Qed.

Lemma list_remove_same_ids h h' x l :
  same_ids h h' -> list_remove h x l = list_remove h' x l.
Proof.
  intros H. induction l as [|e l IH]; simpl; [done|].
  by rewrite (ref_eq_same_ids h h' e x H), IH.
Qed.

(** Removing an element that was appended to a list not holding it gives
    the list back. *)
Lemma list_remove_appended h x l :
  key h x ∉ key h <$> l -> list_remove h x (l ++ [x]) = Some l.
Proof.
  induction l as [|e l IH]; simpl; intros Hn.
  - assert (E : ref_eq h x x = true) by by apply club_eq_key.
    by rewrite E.
  - apply not_elem_of_cons in Hn as [Hne Hn].
    assert (E : ref_eq h e x = false) by (apply ref_eq_false_key; congruence).
    rewrite E, IH; done.
Qed.

Lemma set_home_ident l c : ident (set_home l c) = ident c.
Proof. done. Qed.
Lemma set_away_ident l c : ident (set_away l c) = ident c.
Proof. done. Qed.

Lemma append_home_ids h a b : same_ids h (append_home h a b).
Proof. by apply same_ids_alter. Qed.
Lemma append_away_ids h a b : same_ids h (append_away h a b).
Proof. by apply same_ids_alter. Qed.

Lemma assign_ids h club opponent as_home :
  same_ids h (assign h club opponent as_home).
Proof.
  unfold assign. destruct as_home.
  - eapply same_ids_trans; [apply append_home_ids | apply append_away_ids].
  - eapply same_ids_trans; [apply append_away_ids | apply append_home_ids].
Qed.

Lemma assign_length h club opponent as_home :
  length (assign h club opponent as_home) = length h.
Proof. symmetry. apply same_ids_length, assign_ids. Qed.

(** What an assignment does to each club of the store. *)
Lemma deref_assign h club opponent as_home r :
  club <> opponent -> club < length h -> opponent < length h ->
  deref (assign h club opponent as_home) r =
    if decide (r = club) then
      if as_home then set_home (home_opponents (deref h club) ++ [opponent]) (deref h club)
      else set_away (away_opponents (deref h club) ++ [opponent]) (deref h club)
    else if decide (r = opponent) then
      if as_home then set_away (away_opponents (deref h opponent) ++ [club]) (deref h opponent)
      else set_home (home_opponents (deref h opponent) ++ [club]) (deref h opponent)
    else deref h r.
Proof.
  intros Hne Hc Ho. unfold assign, append_home, append_away, deref.
  destruct as_home; rewrite !list_lookup_total_alter, !length_alter;
    repeat case_decide; subst; try done; try lia; naive_solver.
Qed.

(** ** The constraint engine *)

(** What a successful [can_pair] establishes. *)
Lemma can_pair_true dc h c1 c2 as_home :
  fst (can_pair dc h c1 c2 as_home) = true ->
  key h c1 <> key h c2 /\
  (key h c2 ∉ key h <$> all_opponents (deref h c1)) /\
  (if as_home
   then (len (home_opponents (deref h c1)) < home_matches dc)%Z /\
        (len (away_opponents (deref h c2)) < away_matches dc)%Z
   else (len (away_opponents (deref h c1)) < away_matches dc)%Z /\
        (len (home_opponents (deref h c2)) < home_matches dc)%Z).
Proof.
  unfold can_pair.
  destruct (club_eq (deref h c1) (deref h c2)) eqn:E1; [done|].
  destruct (bool_decide _); [done|].
  destruct (contains h (all_opponents (deref h c1)) c2) eqn:E2; [done|].
  destruct (_ >=? _)%Z; [done|].
  destruct (_ >=? _)%Z; [done|].
  intros H. split; [|split].
  - by apply ref_eq_false_key.
  - by apply contains_false_key.
  - destruct as_home.
    + destruct (Z.geb_spec (len (home_opponents (deref h c1))) (home_matches dc)); [done|].
      destruct (Z.geb_spec (len (away_opponents (deref h c2))) (away_matches dc)); [done|].
      lia.
    + destruct (Z.geb_spec (len (away_opponents (deref h c1))) (away_matches dc)); [done|].
      destruct (Z.geb_spec (len (home_opponents (deref h c2))) (home_matches dc)); [done|].
      lia.
Qed.

Lemma valid_opponent_pairable dc h club all_clubs as_home opponent :
  In opponent (_get_valid_opponents dc h club all_clubs as_home) ->
  In opponent all_clubs /\ pairable dc h club opponent as_home.
Proof.
  unfold _get_valid_opponents, pairable. rewrite filter_In, !andb_true_iff. tauto.
Qed.

Lemma pairable_same_ids_eq dc h h' club opponent as_home :
  h = h' -> pairable dc h club opponent as_home -> pairable dc h' club opponent as_home.
Proof. by intros ->. Qed.

Lemma key_neq_ref h a b : key h a <> key h b -> a <> b.
Proof. congruence. Qed.

(** ** Assign and undo on the store *)

Lemma elem_of_keys_app_l h (x : string * string) l1 l2 :
  x ∉ key h <$> (l1 ++ l2) -> x ∉ key h <$> l1.
Proof. rewrite fmap_app, elem_of_app. tauto. Qed.

Lemma elem_of_keys_app_r h (x : string * string) l1 l2 :
  x ∉ key h <$> (l1 ++ l2) -> x ∉ key h <$> l2.
Proof. rewrite fmap_app, elem_of_app. tauto. Qed.

Lemma unassign_assign h club opponent as_home :
  club <> opponent -> club < length h -> opponent < length h ->
  key h opponent ∉ key h <$> all_opponents (deref h club) ->
  key h club ∉ key h <$> all_opponents (deref h opponent) ->
  unassign (assign h club opponent as_home) club opponent as_home = Some h.
Proof.
  intros Hne Hc Ho Hnc Hno.
  pose proof (assign_ids h club opponent as_home) as Hids.
  pose proof (deref_assign h club opponent as_home club Hne Hc Ho) as Dc.
  pose proof (deref_assign h club opponent as_home opponent Hne Hc Ho) as Do.
  rewrite decide_True in Dc by done.
  rewrite decide_False, decide_True in Do by done.
  assert (Hkh : forall x (l : list nat), key h x ∉ key h <$> l ->
            key (assign h club opponent as_home) x
              ∉ key (assign h club opponent as_home) <$> l).
  { intros x l. by rewrite <- (same_ids_key _ _ x Hids), <- (same_ids_keys _ _ l Hids). }
  unfold all_opponents in Hnc, Hno.
  unfold unassign, remove_home, remove_away. destruct as_home.
  - rewrite Dc. simpl.
    rewrite list_remove_appended by (apply Hkh; by eapply elem_of_keys_app_l).
    set (h1 := alter _ club _).
    assert (Hids1 : same_ids (assign h club opponent true) h1) by by apply same_ids_alter.
    assert (D1 : deref h1 opponent = deref (assign h club opponent true) opponent).
    { unfold h1, deref. by rewrite list_lookup_total_alter_ne. }
    rewrite D1, Do. simpl.
    rewrite <- (list_remove_same_ids _ _ _ _ Hids1).
    rewrite list_remove_appended by (apply Hkh; by eapply elem_of_keys_app_r).
    f_equal. unfold h1, assign, append_home, append_away. apply list_eq. intros i.
    rewrite !list_lookup_alter. unfold deref.
    repeat case_decide; subst; try done.
    + rewrite (list_lookup_total_alt h i).
      destruct (h !! i) as [[]|] eqn:E; [done|]. by apply lookup_ge_None in E; lia.
    + rewrite (list_lookup_total_alt h i).
      destruct (h !! i) as [[]|] eqn:E; [done|]. by apply lookup_ge_None in E; lia.
  - rewrite Dc. simpl.
    rewrite list_remove_appended by (apply Hkh; by eapply elem_of_keys_app_r).
    set (h1 := alter _ club _).
    assert (Hids1 : same_ids (assign h club opponent false) h1) by by apply same_ids_alter.
    assert (D1 : deref h1 opponent = deref (assign h club opponent false) opponent).
    { unfold h1, deref. by rewrite list_lookup_total_alter_ne. }
    rewrite D1, Do. simpl.
    rewrite <- (list_remove_same_ids _ _ _ _ Hids1).
    rewrite list_remove_appended by (apply Hkh; by eapply elem_of_keys_app_l).
    f_equal. unfold h1, assign, append_home, append_away. apply list_eq. intros i.
    rewrite !list_lookup_alter. unfold deref.
    repeat case_decide; subst; try done.
    + rewrite (list_lookup_total_alt h i).
      destruct (h !! i) as [[]|] eqn:E; [done|]. by apply lookup_ge_None in E; lia.
    + rewrite (list_lookup_total_alt h i).
      destruct (h !! i) as [[]|] eqn:E; [done|]. by apply lookup_ge_None in E; lia.
Qed.

(** ** The entrant invariants *)

Lemma all_opponents_add_home c x :
  all_opponents (set_home (home_opponents c ++ [x]) c) ≡ₚ x :: all_opponents c.
Proof.
  unfold all_opponents. simpl. rewrite <- (assoc_L (++)). simpl.
  by rewrite <- Permutation_middle.
Qed.

Lemma all_opponents_add_away c x :
  all_opponents (set_away (away_opponents c ++ [x]) c) ≡ₚ x :: all_opponents c.
Proof.
  unfold all_opponents. simpl. rewrite (assoc_L (++)).
  by rewrite <- Permutation_cons_append.
Qed.

Lemma club_ok_add dc h h' i c c' x :
  same_ids h h' ->
  all_opponents c' ≡ₚ x :: all_opponents c ->
  (len (home_opponents c') <= home_matches dc)%Z ->
  (len (away_opponents c') <= away_matches dc)%Z ->
  x < length h -> key h i <> key h x ->
  (key h x ∉ key h <$> all_opponents c) ->
  club_ok dc h i c -> club_ok dc h' i c'.
Proof.
  intros Hids Hp Hh Ha Hx Hix Hnx (F & S & D & _ & _).
  unfold club_ok.
  rewrite <- (same_ids_length _ _ Hids), <- (same_ids_key _ _ i Hids),
    <- (same_ids_keys _ _ _ Hids), Hp.
  rewrite fmap_cons, Forall_cons, not_elem_of_cons, NoDup_cons. tauto.
Qed.

Lemma club_ok_same dc h h' i c :
  same_ids h h' -> club_ok dc h i c -> club_ok dc h' i c.
Proof.
  intros Hids. unfold club_ok.
  by rewrite <- (same_ids_length _ _ Hids), <- (same_ids_key _ _ i Hids),
    <- (same_ids_keys _ _ _ Hids).
Qed.

Lemma len_app_one (l : list nat) x : len (l ++ [x]) = (len l + 1)%Z.
Proof. unfold len. rewrite length_app. simpl. lia. Qed.

(** An assignment of a pairable pair keeps the invariants of every club. *)
Lemma assign_ok dc h club opponent as_home :
  club < length h -> opponent < length h ->
  pairable dc h club opponent as_home ->
  store_ok dc h -> store_ok dc (assign h club opponent as_home).
Proof.
  intros Hc Ho [P1 P2] Hok i Hi.
  apply can_pair_true in P1 as (K1 & N1 & C1).
  apply can_pair_true in P2 as (K2 & N2 & C2).
  pose proof (key_neq_ref _ _ _ K1) as Hne.
  pose proof (assign_ids h club opponent as_home) as Hids.
  rewrite assign_length in Hi.
  rewrite deref_assign by done.
  destruct (decide (i = club)) as [->|Hic]; [|destruct (decide (i = opponent)) as [->|Hio]].
  - destruct as_home.
    + eapply club_ok_add; eauto using all_opponents_add_home; simpl.
      * rewrite len_app_one. lia.
      * by destruct (Hok club Hc) as (_ & _ & _ & _ & ?).
    + eapply club_ok_add; eauto using all_opponents_add_away; simpl.
      * by destruct (Hok club Hc) as (_ & _ & _ & ? & _).
      * rewrite len_app_one. lia.
  - destruct as_home; simpl in C2.
    + eapply club_ok_add; eauto using all_opponents_add_away; simpl.
      * by destruct (Hok opponent Ho) as (_ & _ & _ & ? & _).
      * rewrite len_app_one. lia.
    + eapply club_ok_add; eauto using all_opponents_add_home; simpl.
      * rewrite len_app_one. lia.
      * by destruct (Hok opponent Ho) as (_ & _ & _ & _ & ?).
  - eapply club_ok_same; eauto.
Qed.

(** The undo of an assignment just made gives the store back. *)
Lemma unassign_assign_pairable dc h club opponent as_home :
  club < length h -> opponent < length h ->
  pairable dc h club opponent as_home ->
  unassign (assign h club opponent as_home) club opponent as_home = Some h.
Proof.
  intros Hc Ho [P1 P2].
  apply can_pair_true in P1 as (K1 & N1 & _).
  apply can_pair_true in P2 as (K2 & N2 & _).
  apply unassign_assign; eauto using key_neq_ref.
Qed.

(** ** The measure of the search *)

Lemma total_alter f a h :
  a < length h ->
  (forall c, length (all_opponents (f c)) = S (length (all_opponents c))) ->
  total (alter f a h) = S (total h).
Proof.
  intros Ha Hf. unfold total. revert a Ha.
  induction h as [|c h IH]; intros [|a] Ha; simpl in *; try lia.
  - rewrite Hf. lia.
  - change (list_alter f a h) with (alter f a h). rewrite IH by lia.
    unfold fmap. lia.
Qed.

Lemma total_assign h club opponent as_home :
  club < length h -> opponent < length h ->
  total (assign h club opponent as_home) = S (S (total h)).
Proof.
  intros Hc Ho. unfold assign, append_home, append_away.
  destruct as_home.
  - rewrite total_alter; [rewrite total_alter; [done|done|] | by rewrite length_alter |].
    + intros c. unfold all_opponents. simpl. rewrite !length_app. simpl. lia.
    + intros c. unfold all_opponents. simpl. rewrite !length_app. simpl. lia.
  - rewrite total_alter; [rewrite total_alter; [done|done|] | by rewrite length_alter |].
    + intros c. unfold all_opponents. simpl. rewrite !length_app. simpl. lia.
    + intros c. unfold all_opponents. simpl. rewrite !length_app. simpl. lia.
Qed.

Lemma total_bound dc h :
  (home_matches dc <= 4)%Z -> (away_matches dc <= 4)%Z ->
  store_ok dc h -> total h <= 8 * length h.
Proof.
  intros Hh Ha Hok.
  assert (B : forall i, i < length h -> length (all_opponents (deref h i)) <= 8).
  { intros i Hi. destruct (Hok i Hi) as (_ & _ & _ & Bh & Ba).
    unfold all_opponents, len in *. rewrite length_app. lia. }
  clear Hok. unfold total.
  induction h as [|c h IH]; simpl; [lia|].
  pose proof (B 0 ltac:(simpl; lia)) as B0. unfold deref in B0. simpl in B0.
  assert (sum_list ((fun c => length (all_opponents c)) <$> h) <= 8 * length h).
  { apply IH. intros i Hi. apply (B (S i)). simpl. lia. }
  unfold fmap in *. lia.
Qed.

(** ** The log of the search, replayed *)

Lemma replay_app h evs1 evs2 h1 :
  replay h evs1 = Some h1 -> replay h (evs1 ++ evs2) = replay h1 evs2.
Proof.
  revert h. induction evs1 as [|e evs1 IH]; simpl; intros h H.
  - by injection H as ->.
  - destruct (apply_event h e); [by apply IH | done].
Qed.

Lemma visits_app P h evs1 evs2 h1 :
  replay h evs1 = Some h1 -> visits P h evs1 -> visits P h1 evs2 ->
  visits P h (evs1 ++ evs2).
Proof.
  revert h. induction evs1 as [|e evs1 IH]; simpl; intros h H V1 V2.
  - by injection H as ->.
  - destruct (apply_event h e); [|done]. destruct V1. split; [done|]. by apply IH.
Qed.

Lemma undo_count_app evs1 evs2 :
  undo_count (evs1 ++ evs2) = undo_count evs1 + undo_count evs2.
Proof. unfold undo_count. by rewrite List.filter_app, length_app. Qed.

(** Every prefix of a visited log leads to a store satisfying [P]. *)
Lemma visits_prefix P h evs1 evs2 :
  P h -> visits P h (evs1 ++ evs2) ->
  exists h1, replay h evs1 = Some h1 /\ P h1.
Proof.
  revert h. induction evs1 as [|e evs1 IH]; simpl; intros h Hh V.
  - eauto.
  - destruct (apply_event h e); [|done]. destruct V. by apply IH.
Qed.

(** ** The search *)

Section SearchProofs.

Context {RNG : Type}.
Variable shuffle : RNG -> list nat -> list nat * RNG.
Hypothesis shuffle_perm : forall g l, (shuffle g l).1 ≡ₚ l.

(** The counter consulted by the search may only touch the cache. *)
Variable counter : Simulator RNG -> nat -> list nat -> nat * Simulator RNG.
Hypothesis counter_frame : forall s c l, exists m, (counter s c l).2 = set_cache m s.

Variable dc : DrawConstraints.
Hypothesis home_le : (home_matches dc <= 4)%Z.
Hypothesis away_le : (away_matches dc <= 4)%Z.

(** The club references the search is called with, all of them clubs of
    the store, which has [n] clubs. *)
Variable n : nat.
Variable all_clubs : list nat.
Hypothesis all_clubs_lt : Forall (fun r => r < n) all_clubs.

#[local] Abbreviation pre := (@search_pre RNG dc n).
#[local] Abbreviation trace := (@search_trace RNG dc).
#[local] Abbreviation post := (@search_post RNG dc all_clubs).

Lemma trace_same s s' :
  history s' = history s -> clubs s' = clubs s ->
  backtrack_count s' = backtrack_count s -> constraints s' = constraints s ->
  max_backtrack s' = max_backtrack s -> competition s' = competition s ->
  trace s s'.
Proof.
  intros Hh Hc Hb Hk Hm Hp. exists []. rewrite app_nil_r. simpl.
  unfold undo_count. simpl. rewrite Hc. split_and!; try done. lia.
Qed.

Lemma trace_trans s s1 s2 : trace s s1 -> trace s1 s2 -> trace s s2.
Proof.
  intros (e1 & H1 & R1 & V1 & B1 & K1 & M1 & P1)
         (e2 & H2 & R2 & V2 & B2 & K2 & M2 & P2).
  exists (e1 ++ e2).
  split_and!; try congruence.
  - rewrite H2, H1. by rewrite (assoc_L (++)).
  - by rewrite (replay_app _ _ _ _ R1).
  - by eapply visits_app.
  - rewrite undo_count_app. lia.
Qed.

Lemma trace_step s s' e :
  history s' = history s ++ [e] ->
  apply_event (clubs s) e = Some (clubs s') ->
  store_ok dc (clubs s') ->
  backtrack_count s' = backtrack_count s + (if is_undo e then 1 else 0) ->
  constraints s' = constraints s ->
  max_backtrack s' = max_backtrack s -> competition s' = competition s ->
  trace s s'.
Proof.
  intros Hh Ha Hok Hb Hk Hm Hp. exists [e]. simpl. rewrite Ha.
  split_and!; try done.
  rewrite Hb. unfold undo_count. simpl. destruct (is_undo e); simpl; lia.
Qed.

Lemma trace_constraints s s' : trace s s' -> constraints s' = constraints s.
Proof. by intros (evs & _ & _ & _ & _ & K & _). Qed.

Lemma post_same s s' :
  history s' = history s -> clubs s' = clubs s ->
  backtrack_count s' = backtrack_count s -> constraints s' = constraints s ->
  max_backtrack s' = max_backtrack s -> competition s' = competition s ->
  post s false s'.
Proof.
  intros Hh Hc Hb Hk Hm Hp. split; [by apply trace_same|]. split; [done|]. discriminate.
Qed.

Lemma post_trans s s1 b s2 :
  post s false s1 -> post s1 b s2 -> post s b s2.
Proof.
  intros (T1 & F1 & _) (T2 & F2 & C2). specialize (F1 eq_refl).
  split; [by eapply trace_trans|]. split; [|done].
  intros Hb. rewrite (F2 Hb). done.
Qed.

Lemma pre_store s : pre s -> store_ok dc (clubs s).
Proof. by intros (? & _). Qed.

Lemma pre_same s s' :
  clubs s' = clubs s -> constraints s' = constraints s -> pre s -> pre s'.
Proof. unfold search_pre. intros -> ->. done. Qed.

(** *** The counters and the candidate list only touch cache and generator *)

Lemma forward_check_frame incomplete s :
  exists m, (forward_check counter all_clubs incomplete s).2 = set_cache m s.
Proof.
  revert s. induction incomplete as [|c l IH]; simpl; intros s.
  - exists (_opponent_count_cache s). by destruct s.
  - destruct (counter_frame s c all_clubs) as [m Hm].
    destruct (counter s c all_clubs) as [k s1]. simpl in Hm. subst s1.
    destruct (k =? 0); simpl; [by exists m|].
    destruct (IH (set_cache m s)) as [m' Hm']. exists m'. by rewrite Hm'.
Qed.

Lemma min_scan_frame l best best_key s :
  exists m, (min_scan counter all_clubs l best best_key s).2 = set_cache m s.
Proof.
  revert best best_key s. induction l as [|c l IH]; simpl; intros best best_key s.
  - exists (_opponent_count_cache s). by destruct s.
  - destruct (counter_frame s c all_clubs) as [m Hm].
    destruct (counter s c all_clubs) as [k s1]. simpl in Hm. subst s1.
    destruct (k <? best_key).
    + destruct (IH c k (set_cache m s)) as [m' Hm']. exists m'. by rewrite Hm'.
    + destruct (IH best best_key (set_cache m s)) as [m' Hm']. exists m'. by rewrite Hm'.
Qed.

Lemma min_scan_in l best best_key s :
  (min_scan counter all_clubs l best best_key s).1 = best \/
  In (min_scan counter all_clubs l best best_key s).1 l.
Proof.
  revert best best_key s. induction l as [|c l IH]; simpl; intros best best_key s.
  - by left.
  - destruct (counter s c all_clubs) as [k s1].
    destruct (k <? best_key).
    + destruct (IH c k s1) as [->|?]; auto.
    + destruct (IH best best_key s1) as [->|?]; auto.
Qed.

Lemma min_by_count_spec incomplete s :
  incomplete <> [] ->
  exists club m, min_by_count counter all_clubs incomplete s = Ret (club, set_cache m s)
                 /\ In club incomplete.
Proof.
  destruct incomplete as [|c l]; [done|]. intros _. simpl.
  destruct (counter_frame s c all_clubs) as [m Hm].
  destruct (counter s c all_clubs) as [k s1]. simpl in Hm. subst s1.
  destruct (min_scan_frame l c k (set_cache m s)) as [m' Hm'].
  pose proof (min_scan_in l c k (set_cache m s)) as Hin.
  destruct (min_scan counter all_clubs l c k (set_cache m s)) as [club s2].
  simpl in *. subst s2. exists club, m'. split; [done|].
  destruct Hin as [->|?]; auto.
Qed.

Lemma insert_by_in {A} (k : A -> nat) x y l : In y (insert_by k x l) <-> y = x \/ In y l.
Proof.
  induction l as [|z l IH]; simpl; [intuition|].
  destruct (k x <=? k z); simpl; [intuition|]. rewrite IH. intuition.
Qed.

Lemma sort_by_in {A} (k : A -> nat) y l : In y (sort_by k l) <-> In y l.
Proof.
  induction l as [|x l IH]; simpl; [done|].
  rewrite insert_by_in. unfold sort_by in IH. rewrite IH. intuition.
Qed.

Lemma sorted_candidates s club as_home :
  exists g, (_get_valid_opponents_sorted shuffle s club all_clubs as_home).2 = set_rng g s
  /\ forall o, In o (_get_valid_opponents_sorted shuffle s club all_clubs as_home).1 ->
       In o (_get_valid_opponents (constraints s) (clubs s) club all_clubs as_home).
Proof.
  unfold _get_valid_opponents_sorted.
  pose proof (shuffle_perm (rng s)
    (_get_valid_opponents (constraints s) (clubs s) club all_clubs as_home)) as Hp.
  destruct (shuffle _ _) as [valid g]. simpl in *.
  exists g. split; [done|]. intros o Ho. apply sort_by_in in Ho.
  apply list_elem_of_In. rewrite <- Hp. by apply list_elem_of_In.
Qed.

(** *** The loops *)

Lemma try_candidates_post rec club as_home T :
  (forall s1, pre s1 -> total (clubs s1) = S (S T) ->
     exists b s2, rec s1 = Ret (b, s2) /\ post s1 b s2) ->
  forall candidates s,
    pre s -> total (clubs s) = T -> club < length (clubs s) ->
    Forall (fun o => o < length (clubs s) /\ pairable dc (clubs s) club o as_home)
           candidates ->
    exists b s', try_candidates rec club as_home candidates s = Ret (b, s') /\ post s b s'.
Proof.
  intros Hrec. induction candidates as [|o rest IH]; intros s Hpre HT Hc Hall.
  - exists false, s. split; [done|]. by apply post_same.
  - apply Forall_cons in Hall as [[Ho Hp] Hall].
    destruct Hpre as (Hok & Hk & HL).
    set (s1 := do_assign club o as_home s).
    assert (Hok1 : store_ok dc (clubs s1)) by (by apply assign_ok).
    assert (Hpre1 : pre s1).
    { split; [done|]. split; [done|]. simpl. by rewrite assign_length. }
    assert (HT1 : total (clubs s1) = S (S T)).
    { simpl. rewrite total_assign by done. by rewrite HT. }
    assert (T01 : trace s s1) by (by apply (trace_step s s1 (Assigned club o as_home))).
    destruct (Hrec s1 Hpre1 HT1) as (b & s2 & Hr & T12 & F2 & C2).
    simpl. fold s1. rewrite Hr.
    destruct b.
    + exists true, s2. split; [done|].
      split; [by eapply trace_trans|]. split; [discriminate|done].
    + specialize (F2 eq_refl).
      assert (Hun : unassign (clubs s2) club o as_home = Some (clubs s)).
      { rewrite F2. simpl. by eapply unassign_assign_pairable. }
      unfold do_backtrack. simpl. rewrite Hun.
      match goal with |- context [try_candidates _ _ _ _ ?x] => set (s3 := x) end.
      assert (T23 : trace s2 s3).
      { apply (trace_step s2 s3 (Undone club o as_home)); simpl; try done. lia. }
      assert (E3 : clubs s3 = clubs s) by done.
      destruct (IH s3) as (b' & s' & Ht & Hpost').
      { split; [by rewrite E3|]. split; [|by rewrite E3].
        change (constraints s3) with (constraints s2).
        by rewrite (trace_constraints _ _ T12). }
      { by rewrite E3. }
      { by rewrite E3. }
      { by rewrite E3. }
      exists b', s'. split; [done|].
      eapply post_trans; [|exact Hpost'].
      split; [eauto using trace_trans|]. split; [done|discriminate].
Qed.

Lemma try_directions_post rec club directions T :
  (forall s1, pre s1 -> total (clubs s1) = S (S T) ->
     exists b s2, rec s1 = Ret (b, s2) /\ post s1 b s2) ->
  forall s,
    pre s -> total (clubs s) = T -> club < length (clubs s) ->
    exists b s', try_directions shuffle rec all_clubs club directions s = Ret (b, s')
                 /\ post s b s'.
Proof.
  intros Hrec. induction directions as [|as_home rest IH]; intros s Hpre HT Hc.
  - exists false, s. split; [done|]. by apply post_same.
  - simpl.
    destruct (sorted_candidates s club as_home) as (g & Hg & Hin).
    destruct (_get_valid_opponents_sorted shuffle s club all_clubs as_home)
      as [candidates s1]. simpl in Hg, Hin. subst s1.
    destruct Hpre as (Hok & Hk & HL).
    destruct (try_candidates_post rec club as_home T Hrec candidates (set_rng g s))
      as (b & s2 & Ht & Hpost); try done.
    { apply Forall_forall. intros o Ho. apply list_elem_of_In, Hin in Ho. simpl.
      apply valid_opponent_pairable in Ho as [HoL Hp]. rewrite Hk in Hp.
      split; [|done]. rewrite HL.
      pose proof all_clubs_lt as HA. rewrite Forall_forall in HA.
      by apply HA, list_elem_of_In. }
    rewrite Ht. destruct b.
    + exists true, s2. split; [done|].
      eapply post_trans; [|exact Hpost]. by apply post_same.
    + destruct Hpost as (T2 & F2 & C2). specialize (F2 eq_refl). simpl in F2.
      destruct T2 as (evs & H2 & R2 & V2 & B2 & K2 & M2 & P2). simpl in *.
      destruct (IH s2) as (b' & s' & Ht' & Hpost').
      { split; [by rewrite F2|]. split; [congruence|]. by rewrite F2. }
      { by rewrite F2. }
      { by rewrite F2. }
      exists b', s'. split; [done|].
      eapply post_trans; [|exact Hpost'].
      split; [by exists evs|]. split; [done|discriminate].
Qed.

Lemma incomplete_needs c :
  is_complete c = false ->
  (len (home_opponents c) <= 4)%Z -> (len (away_opponents c) <= 4)%Z ->
  (needs_home c >? 0)%Z = true \/ (needs_away c >? 0)%Z = true.
Proof.
  unfold is_complete, needs_home, needs_away, len. intros H Hh Ha.
  apply andb_false_iff in H as [H|H]; apply Nat.eqb_neq in H.
  - left. apply Z.gtb_lt. lia.
  - right. apply Z.gtb_lt. lia.
Qed.

(** The search returns when its fuel covers the assignments still possible,
    and what it returns satisfies [post]. *)
Lemma assign_opponents_post fuel :
  forall s, pre s -> 8 * n < 2 * fuel + total (clubs s) ->
    exists b s', assign_opponents shuffle counter fuel all_clubs s = Ret (b, s')
                 /\ post s b s'.
Proof.
  induction fuel as [|fuel IH]; intros s Hpre Hf.
  - destruct Hpre as (Hok & _ & Hn).
    pose proof (total_bound dc (clubs s) home_le away_le Hok). lia.
  - simpl. destruct (_ >? _)%Z.
    { exists false, s. split; [done|]. by apply post_same. }
    destruct (List.filter _ all_clubs) as [|c0 l0] eqn:E.
    { exists true, s. split; [done|].
      split; [by apply trace_same|]. split; [discriminate|]. intros _.
      apply Forall_forall. intros c Hc. apply list_elem_of_In in Hc.
      destruct (is_complete (deref (clubs s) c)) eqn:Ec; [done|].
      assert (Hin : In c (List.filter
                (fun c => negb (is_complete (deref (clubs s) c))) all_clubs)).
      { apply filter_In. by rewrite Ec. }
      rewrite E in Hin. destruct Hin. }
    destruct (forward_check_frame (c0 :: l0) s) as [m Hm].
    destruct (forward_check counter all_clubs (c0 :: l0) s) as [ok s1].
    simpl in Hm. subst s1.
    destruct ok; cbn [negb].
    2:{ exists false, (set_cache m s). split; [done|]. by apply post_same. }
    destruct (min_by_count_spec (c0 :: l0) (set_cache m s)) as (club & m' & Hmin & Hin);
      [done|].
    rewrite Hmin. rewrite <- E in Hin. apply filter_In in Hin as [HinL Hinc].
    apply negb_true_iff in Hinc.
    destruct Hpre as (Hok & Hk & Hn).
    assert (Hclub : club < length (clubs s)).
    { rewrite Hn. pose proof all_clubs_lt as HA. rewrite Forall_forall in HA.
      by apply HA, list_elem_of_In. }
    destruct (Hok club Hclub) as (_ & _ & _ & Bh & Ba).
    destruct (incomplete_needs _ Hinc) as [Hnh|Hna]; [lia|lia| |].
    + simpl. rewrite Hnh. simpl.
      destruct (try_directions_post (assign_opponents shuffle counter fuel all_clubs)
                  club
                  ([true] ++ (if (needs_away (deref (clubs s) club) >? 0)%Z
                              then [false] else []))
                  (total (clubs s))) with (s := set_cache m' (set_cache m s))
        as (b & s' & Ht & Hpost); try done.
      { intros s1 Hpre1 HT1. apply IH; [done|]. rewrite HT1. lia. }
      exists b, s'. split; [done|].
      eapply post_trans; [|exact Hpost]. by apply post_same.
    + simpl. rewrite Hna. rewrite andb_false_r.
      destruct (try_directions_post (assign_opponents shuffle counter fuel all_clubs)
                  club
                  ((if (needs_home (deref (clubs s) club) >? 0)%Z
                    then [true] else []) ++ [false])
                  (total (clubs s))) with (s := set_cache m' (set_cache m s))
        as (b & s' & Ht & Hpost); try done.
      { intros s1 Hpre1 HT1. apply IH; [done|]. rewrite HT1. lia. }
      exists b, s'. split; [done|].
      eapply post_trans; [|exact Hpost]. by apply post_same.
Qed.

End SearchProofs.

(** ** Complete clubs *)

(** A complete club has eight opponents with pairwise distinct identities,
    none its own: the store holds at least nine clubs. *)
Lemma complete_needs_nine dc h i :
  store_ok dc h -> i < length h -> is_complete (deref h i) = true -> 9 <= length h.
Proof.
  intros Hok Hi Hc. destruct (Hok i Hi) as (F & S & D & _ & _).
  unfold is_complete in Hc. apply andb_true_iff in Hc as [H1 H2].
  apply Nat.eqb_eq in H1, H2.
  assert (L : length (key h <$> (i :: all_opponents (deref h i))) = 9).
  { rewrite length_fmap. simpl. unfold all_opponents. rewrite length_app. lia. }
  assert (Sub : (key h <$> (i :: all_opponents (deref h i))) ⊆+ (key h <$> seq 0 (length h))).
  { apply NoDup_submseteq.
    - rewrite fmap_cons. by apply NoDup_cons.
    - intros x Hx. apply list_elem_of_fmap in Hx as (r & -> & Hr).
      apply list_elem_of_fmap. exists r. split; [done|].
      apply elem_of_seq. apply elem_of_cons in Hr as [->|Hr]; [lia|].
      rewrite Forall_forall in F. specialize (F r Hr). lia. }
  apply submseteq_length in Sub. rewrite L, length_fmap, length_seq in Sub. done.
Qed.

(** A complete club has four home and four away opponents, which the
    invariants allow only when both quotas are at least four. *)
Lemma complete_needs_quota dc h i :
  store_ok dc h -> i < length h -> is_complete (deref h i) = true ->
  (4 <= home_matches dc)%Z /\ (4 <= away_matches dc)%Z.
Proof.
  intros Hok Hi Hc. destruct (Hok i Hi) as (_ & _ & _ & Bh & Ba).
  unfold is_complete in Hc. apply andb_true_iff in Hc as [H1 H2].
  apply Nat.eqb_eq in H1, H2. unfold len in *. lia.
Qed.

(** ** [draw] *)

Lemma draw_with_unfold {RNG} shuffle counter fuel (s : Simulator RNG) :
  draw_with shuffle counter fuel s =
    match draw_with_backtracking shuffle counter fuel (prepare s) with
    | Ret (success, s) =>
        Ret (mkDrawResult (competition s) (clubs s)
               (if success then _generate_fixtures (clubs s) else [])
               success (backtrack_count s), s)
    | Raise e => Raise e
    | OutOfFuel => OutOfFuel
    end.
Proof. unfold draw_with, prepare. by destruct (clubs s). Qed.

Lemma prepare_constraints {RNG} (s : Simulator RNG) : constraints (prepare s) = constraints s.
Proof. unfold prepare. by destruct (clubs s). Qed.

Lemma prepare_competition {RNG} (s : Simulator RNG) : competition (prepare s) = competition s.
Proof. unfold prepare. by destruct (clubs s). Qed.

Lemma prepare_max_backtrack {RNG} (s : Simulator RNG) :
  max_backtrack (prepare s) = max_backtrack s.
Proof. unfold prepare. by destruct (clubs s). Qed.

Lemma prepare_clubs {RNG} (s : Simulator RNG) : exists h, clubs (prepare s) = map reset h.
Proof. unfold prepare. destruct (clubs s); by eexists. Qed.

Lemma prepare_history {RNG} (s : Simulator RNG) : history (prepare s) = [].
Proof. unfold prepare. by destruct (clubs s). Qed.

Lemma prepare_backtrack_count {RNG} (s : Simulator RNG) : backtrack_count (prepare s) = 0.
Proof. unfold prepare. by destruct (clubs s). Qed.

Lemma reset_store_ok dc h :
  (0 <= home_matches dc)%Z -> (0 <= away_matches dc)%Z -> store_ok dc (map reset h).
Proof.
  intros Hh Ha i Hi. unfold deref. rewrite list_lookup_total_alt.
  rewrite length_map in Hi.
  destruct (lookup_lt_is_Some_2 h i Hi) as [c Hc].
  change (map reset h) with (reset <$> h). rewrite list_lookup_fmap, Hc. simpl.
  unfold club_ok, all_opponents, len. simpl.
  split_and!; try done; try lia. - apply not_elem_of_nil. - apply NoDup_nil_2.
Qed.

Lemma total_reset h : total (map reset h) = 0.
Proof. unfold total. induction h as [|c h IH]; simpl; [done|]. exact IH. Qed.

Lemma pot_clubs_lt h p : Forall (fun r => r < length h) (pot_clubs h p).
Proof.
  apply Forall_forall. intros r Hr. apply list_elem_of_In in Hr.
  unfold pot_clubs in Hr. apply filter_In in Hr as [Hr _].
  apply in_seq in Hr. lia.
Qed.

Lemma active_lt h : Forall (fun r => r < length h) (active h).
Proof.
  unfold active. simpl. rewrite app_nil_r.
  rewrite !Forall_app. split_and!; apply pot_clubs_lt.
Qed.

Section DrawProofs.

Context {RNG : Type}.
Variable shuffle : RNG -> list nat -> list nat * RNG.
Hypothesis shuffle_perm : forall g l, (shuffle g l).1 ≡ₚ l.

Lemma shuffle_pots_perm h pots g :
  (shuffle_pots shuffle h pots g).1 ≡ₚ concat (map (pot_clubs h) pots).
Proof.
  revert g. induction pots as [|p pots IH]; simpl; intros g; [done|].
  pose proof (shuffle_perm g (pot_clubs h p)) as Hp.
  destruct (shuffle g (pot_clubs h p)) as [l g1]. simpl in Hp.
  specialize (IH g1). destruct (shuffle_pots shuffle h pots g1) as [ls g2].
  simpl in *. by rewrite Hp, IH.
Qed.

Variable counter : Simulator RNG -> nat -> list nat -> nat * Simulator RNG.
Hypothesis counter_frame : forall s c l, exists m, (counter s c l).2 = set_cache m s.

(** [draw] returns once the fuel exceeds four times the number of clubs;
    its log leads from the reset store to the final one through stores
    that satisfy the invariants, and the counter is the number of undos. *)
Lemma draw_with_post s fuel :
  (0 <= home_matches (constraints s) <= 4)%Z ->
  (0 <= away_matches (constraints s) <= 4)%Z ->
  4 * length (clubs (prepare s)) < fuel ->
  exists r s',
    draw_with shuffle counter fuel s = Ret (r, s') /\
    r_clubs r = clubs s' /\
    r_backtrack_count r = backtrack_count s' /\
    r_competition r = competition s /\
    fixtures r = (if is_valid r then _generate_fixtures (clubs s') else []) /\
    store_ok (constraints s) (clubs (prepare s)) /\
    replay (clubs (prepare s)) (history s') = Some (clubs s') /\
    visits (store_ok (constraints s)) (clubs (prepare s)) (history s') /\
    backtrack_count s' = undo_count (history s') /\
    (is_valid r = false -> clubs s' = clubs (prepare s)) /\
    (is_valid r = true ->
       Forall (fun c => is_complete (deref (clubs s') c) = true)
              (active (clubs (prepare s)))).
Proof.
  intros [Hh0 Hh] [Ha0 Ha] Hf. rewrite draw_with_unfold.
  unfold draw_with_backtracking.
  pose proof (shuffle_pots_perm (clubs (prepare s)) [1; 2; 3; 4]%Z (rng (prepare s))) as Hp.
  destruct (shuffle_pots shuffle _ _ _) as [shuffled g]. cbn [fst] in Hp.
  fold (active (clubs (prepare s))) in Hp.
  destruct (prepare_clubs s) as [h0 Eh0].
  assert (Hok : store_ok (constraints s) (clubs (prepare s))).
  { rewrite Eh0. by apply reset_store_ok. }
  assert (Htot : total (clubs (prepare s)) = 0).
  { rewrite Eh0. apply total_reset. }
  destruct (assign_opponents_post shuffle shuffle_perm counter counter_frame
              (constraints s) Hh Ha (length (clubs (prepare s))) shuffled)
    with (fuel := fuel) (s := set_rng g (prepare s))
    as (b & s' & Hr & (evs & H1 & R1 & V1 & B1 & K1 & M1 & P1) & F1 & C1).
  { rewrite Hp. apply active_lt. }
  { split; [done|]. split; [|done]. apply prepare_constraints. }
  { change (clubs (set_rng g (prepare s))) with (clubs (prepare s)).
    rewrite Htot. lia. }
  rewrite Hr. eexists _, s'. split; [reflexivity|]. cbn [r_clubs r_backtrack_count
    r_competition fixtures is_valid].
  change (clubs (set_rng g (prepare s))) with (clubs (prepare s)) in *.
  change (history (set_rng g (prepare s))) with (history (prepare s)) in *.
  change (backtrack_count (set_rng g (prepare s))) with (backtrack_count (prepare s)) in *.
  change (competition (set_rng g (prepare s))) with (competition (prepare s)) in *.
  rewrite prepare_history in H1. rewrite prepare_backtrack_count in B1.
  simpl in H1, B1. subst evs.
  split_and!; try done.
  - rewrite P1. apply prepare_competition.
  - intros Hb. specialize (C1 Hb). by rewrite <- Hp.
Qed.

End DrawProofs.

Lemma cached_frame {RNG} (s : Simulator RNG) c l :
  exists m, (_count_valid_opponents_cached s c l).2 = set_cache m s.
Proof.
  unfold _count_valid_opponents_cached.
  destruct (_ !! _); simpl; [|by eexists].
  exists (_opponent_count_cache s). by destruct s.
Qed.

Lemma uncached_frame {RNG} (s : Simulator RNG) c l :
  exists m, (count_valid_opponents_uncached s c l).2 = set_cache m s.
Proof. exists (_opponent_count_cache s). by destruct s. Qed.

Lemma unassign_length h club opponent as_home h' :
  unassign h club opponent as_home = Some h' -> length h' = length h.
Proof.
  unfold unassign, remove_home, remove_away.
  destruct as_home; repeat case_match; try done; intros [= <-]; simplify_eq;
    by rewrite !length_alter.
Qed.

Lemma replay_length h evs h' : replay h evs = Some h' -> length h' = length h.
Proof.
  revert h. induction evs as [|e evs IH]; simpl; intros h H.
  - by injection H as ->.
  - destruct (apply_event h e) as [h1|] eqn:E; [|done].
    rewrite (IH _ H). destruct e; simpl in E.
    + injection E as <-. apply assign_length.
    + by eapply unassign_length.
Qed.

Lemma visits_final P h evs h' :
  P h -> visits P h evs -> replay h evs = Some h' -> P h'.
Proof.
  revert h. induction evs as [|e evs IH]; simpl; intros h Hh V R.
  - by injection R as <-.
  - destruct (apply_event h e); [|done]. destruct V. eauto.
Qed.

(** ** The generator of CPython *)

Module PyRandomFacts.
Import PyRandom.

Lemma swap_perm (l : list nat) i j : i < length l -> j < length l -> swap l i j ≡ₚ l.
Proof.
  intros Hi Hj. apply Permutation_inj. unfold swap. split.
  - by rewrite !length_insert.
  - exists (fun x => if decide (x = i) then j else if decide (x = j) then i else x).
    split.
    + intros x y. repeat case_decide; intros; subst; congruence.
    + intros x.
      destruct (lookup_lt_is_Some_2 l i Hi) as [a Ha].
      destruct (lookup_lt_is_Some_2 l j Hj) as [b Hb].
      rewrite (list_lookup_total_correct _ _ _ Ha), (list_lookup_total_correct _ _ _ Hb).
      repeat case_decide; subst.
      * destruct (decide (i = j)) as [->|Hne].
        -- rewrite list_lookup_insert_eq by (by rewrite length_insert). congruence.
        -- rewrite list_lookup_insert_ne by done.
           rewrite list_lookup_insert_eq by done. congruence.
      * rewrite list_lookup_insert_eq by (by rewrite length_insert). congruence.
      * rewrite !list_lookup_insert_ne by done. done.
Qed.

#[local] Opaque getrandbits.

Lemma randbelow_loop_lt tries n k s :
  (0 < n)%Z -> Z.to_nat (randbelow_loop tries n k s).1 < Z.to_nat n.
Proof.
  intros Hn. revert s. induction tries as [|t IH]; intros s; simpl.
  - destruct (getrandbits k s). simpl. lia.
  - destruct (getrandbits k s) as [r s1].
    destruct (Z.geb_spec r n); [apply IH|]. simpl. lia.
Qed.

Lemma shuffle_from_perm i s (l : list nat) :
  i < length l -> (shuffle_from i s l).1 ≡ₚ l.
Proof.
  revert s l. induction i as [|i IH]; intros s l Hi; [done|].
  cbn [shuffle_from].
  pose proof (randbelow_loop_lt 1000 (Z.of_nat (S i + 1)) (bit_length (Z.of_nat (S i + 1)))
                s ltac:(lia)) as Hj.
  unfold randbelow. destruct (randbelow_loop _ _ _ _) as [j s1]. cbn [fst] in Hj.
  assert (Hs : swap l (S i) (Z.to_nat j) ≡ₚ l) by (apply swap_perm; lia).
  rewrite IH; [done|]. unfold swap. rewrite !length_insert. lia.
Qed.

(** [random.shuffle] permutes its list. *)
Lemma shuffle_perm s (l : list nat) : (shuffle s l).1 ≡ₚ l.
Proof.
  unfold shuffle. destruct l as [|x l]; [done|].
  apply shuffle_from_perm. simpl. lia.
Qed.

End PyRandomFacts.

(** ** Results of [draw] *)

Section DrawFails.

Context {RNG : Type}.
Variable shuffle : RNG -> list nat -> list nat * RNG.
Hypothesis shuffle_perm : forall g l, (shuffle g l).1 ≡ₚ l.

(** No club can be complete: [draw] reports failure. *)
Lemma draw_invalid (s : Simulator RNG) fuel :
  (0 <= home_matches (constraints s) <= 4)%Z ->
  (0 <= away_matches (constraints s) <= 4)%Z ->
  4 * length (clubs (prepare s)) < fuel ->
  active (clubs (prepare s)) <> [] ->
  ((home_matches (constraints s) < 4)%Z \/ (away_matches (constraints s) < 4)%Z \/
   length (clubs (prepare s)) < 9) ->
  exists r s', draw shuffle fuel s = Ret (r, s') /\ is_valid r = false.
Proof.
  intros Hh Ha Hf Hact Hno.
  destruct (draw_with_post shuffle shuffle_perm _ cached_frame s fuel Hh Ha Hf)
    as (r & s' & Hd & Hc & _ & _ & _ & Hok & Hrep & Hvis & _ & _ & Hcomp).
  exists r, s'. split; [done|].
  destruct (is_valid r) eqn:E; [|done]. exfalso.
  specialize (Hcomp eq_refl).
  destruct (active (clubs (prepare s))) as [|c l] eqn:Ea; [done|].
  apply Forall_cons in Hcomp as [Hc1 _].
  assert (Hlt : c < length (clubs (prepare s))).
  { pose proof (active_lt (clubs (prepare s))) as HA. rewrite Ea in HA.
    by apply Forall_cons in HA as [? _]. }
  pose proof (visits_final _ _ _ _ Hok Hvis Hrep) as Hok'.
  pose proof (replay_length _ _ _ Hrep) as Hlen.
  rewrite <- Hlen in Hlt.
  pose proof (complete_needs_nine _ _ _ Hok' Hlt Hc1).
  pose proof (complete_needs_quota _ _ _ Hok' Hlt Hc1).
  lia.
Qed.

End DrawFails.

(** *** C1: the cache against fresh counting *)

(** C1, at a failing input.  With seed 0, the eleven clubs above and
    [max_backtrack = 100], the source's search, which reads the memoized
    counts, gives up after 427 undos, while the same search counting afresh
    succeeds after 13: the cache changes the success flag and the backtrack
    count, so the claim that it never changes observable results fails on
    the code. *)
Theorem C1_cache_changes_draw :
  (fun r => (is_valid r, r_backtrack_count r))
    <$> drawn (draw PyRandom.shuffle 60 sim_eleven) = Some (false, 427) /\
  (fun r => (is_valid r, r_backtrack_count r))
    <$> drawn (draw_uncached PyRandom.shuffle 60 sim_eleven) = Some (true, 13).
Proof. split; vm_compute; reflexivity. Qed.

(** *** C8: what an invalidation removes *)

(** [_invalidate_cache] drops exactly the keys that contain the name. *)
Lemma invalidate_lookup club_name (cache : gmap string nat) k :
  invalidate club_name cache !! k =
    if substring_of club_name k then None else cache !! k.
Proof.
  unfold invalidate. rewrite map_lookup_filter.
  destruct (cache !! k) as [v|]; simpl.
  - destruct (substring_of club_name k) eqn:E.
    + rewrite option_guard_False; [done | simpl; congruence].
    + rewrite option_guard_True; done.
  - by destruct (substring_of club_name k).
Qed.

Lemma prefix_app_self (p s : string) : String.prefix p (p +:+ s) = true.
Proof.
  induction p as [|a p IH]; simpl; [by destruct s|].
  destruct (Ascii.ascii_dec a a); [done|congruence].
Qed.

Lemma substring_of_prefix (p s : string) : String.prefix p s = true -> substring_of p s = true.
Proof. intros H. destruct s; cbn [substring_of]; rewrite H; done. Qed.

(** The entries of the club itself are always removed. *)
Lemma invalidate_own (c : Club) (cache : gmap string nat) :
  invalidate (name c) cache !! cache_key c = None.
Proof.
  rewrite invalidate_lookup. unfold cache_key.
  by rewrite substring_of_prefix by apply prefix_app_self.
Qed.

(** C8, at a failing input.  Assigning Inter (club 1) against Benfica
    (club 2) invalidates the cache for the names "Inter" and "Benfica"; the
    entry of Inter Milan, a third club, is removed too, because its key
    contains "Inter". *)
Theorem C8_invalidation_hits_third_club :
  _opponent_count_cache sim_inter !! "Inter Milan_0_0" = Some 4 /\
  cache_key (deref (clubs sim_inter) 0) = "Inter Milan_0_0" /\
  _opponent_count_cache (do_assign 1 2 true sim_inter) !! "Inter Milan_0_0" = None.
Proof. split_and!; vm_compute; reflexivity. Qed.

(** *** C2: profiles with a quota below four *)

(** C2, as stated, fails on a list with no club in pots 1 to 4: the search
    is called with no club at all and reports success.  Here: Conference
    League, one club of pot 5. *)
Lemma C2_counterexample :
  is_valid <$> drawn (draw PyRandom.shuffle 10
                        (python_simulator CONFERENCE_LEAGUE 0 [mkData "Solo" "AAA" 5]))
  = Some true.
Proof. vm_compute. reflexivity. Qed.

(** C2, amended.  When the profile gives a home or an away quota below four
    (the Conference League profile gives three and three) and the club list
    has a club in pots 1 to 4, [draw] returns a result with
    [is_valid = False]: no club can reach the four and four that
    [is_complete] asks for. *)
Theorem C2_quota_below_four_never_valid {RNG}
    (shuffle : RNG -> list nat -> list nat * RNG) (s : Simulator RNG) (fuel : nat) :
  (forall g l, (shuffle g l).1 ≡ₚ l) ->
  (0 <= home_matches (constraints s) <= 4)%Z ->
  (0 <= away_matches (constraints s) <= 4)%Z ->
  (home_matches (constraints s) < 4)%Z \/ (away_matches (constraints s) < 4)%Z ->
  active (clubs (prepare s)) <> [] ->
  4 * length (clubs (prepare s)) < fuel ->
  exists r s', draw shuffle fuel s = Ret (r, s') /\ is_valid r = false.
Proof.
  intros Hp Hh Ha Hq Hact Hf. apply draw_invalid; try done. tauto.
Qed.

Lemma C2_witness :
  exists r s',
    draw PyRandom.shuffle 20 (python_simulator CONFERENCE_LEAGUE 0 four_clubs) = Ret (r, s')
    /\ is_valid r = false.
Proof.
  apply (C2_quota_below_four_never_valid PyRandom.shuffle
           (python_simulator CONFERENCE_LEAGUE 0 four_clubs) 20).
  - apply PyRandomFacts.shuffle_perm.
  - simpl. lia.
  - simpl. lia.
  - left. simpl. lia.
  - vm_compute. discriminate.
  - vm_compute. lia.
Defined.

(** *** C5: the invariants throughout the search *)

(** C5.  [draw] returns, and every store the search went through (the
    store after each prefix of its log of assignments and undos, from the
    reset store) satisfies the invariants of every club: not its own
    opponent, no opponent twice across its two lists, each list within the
    profile's quota. *)
Theorem C5_invariants_throughout {RNG}
    (shuffle : RNG -> list nat -> list nat * RNG) (s : Simulator RNG) (fuel : nat) :
  (forall g l, (shuffle g l).1 ≡ₚ l) ->
  (0 <= home_matches (constraints s) <= 4)%Z ->
  (0 <= away_matches (constraints s) <= 4)%Z ->
  4 * length (clubs (prepare s)) < fuel ->
  exists r s',
    draw shuffle fuel s = Ret (r, s') /\
    replay (clubs (prepare s)) (history s') = Some (r_clubs r) /\
    forall evs rest, history s' = evs ++ rest ->
      exists h, replay (clubs (prepare s)) evs = Some h /\ store_ok (constraints s) h.
Proof.
  intros Hp Hh Ha Hf.
  destruct (draw_with_post shuffle Hp _ cached_frame s fuel Hh Ha Hf)
    as (r & s' & Hd & Hc & _ & _ & _ & Hok & Hrep & Hvis & _).
  exists r, s'. split; [done|]. split; [by rewrite Hc|].
  intros evs rest E. rewrite E in Hvis. by eapply visits_prefix.
Qed.

Lemma C5_witness :
  exists r s',
    draw PyRandom.shuffle 20 (python_simulator CHAMPIONS_LEAGUE 0 four_clubs) = Ret (r, s') /\
    replay (clubs (prepare (python_simulator CHAMPIONS_LEAGUE 0 four_clubs))) (history s')
      = Some (r_clubs r) /\
    forall evs rest, history s' = evs ++ rest ->
      exists h, replay (clubs (prepare (python_simulator CHAMPIONS_LEAGUE 0 four_clubs))) evs
                = Some h
                /\ store_ok (constraints (python_simulator CHAMPIONS_LEAGUE 0 four_clubs)) h.
Proof.
  apply (C5_invariants_throughout PyRandom.shuffle
           (python_simulator CHAMPIONS_LEAGUE 0 four_clubs) 20).
  - apply PyRandomFacts.shuffle_perm.
  - simpl. lia.
  - simpl. lia.
  - vm_compute. lia.
Defined.

(** *** C6: assign, then undo *)

(** C6.  For a club and an opponent taken from its valid candidates, as
    the search loop does, the two removes of the undo step, run on the store
    the two appends produced, give back the store as it was: every club's
    lists, in content and order. *)
Theorem C6_undo_restores dc (h : list Club) (club : nat) (all_clubs : list nat)
    (as_home : bool) (opponent : nat) :
  club < length h ->
  Forall (fun r => r < length h) all_clubs ->
  In opponent (_get_valid_opponents dc h club all_clubs as_home) ->
  unassign (assign h club opponent as_home) club opponent as_home = Some h.
Proof.
  intros Hc HL Hin. apply valid_opponent_pairable in Hin as [HinL Hp].
  eapply unassign_assign_pairable; eauto.
  rewrite Forall_forall in HL. by apply HL, list_elem_of_In.
Qed.

Lemma C6_witness :
  let h := map club_of_data four_clubs in
  unassign (assign h 0 2 true) 0 2 true = Some h.
Proof.
  apply (C6_undo_restores ChampionsLeagueConstraints
           (map club_of_data four_clubs) 0 [0; 1; 2; 3] true 2).
  - simpl. lia.
  - repeat constructor; simpl; lia.
  - vm_compute. tauto.
Defined.

(** *** C7: the backtrack counter *)

(** C7.  [draw] returns, and the [backtrack_count] of its result is the
    number of undo steps in the log of the search, a log whose steps lead
    from the reset store to the clubs of the result. *)
Theorem C7_backtrack_count_is_undo_count {RNG}
    (shuffle : RNG -> list nat -> list nat * RNG) (s : Simulator RNG) (fuel : nat) :
  (forall g l, (shuffle g l).1 ≡ₚ l) ->
  (0 <= home_matches (constraints s) <= 4)%Z ->
  (0 <= away_matches (constraints s) <= 4)%Z ->
  4 * length (clubs (prepare s)) < fuel ->
  exists r s',
    draw shuffle fuel s = Ret (r, s') /\
    replay (clubs (prepare s)) (history s') = Some (r_clubs r) /\
    r_backtrack_count r = undo_count (history s').
Proof.
  intros Hp Hh Ha Hf.
  destruct (draw_with_post shuffle Hp _ cached_frame s fuel Hh Ha Hf)
    as (r & s' & Hd & Hc & Hb & _ & _ & _ & Hrep & _ & Hu & _).
  exists r, s'. split; [done|]. split; [by rewrite Hc|]. by rewrite Hb.
Qed.

Lemma C7_witness :
  exists r s',
    draw PyRandom.shuffle 20 (python_simulator CHAMPIONS_LEAGUE 0 four_clubs) = Ret (r, s') /\
    replay (clubs (prepare (python_simulator CHAMPIONS_LEAGUE 0 four_clubs))) (history s')
      = Some (r_clubs r) /\
    r_backtrack_count r = undo_count (history s').
Proof.
  apply (C7_backtrack_count_is_undo_count PyRandom.shuffle
           (python_simulator CHAMPIONS_LEAGUE 0 four_clubs) 20).
  - apply PyRandomFacts.shuffle_perm.
  - simpl. lia.
  - simpl. lia.
  - vm_compute. lia.
Defined.

(** *** C3: the candidate filters *)

(** C3, as stated, fails for the constraint engine's
    [get_valid_opponents], which checks one direction only.  Here club 1
    already lists club 0 as a home opponent while club 0 lists nobody (the
    state of the repository's own test of "already opponents", seen from
    the other side): club 1 is returned for club 0, yet the reverse check
    rejects the pair. *)
Lemma C3_counterexample :
  let h := [mkClub "Test" "TST" 1 [] []; mkClub "Opp" "OPP" 1 [0] []] in
  get_valid_opponents ChampionsLeagueConstraints h 0 [1] true = [1] /\
  can_pair ChampionsLeagueConstraints h 1 0 false = (false, Some AlreadyOpponents).
Proof. split; vm_compute; reflexivity. Qed.

(** C3, amended.  The filter that checks both directions is the
    simulator's [_get_valid_opponents]: under each of the three competition
    profiles, a club is in its result exactly when it is in the pool and
    [can_pair] succeeds for the pair and for the reversed pair with the role
    flipped. *)
Theorem C3_solver_filter_is_bidirectional (competition : Competition) (h : list Club)
    (club : nat) (pool : list nat) (as_home : bool) (other : nat) :
  In other (_get_valid_opponents (constraints_for competition) h club pool as_home) <->
  In other pool /\
  fst (can_pair (constraints_for competition) h club other as_home) = true /\
  fst (can_pair (constraints_for competition) h other club (negb as_home)) = true.
Proof.
  unfold _get_valid_opponents. rewrite filter_In, !andb_true_iff. split; [tauto|].
  intros (Hin & P1 & P2). split_and!; try done.
  apply negb_true_iff, orb_false_iff.
  pose proof (can_pair_true _ _ _ _ _ P1) as (K & _ & C).
  split.
  - apply ref_eq_false_key. congruence.
  - unfold is_complete. apply andb_false_iff.
    unfold len in C.
    destruct competition, as_home; simpl in C;
      [right|left|right|left|right|left]; apply Nat.eqb_neq; lia.
Qed.

(** *** C9: the same seed gives the same draws *)



(** The seed is consumed by [__init__]: a simulator constructed with a
    seed, and then loaded with clubs, holds the generator in the state of
    that seed, whatever state the process was in before. *)
Lemma seeded_by_init {RNG} (seed_state : Z -> RNG) competition seed data (g : RNG) :
  rng (load_clubs data (new_simulator seed_state competition (Some seed) g))
  = seed_state seed.
Proof. reflexivity. Qed.




(** *** C10: one fixture per key *)

(** C10, as stated, fails: the set [seen] holds ordered (home name, away
    name) pairs, so when two clubs list each other as home opponents both
    orientations are emitted. *)
Lemma C10_counterexample :
  let h := [mkClub "A" "AAA" 1 [1] []; mkClub "B" "BBB" 1 [0] []] in
  _generate_fixtures h = [mkFixture 0 1; mkFixture 1 0] /\
  unordered_pair h (mkFixture 0 1) = unordered_pair h (mkFixture 1 0).
Proof.
  split; [vm_compute; reflexivity|].
  unfold unordered_pair. simpl. set_solver.
Qed.

Lemma fixtures_of_club_keys (h : list Club) (club : nat) (opps : list nat)
    (fs : list Fixture) (seen : gset (string * string)) :
  NoDup (fixture_key h <$> fs) ->
  (forall k : string * string, k ∈ fixture_key h <$> fs -> k ∈ seen) ->
  NoDup (fixture_key h <$> (fixtures_of_club h club opps (fs, seen)).1) /\
  (forall k : string * string,
      k ∈ fixture_key h <$> (fixtures_of_club h club opps (fs, seen)).1 ->
             k ∈ (fixtures_of_club h club opps (fs, seen)).2).
Proof.
  revert fs seen. induction opps as [|opp rest IH]; intros fs seen Hnd Hsub; [done|].
  cbn [fixtures_of_club fst snd]. case_bool_decide as Hk; [by apply IH|].
  apply IH.
  - rewrite fmap_app. apply NoDup_app. split_and!; [done| |apply NoDup_singleton].
    intros k Hin Hk'. apply list_elem_of_singleton in Hk'. subst k.
    apply Hk, Hsub, Hin.
  - intros k. rewrite fmap_app, elem_of_app. intros [Hin|Hin].
    + apply elem_of_union_r. by apply Hsub.
    + apply list_elem_of_singleton in Hin. subst k. apply elem_of_union_l.
      by apply elem_of_singleton.
Qed.

(** C10, amended.  [_generate_fixtures] emits at most one fixture per
    ordered (home name, away name) pair: the keys of the fixtures it
    returns are pairwise distinct, for every store. *)
Theorem C10_one_fixture_per_ordered_pair (h : list Club) :
  NoDup (fixture_key h <$> _generate_fixtures h).
Proof.
  unfold _generate_fixtures.
  assert (G : forall l (acc : list Fixture * gset (string * string)),
            NoDup (fixture_key h <$> acc.1) ->
            (forall k : string * string, k ∈ fixture_key h <$> acc.1 -> k ∈ acc.2) ->
            NoDup (fixture_key h <$>
                     (foldl (fun acc club =>
                               fixtures_of_club h club (home_opponents (deref h club)) acc)
                            acc l).1)).
  { induction l as [|c l IH]; intros [fs seen] Hnd Hsub; [done|].
    simpl. simpl in Hnd, Hsub.
    destruct (fixtures_of_club_keys h c (home_opponents (deref h c)) fs seen Hnd Hsub)
      as [Hnd' Hsub'].
    destruct (fixtures_of_club h c (home_opponents (deref h c)) (fs, seen)) as [fs' seen'].
    by apply IH. }
  apply G; simpl; [apply NoDup_nil_2|]. intros k Hk. by apply elem_of_nil in Hk.
Qed.

(** * Further properties *)

(** ** What survives of a search *)

Section SearchBuilt.

Context {RNG : Type}.
Variable shuffle : RNG -> list nat -> list nat * RNG.
Hypothesis shuffle_perm : forall g l, (shuffle g l).1 ≡ₚ l.
Variable counter : Simulator RNG -> nat -> list nat -> nat * Simulator RNG.
Hypothesis counter_frame : forall s c l, exists m, (counter s c l).2 = set_cache m s.
Variable dc : DrawConstraints.
Hypothesis home_le : (home_matches dc <= 4)%Z.
Hypothesis away_le : (away_matches dc <= 4)%Z.
Variable n : nat.
Variable all_clubs : list nat.
Hypothesis all_clubs_lt : Forall (fun r => r < n) all_clubs.
Variable h0 : list Club.

#[local] Abbreviation pre := (@search_pre RNG dc n).
#[local] Abbreviation post := (@search_post RNG dc all_clubs).
#[local] Abbreviation good := (built dc all_clubs h0).

Lemma try_candidates_built rec club as_home T :
  (forall s1, pre s1 -> total (clubs s1) = S (S T) -> good (clubs s1) ->
     exists b s2, rec s1 = Ret (b, s2) /\ post s1 b s2 /\ good (clubs s2)) ->
  forall candidates s,
    pre s -> total (clubs s) = T -> club < length (clubs s) -> In club all_clubs ->
    good (clubs s) ->
    Forall (fun o => In o all_clubs /\ pairable dc (clubs s) club o as_home) candidates ->
    exists b s', try_candidates rec club as_home candidates s = Ret (b, s')
                 /\ post s b s' /\ good (clubs s').
Proof.
  intros Hrec. induction candidates as [|o rest IH]; intros s Hpre HT Hc HcL Hg Hall.
  - exists false, s. split; [done|]. split; [by apply post_same|done].
  - apply Forall_cons in Hall as [[HoL Hp] Hall].
    destruct Hpre as (Hok & Hk & Hn).
    assert (Ho : o < length (clubs s)).
    { rewrite Hn. pose proof all_clubs_lt as HA. rewrite Forall_forall in HA.
      by apply HA, list_elem_of_In. }
    set (s1 := do_assign club o as_home s).
    assert (Hok1 : store_ok dc (clubs s1)) by (by apply assign_ok).
    assert (Hpre1 : pre s1).
    { split; [done|]. split; [done|]. simpl. by rewrite assign_length. }
    assert (HT1 : total (clubs s1) = S (S T)).
    { simpl. rewrite total_assign by done. by rewrite HT. }
    assert (Hg1 : good (clubs s1)) by (by apply built_assign).
    assert (T01 : search_trace dc s s1)
      by (by apply (trace_step dc s s1 (Assigned club o as_home))).
    destruct (Hrec s1 Hpre1 HT1 Hg1) as (b & s2 & Hr & (T12 & F2 & C2) & Hg2).
    simpl. fold s1. rewrite Hr.
    destruct b.
    + exists true, s2. split; [done|]. split; [|done].
      split; [by eapply trace_trans|]. split; [discriminate|done].
    + specialize (F2 eq_refl).
      assert (Hun : unassign (clubs s2) club o as_home = Some (clubs s)).
      { rewrite F2. simpl. by eapply unassign_assign_pairable. }
      unfold do_backtrack. simpl. rewrite Hun.
      match goal with |- context [try_candidates _ _ _ _ ?x] => set (s3 := x) end.
      assert (T23 : search_trace dc s2 s3).
      { apply (trace_step dc s2 s3 (Undone club o as_home)); simpl; try done. lia. }
      assert (E3 : clubs s3 = clubs s) by done.
      destruct (IH s3) as (b' & s' & Ht & Hpost' & Hg').
      { split; [by rewrite E3|]. split; [|by rewrite E3].
        change (constraints s3) with (constraints s2).
        by rewrite (trace_constraints dc _ _ T12). }
      { by rewrite E3. }
      { by rewrite E3. }
      { done. }
      { by rewrite E3. }
      { by rewrite E3. }
      exists b', s'. split; [done|]. split; [|done].
      eapply post_trans; [|exact Hpost'].
      split; [eauto using trace_trans|]. split; [done|discriminate].
Qed.

Lemma try_directions_built rec club directions T :
  (forall s1, pre s1 -> total (clubs s1) = S (S T) -> good (clubs s1) ->
     exists b s2, rec s1 = Ret (b, s2) /\ post s1 b s2 /\ good (clubs s2)) ->
  forall s,
    pre s -> total (clubs s) = T -> club < length (clubs s) -> In club all_clubs ->
    good (clubs s) ->
    exists b s', try_directions shuffle rec all_clubs club directions s = Ret (b, s')
                 /\ post s b s' /\ good (clubs s').
Proof.
  intros Hrec. induction directions as [|as_home rest IH]; intros s Hpre HT Hc HcL Hg.
  - exists false, s. split; [done|]. split; [by apply post_same|done].
  - simpl.
    destruct (sorted_candidates shuffle shuffle_perm all_clubs s club as_home)
      as (g & Hs & Hin).
    destruct (_get_valid_opponents_sorted shuffle s club all_clubs as_home)
      as [candidates s1]. simpl in Hs, Hin. subst s1.
    destruct Hpre as (Hok & Hk & Hn).
    destruct (try_candidates_built rec club as_home T Hrec candidates (set_rng g s))
      as (b & s2 & Ht & Hpost & Hg2); try done.
    { apply Forall_forall. intros o Ho. apply list_elem_of_In, Hin in Ho. simpl.
      apply valid_opponent_pairable in Ho as [HoL Hp]. by rewrite Hk in Hp. }
    rewrite Ht. destruct b.
    + exists true, s2. split; [done|]. split; [|done].
      eapply post_trans; [|exact Hpost]. by apply post_same.
    + destruct Hpost as (T2 & F2 & C2). specialize (F2 eq_refl). simpl in F2.
      pose proof (trace_constraints dc _ _ T2) as K2. simpl in K2.
      destruct (IH s2) as (b' & s' & Ht' & Hpost' & Hg').
      { split; [by rewrite F2|]. split; [congruence|]. by rewrite F2. }
      { by rewrite F2. }
      { by rewrite F2. }
      { done. }
      { done. }
      exists b', s'. split; [done|]. split; [|done].
      eapply post_trans; [|exact Hpost'].
      split; [|split; [done|discriminate]].
      eapply trace_trans; [|exact T2]. by apply trace_same.
Qed.

(** The search returns, and the store it leaves was built from [h0] by
    valid assignments alone: what was undone has left no mark. *)
Lemma assign_opponents_built fuel :
  forall s, pre s -> 8 * n < 2 * fuel + total (clubs s) -> good (clubs s) ->
    exists b s', assign_opponents shuffle counter fuel all_clubs s = Ret (b, s')
                 /\ post s b s' /\ good (clubs s').
Proof.
  induction fuel as [|fuel IH]; intros s Hpre Hf Hg.
  - destruct Hpre as (Hok & _ & Hn).
    pose proof (total_bound dc (clubs s) home_le away_le Hok). lia.
  - simpl. destruct (_ >? _)%Z.
    { exists false, s. split; [done|]. split; [by apply post_same|done]. }
    destruct (List.filter _ all_clubs) as [|c0 l0] eqn:E.
    { exists true, s. split; [done|]. split; [|done].
      split; [by apply trace_same|]. split; [discriminate|]. intros _.
      apply Forall_forall. intros c Hc. apply list_elem_of_In in Hc.
      destruct (is_complete (deref (clubs s) c)) eqn:Ec; [done|].
      assert (Hin : In c (List.filter
                (fun c => negb (is_complete (deref (clubs s) c))) all_clubs)).
      { apply filter_In. by rewrite Ec. }
      rewrite E in Hin. destruct Hin. }
    destruct (forward_check_frame counter counter_frame all_clubs (c0 :: l0) s) as [m Hm].
    destruct (forward_check counter all_clubs (c0 :: l0) s) as [ok s1].
    simpl in Hm. subst s1.
    destruct ok; cbn [negb].
    2:{ exists false, (set_cache m s). split; [done|]. split; [by apply post_same|done]. }
    destruct (min_by_count_spec counter counter_frame all_clubs (c0 :: l0) (set_cache m s))
      as (club & m' & Hmin & Hin); [done|].
    rewrite Hmin. rewrite <- E in Hin. apply filter_In in Hin as [HinL Hinc].
    apply negb_true_iff in Hinc.
    destruct Hpre as (Hok & Hk & Hn).
    assert (Hclub : club < length (clubs s)).
    { rewrite Hn. pose proof all_clubs_lt as HA. rewrite Forall_forall in HA.
      by apply HA, list_elem_of_In. }
    destruct (Hok club Hclub) as (_ & _ & _ & Bh & Ba).
    destruct (incomplete_needs _ Hinc) as [Hnh|Hna]; [lia|lia| |].
    + simpl. rewrite Hnh. simpl.
      destruct (try_directions_built (assign_opponents shuffle counter fuel all_clubs)
                  club
                  ([true] ++ (if (needs_away (deref (clubs s) club) >? 0)%Z
                              then [false] else []))
                  (total (clubs s))) with (s := set_cache m' (set_cache m s))
        as (b & s' & Ht & Hpost & Hg'); try done.
      { intros s1 Hpre1 HT1 Hg1. apply IH; [done| |done]. rewrite HT1. lia. }
      exists b, s'. split; [done|]. split; [|done].
      eapply post_trans; [|exact Hpost]. by apply post_same.
    + simpl. rewrite Hna. rewrite andb_false_r.
      destruct (try_directions_built (assign_opponents shuffle counter fuel all_clubs)
                  club
                  ((if (needs_home (deref (clubs s) club) >? 0)%Z
                    then [true] else []) ++ [false])
                  (total (clubs s))) with (s := set_cache m' (set_cache m s))
        as (b & s' & Ht & Hpost & Hg'); try done.
      { intros s1 Hpre1 HT1 Hg1. apply IH; [done| |done]. rewrite HT1. lia. }
      exists b, s'. split; [done|]. split; [|done].
      eapply post_trans; [|exact Hpost]. by apply post_same.
Qed.

End SearchBuilt.

(** ** Stores built by assignments *)

Lemma built_mono dc L L' h0 h :
  (forall x, In x L -> In x L') -> built dc L h0 h -> built dc L' h0 h.
Proof.
  intros Hsub Hb. induction Hb; [constructor|]. apply built_assign; auto.
Qed.

Lemma built_ids dc L h0 h : built dc L h0 h -> same_ids h0 h.
Proof.
  induction 1; [apply same_ids_refl|].
  eapply same_ids_trans; [eassumption|apply assign_ids].
Qed.

Lemma built_store_ok dc L h0 h : store_ok dc h0 -> built dc L h0 h -> store_ok dc h.
Proof. intros H0. induction 1; [done|]. by apply assign_ok. Qed.

(** *** The dict of [opponent_countries] counts the opponents by country *)

Lemma count_in_cons h x l k :
  count_in h (x :: l) k =
    (if decide (country (deref h x) = k) then 1 else 0) + count_in h l k.
Proof.
  unfold count_in. rewrite filter_cons. by case_decide.
Qed.

Lemma count_in_perm h l l' k : l ≡ₚ l' -> count_in h l k = count_in h l' k.
Proof. intros Hp. unfold count_in. by rewrite Hp. Qed.

Lemma count_in_same_ids h h' l k : same_ids h h' -> count_in h l k = count_in h' l k.
Proof.
  intros Hids. induction l as [|x l IH]; [done|].
  rewrite !count_in_cons, IH.
  pose proof (deref_ident h h' x Hids) as E. unfold ident in E.
  assert (country (deref h x) = country (deref h' x)) as -> by congruence. done.
Qed.

Lemma countries_fold h l (m : gmap string nat) k :
  default 0 (foldl (fun (countries : gmap string nat) opp =>
                      let k := country (deref h opp) in
                      <[k := default 0 (countries !! k) + 1]> countries) m l !! k)
  = default 0 (m !! k) + count_in h l k.
Proof.
  revert m. induction l as [|x l IH]; intros m; simpl.
  - unfold count_in. simpl. lia.
  - rewrite IH, count_in_cons. case_decide as E.
    + subst k. rewrite lookup_insert_eq. simpl. lia.
    + rewrite lookup_insert_ne by done. lia.
Qed.

Lemma count_from_spec h c k :
  count_from h c k = Z.of_nat (count_in h (all_opponents c) k).
Proof.
  unfold count_from, opponent_countries. rewrite countries_fold.
  by rewrite lookup_empty.
Qed.

Lemma can_pair_true_countries dc h c1 c2 as_home :
  fst (can_pair dc h c1 c2 as_home) = true ->
  country (deref h c1) <> country (deref h c2) /\
  (count_from h (deref h c1) (country (deref h c2)) < max_same_country dc)%Z /\
  (count_from h (deref h c2) (country (deref h c1)) < max_same_country dc)%Z.
Proof.
  unfold can_pair.
  destruct (club_eq (deref h c1) (deref h c2)); [done|].
  case_bool_decide as Ec; [done|].
  destruct (contains h (all_opponents (deref h c1)) c2); [done|].
  destruct (Z.geb_spec (count_from h (deref h c1) (country (deref h c2)))
                       (max_same_country dc)); [done|].
  destruct (Z.geb_spec (count_from h (deref h c2) (country (deref h c1)))
                       (max_same_country dc)); [done|].
  intros _. split_and!; [done|lia|lia].
Qed.

(** The opponents of a club after an assignment. *)
Lemma all_opponents_assign h club opponent as_home r :
  club <> opponent -> club < length h -> opponent < length h ->
  all_opponents (deref (assign h club opponent as_home) r) ≡ₚ
    (if decide (r = club) then [opponent]
     else if decide (r = opponent) then [club] else [])
    ++ all_opponents (deref h r).
Proof.
  intros Hne Hc Ho. rewrite deref_assign by done.
  repeat case_decide; subst; [| |done];
    destruct as_home; simpl;
    eauto using all_opponents_add_home, all_opponents_add_away.
Qed.

Lemma assign_mirror h club opponent as_home :
  club <> opponent -> club < length h -> opponent < length h ->
  mirror_ok h -> mirror_ok (assign h club opponent as_home).
Proof.
  intros Hne Hc Ho H a b Ha Hb. rewrite assign_length in Ha, Hb.
  specialize (H a b Ha Hb).
  rewrite (deref_assign h club opponent as_home a), (deref_assign h club opponent as_home b)
    by done.
  destruct as_home; repeat case_decide; subst; simpl; rewrite ?in_app_iff; simpl;
    try tauto; intuition congruence.
Qed.

Lemma assign_foreign dc h club opponent as_home :
  club < length h -> opponent < length h ->
  pairable dc h club opponent as_home ->
  foreign_ok h -> foreign_ok (assign h club opponent as_home).
Proof.
  intros Hc Ho [P1 P2] H a x Ha Hx. rewrite assign_length in Ha.
  pose proof (can_pair_true _ _ _ _ _ P1) as (K & _ & _).
  pose proof (can_pair_true_countries _ _ _ _ _ P1) as (C & _ & _).
  pose proof (key_neq_ref _ _ _ K) as Hne.
  pose proof (assign_ids h club opponent as_home) as Hids.
  pose proof (deref_ident _ _ x Hids) as Ex.
  pose proof (deref_ident _ _ a Hids) as Ea. unfold ident in Ex, Ea.
  assert (country (deref (assign h club opponent as_home) x) = country (deref h x))
    as -> by congruence.
  assert (country (deref (assign h club opponent as_home) a) = country (deref h a))
    as -> by congruence.
  apply list_elem_of_In in Hx.
  rewrite (all_opponents_assign h club opponent as_home a) in Hx by done.
  apply elem_of_app in Hx as [Hx|Hx].
  - repeat case_decide; subst; try by apply elem_of_nil in Hx.
    + apply list_elem_of_singleton in Hx. subst. congruence.
    + apply list_elem_of_singleton in Hx. subst. congruence.
  - apply H; [done|]. by apply list_elem_of_In.
Qed.

Lemma assign_limit dc h club opponent as_home :
  club < length h -> opponent < length h ->
  pairable dc h club opponent as_home ->
  limit_ok dc h -> limit_ok dc (assign h club opponent as_home).
Proof.
  intros Hc Ho [P1 P2] H a k Ha. rewrite assign_length in Ha.
  pose proof (can_pair_true _ _ _ _ _ P1) as (K & _ & _).
  pose proof (can_pair_true_countries _ _ _ _ _ P1) as (C & L1 & L2).
  pose proof (key_neq_ref _ _ _ K) as Hne.
  pose proof (assign_ids h club opponent as_home) as Hids.
  rewrite <- (count_in_same_ids _ _ _ _ Hids).
  rewrite (count_in_perm _ _ _ _ (all_opponents_assign h club opponent as_home a Hne Hc Ho)).
  rewrite !count_from_spec in L1, L2. specialize (H a k Ha).
  repeat case_decide; subst; simpl; try done.
  - rewrite count_in_cons. case_decide; subst; lia.
  - rewrite count_in_cons. case_decide; subst; lia.
Qed.

Lemma assign_idle L h club opponent as_home :
  club <> opponent -> club < length h -> opponent < length h ->
  In club L -> In opponent L ->
  idle_ok L h -> idle_ok L (assign h club opponent as_home).
Proof.
  intros Hne Hc Ho HcL HoL H a Ha Hna. rewrite assign_length in Ha.
  rewrite deref_assign by done.
  repeat case_decide; subst; try done. by apply H.
Qed.

(** Every store built by valid assignments from a store with these four
    properties has them. *)
Lemma built_properties dc L h0 h :
  store_ok dc h0 -> mirror_ok h0 -> foreign_ok h0 -> limit_ok dc h0 -> idle_ok L h0 ->
  built dc L h0 h ->
  mirror_ok h /\ foreign_ok h /\ limit_ok dc h /\ idle_ok L h.
Proof.
  intros Hok M F Li I Hb. induction Hb as [|h club opp d Hb IH Hokh HcL HoL Hc Ho Hp]; [done|].
  destruct IH as (M' & F' & L' & I').
  assert (Hne : club <> opp).
  { destruct Hp as [P1 _]. apply can_pair_true in P1 as (K & _). by eapply key_neq_ref. }
  split_and!.
  - by apply assign_mirror.
  - by eapply assign_foreign.
  - by apply assign_limit.
  - by apply assign_idle.
Qed.

Lemma reset_properties dc L h :
  (0 <= max_same_country dc)%Z ->
  mirror_ok (map reset h) /\ foreign_ok (map reset h) /\
  limit_ok dc (map reset h) /\ idle_ok L (map reset h).
Proof.
  intros Hm.
  assert (E : forall a, all_opponents (deref (map reset h) a) = []
                        /\ home_opponents (deref (map reset h) a) = []
                        /\ away_opponents (deref (map reset h) a) = []).
  { intros a. unfold deref. rewrite list_lookup_total_alt.
    change (map reset h) with (reset <$> h). rewrite list_lookup_fmap.
    by destruct (h !! a). }
  split_and!.
  - intros a b _ _. destruct (E a) as (_ & -> & _), (E b) as (_ & _ & ->). done.
  - intros a x _. destruct (E a) as (-> & _). done.
  - intros a k _. destruct (E a) as (-> & _). unfold count_in. simpl. lia.
  - intros a _ _. by destruct (E a).
Qed.

(** ** What [draw] returns *)

Section DrawBuilt.

Context {RNG : Type}.
Variable shuffle : RNG -> list nat -> list nat * RNG.
Hypothesis shuffle_perm : forall g l, (shuffle g l).1 ≡ₚ l.
Variable counter : Simulator RNG -> nat -> list nat -> nat * Simulator RNG.
Hypothesis counter_frame : forall s c l, exists m, (counter s c l).2 = set_cache m s.

(** [draw] returns; the clubs of its result were built from the reset
    clubs by valid assignments between clubs of pots 1 to 4; they are the
    reset clubs when the result is invalid, and complete when it is valid. *)
Lemma draw_with_built s fuel :
  (0 <= home_matches (constraints s) <= 4)%Z ->
  (0 <= away_matches (constraints s) <= 4)%Z ->
  4 * length (clubs (prepare s)) < fuel ->
  exists r s',
    draw_with shuffle counter fuel s = Ret (r, s') /\
    built (constraints s) (active (clubs (prepare s))) (clubs (prepare s)) (r_clubs r) /\
    store_ok (constraints s) (clubs (prepare s)) /\
    fixtures r = (if is_valid r then _generate_fixtures (r_clubs r) else []) /\
    (is_valid r = false -> r_clubs r = clubs (prepare s)) /\
    (is_valid r = true ->
       Forall (fun c => is_complete (deref (r_clubs r) c) = true)
              (active (clubs (prepare s)))).
Proof.
  intros [Hh0 Hh] [Ha0 Ha] Hf. rewrite draw_with_unfold.
  unfold draw_with_backtracking.
  pose proof (shuffle_pots_perm shuffle shuffle_perm
                (clubs (prepare s)) [1; 2; 3; 4]%Z (rng (prepare s))) as Hp.
  destruct (shuffle_pots shuffle _ _ _) as [shuffled g]. cbn [fst] in Hp.
  fold (active (clubs (prepare s))) in Hp.
  destruct (prepare_clubs s) as [h0 Eh0].
  assert (Hok : store_ok (constraints s) (clubs (prepare s))).
  { rewrite Eh0. by apply reset_store_ok. }
  assert (Htot : total (clubs (prepare s)) = 0).
  { rewrite Eh0. apply total_reset. }
  destruct (assign_opponents_built shuffle shuffle_perm counter counter_frame
              (constraints s) Hh Ha (length (clubs (prepare s))) shuffled)
    with (h0 := clubs (prepare s)) (fuel := fuel) (s := set_rng g (prepare s))
    as (b & s' & Hr & (_ & F1 & C1) & Hb).
  { rewrite Hp. apply active_lt. }
  { split; [done|]. split; [|done]. apply prepare_constraints. }
  { change (clubs (set_rng g (prepare s))) with (clubs (prepare s)).
    rewrite Htot. lia. }
  { constructor. }
  rewrite Hr. eexists _, s'. split; [reflexivity|].
  cbn [r_clubs fixtures is_valid].
  change (clubs (set_rng g (prepare s))) with (clubs (prepare s)) in *.
  split_and!; try done.
  - eapply built_mono; [|exact Hb]. intros x Hx.
    apply list_elem_of_In. rewrite <- Hp. by apply list_elem_of_In.
  - intros Hv. specialize (C1 Hv). by rewrite <- Hp.
Qed.

End DrawBuilt.

(** ** [validate_final_draw] *)

Lemma size_list_to_set_le (l : list (string * string)) :
  size (list_to_set l : gset (string * string)) <= length l.
Proof.
  induction l as [|x l IH].
  { rewrite list_to_set_nil, size_empty. simpl. lia. }
  rewrite list_to_set_cons, size_union_alt, size_singleton. cbn [length].
  assert (size (list_to_set l ∖ {[x]} : gset (string * string)) <= size (list_to_set l : gset _)).
  { apply subseteq_size. intros y. rewrite elem_of_difference. tauto. }
  lia.
Qed.

(** [len(l) == len(set(l))] holds exactly of the lists without repetition. *)
Lemma size_list_to_set_eq (l : list (string * string)) :
  length l = size (list_to_set l : gset (string * string)) <-> NoDup l.
Proof.
  split; [|intros H; by rewrite size_list_to_set].
  induction l as [|x l IH]; intros H; [constructor|].
  rewrite list_to_set_cons in H. cbn [length] in H.
  pose proof (size_list_to_set_le l) as Hle.
  destruct (decide (x ∈ l)) as [Hin|Hin].
  - exfalso.
    assert (E : ({[x]} ∪ list_to_set l : gset (string * string)) = list_to_set l).
    { apply set_eq. intros y. rewrite elem_of_union, elem_of_singleton, elem_of_list_to_set.
      split; [intros [->|?]; done | auto]. }
    rewrite E in H. lia.
  - constructor; [done|]. apply IH.
    rewrite size_union, size_singleton in H; [lia|].
    apply disjoint_singleton_l. by rewrite elem_of_list_to_set.
Qed.

Lemma bump_keys k items : NoDup items.*1 -> NoDup (bump k items).*1.
Proof.
  induction items as [|[k' c] items IH]; simpl; intros H.
  - apply NoDup_singleton.
  - apply NoDup_cons in H as [Hn H]. case_decide; simpl.
    + by apply NoDup_cons.
    + apply NoDup_cons. split; [|by apply IH].
      intros Hin. apply Hn. clear -Hin H0.
      induction items as [|[k2 c2] items IH]; simpl in *.
      * apply list_elem_of_singleton in Hin. congruence.
      * case_decide; simpl in *.
        -- done.
        -- apply elem_of_cons in Hin as [->|Hin]; [left|right; by apply IH].
Qed.

Lemma bump_lookup k items k' c :
  NoDup items.*1 ->
  (k', c) ∈ bump k items <->
  (k' = k /\ ((exists c0, (k, c0) ∈ items /\ c = c0 + 1) \/ ((k ∉ items.*1) /\ c = 1)))
  \/ (k' <> k /\ (k', c) ∈ items).
Proof.
  induction items as [|[k2 c2] items IH]; intros H.
  - cbn [bump fmap list_fmap]. rewrite list_elem_of_singleton. split.
    + intros [= -> ->]. left. split; [done|]. right. split; [apply not_elem_of_nil|done].
    + intros [(Hk & [(c0 & Hc & _)|(_ & Hc)])|(_ & Hc)].
      * by apply elem_of_nil in Hc.
      * by subst.
      * by apply elem_of_nil in Hc.
  - change ((k2, c2) :: items).*1 with (k2 :: items.*1) in *.
    apply NoDup_cons in H as [Hn H]. specialize (IH H).
    assert (Hkey : forall x, (k2, x) ∈ items -> False).
    { intros x Hx. apply Hn. apply list_elem_of_fmap. by exists (k2, x). }
    cbn [bump]. case_decide as E; [subst k2|].
    + rewrite !elem_of_cons. split.
      * intros [Heq|Hin].
        -- injection Heq as -> ->. left. split; [done|]. left. exists c2.
           split; [by left|done].
        -- right. split; [|by right]. intros ->. by eapply Hkey.
      * intros [(Hk & [(c0 & Hc0 & Hc1)|(Hnot & Hc1)])|(Hne & [Heq|Hin])].
        -- apply elem_of_cons in Hc0 as [Heq|Hc].
           ++ injection Heq as ->. subst. by left.
           ++ exfalso. by eapply Hkey.
        -- exfalso. apply Hnot. by left.
        -- injection Heq as -> ->. done.
        -- by right.
    + rewrite !elem_of_cons, IH. split.
      * intros [Heq|[(Hk & [(c0 & Hc & Hc1)|(Hnot & Hc1)])|(Hne & Hin)]].
        -- injection Heq as -> ->. right. split; [done|by left].
        -- left. split; [done|]. left. exists c0. split; [by right|done].
        -- left. split; [done|]. right. split; [|done].
           intros [?|?]; [congruence|done].
        -- right. split; [done|by right].
      * intros [(Hk & [(c0 & Hc0 & Hc1)|(Hnot & Hc1)])|(Hne & [Heq|Hin])].
        -- apply elem_of_cons in Hc0 as [Heq|Hc].
           ++ injection Heq as -> ->. done.
           ++ right. left. split; [done|]. left. by exists c0.
        -- right. left. split; [done|]. right. split; [|done].
           intros ?. apply Hnot. by right.
        -- by left.
        -- right. right. done.
Qed.

(** The items of the dict are the countries that occur, each once, with
    the number of opponents from it. *)
Lemma items_fold h l items l0 :
  NoDup items.*1 ->
  (forall k c, (k, c) ∈ items <-> c = count_in h l0 k /\ 0 < c) ->
  let items' := foldl (fun items opp => bump (country (deref h opp)) items) items l in
  NoDup items'.*1 /\
  (forall k c, (k, c) ∈ items' <-> c = count_in h (l0 ++ l) k /\ 0 < c).
Proof.
  revert items l0. induction l as [|x l IH]; intros items l0 Hnd Hi; simpl.
  - by rewrite app_nil_r.
  - replace (l0 ++ x :: l) with ((l0 ++ [x]) ++ l) by by rewrite <- (assoc_L (++)).
    apply IH; [by apply bump_keys|].
    intros k c. rewrite bump_lookup by done.
    assert (Hc : forall k', count_in h (l0 ++ [x]) k'
              = count_in h l0 k' + (if decide (country (deref h x) = k') then 1 else 0)).
    { intros k'. unfold count_in. rewrite filter_app, length_app, filter_cons.
      case_decide; simpl; lia. }
    rewrite Hc. split.
    + intros [(-> & [(c0 & Hc0 & ->)|(Hnot & ->)])|(Hne & Hin)].
      * apply Hi in Hc0 as [-> ?]. rewrite decide_True by done. lia.
      * rewrite decide_True by done.
        destruct (count_in h l0 (country (deref h x))) as [|m] eqn:Em; [lia|].
        exfalso. apply Hnot. apply list_elem_of_fmap.
        exists (country (deref h x), S m). split; [done|]. apply Hi. lia.
      * apply Hi in Hin as [-> ?]. rewrite decide_False by done. lia.
    + intros [-> Hpos]. case_decide as E.
      * left. split; [done|]. subst k.
        destruct (count_in h l0 (country (deref h x))) as [|m] eqn:Em.
        -- right. split; [|done]. intros Hin.
           apply list_elem_of_fmap in Hin as ([k1 c1] & E1 & Hin). simpl in E1. subst k1.
           apply Hi in Hin as [-> ?]. lia.
        -- left. exists (S m). split; [|lia]. apply Hi. lia.
      * right. split; [done|]. apply Hi. lia.
Qed.

Lemma opponent_countries_items_spec h c k n :
  (k, n) ∈ opponent_countries_items h c <->
  n = count_in h (all_opponents c) k /\ 0 < n.
Proof.
  unfold opponent_countries_items.
  destruct (items_fold h (all_opponents c) [] []) as [_ H].
  - constructor.
  - intros k' c'. split; [intros Hin; by apply elem_of_nil in Hin|].
    unfold count_in. simpl. lia.
  - apply H.
Qed.

Lemma flat_map_nil {A B} (f : A -> list B) l :
  flat_map f l = [] <-> forall x, In x l -> f x = [].
Proof.
  induction l as [|x l IH]; simpl; [by split|].
  split.
  - intros H y [->|Hy]; apply app_eq_nil in H as [H1 H2]; [done|]. by apply IH.
  - intros H. rewrite (H x) by by left. simpl. apply IH. intros y Hy. apply H. by right.
Qed.

Lemma count_in_pos h l k :
  0 < count_in h l k <-> exists o, In o l /\ country (deref h o) = k.
Proof.
  induction l as [|x l IH]; [unfold count_in; simpl; split; [lia|by intros (? & [] & _)]|].
  rewrite count_in_cons. split.
  - case_decide as E.
    + intros _. exists x. split; [by left|done].
    + intros H. simpl in H. apply IH in H as (o & Ho & Hk). exists o. split; [by right|done].
  - intros (o & [->|Ho] & Hk).
    + rewrite decide_True by done. lia.
    + assert (0 < count_in h l k) by (apply IH; eauto). lia.
Qed.

(** A club yields no violation exactly when it meets what is checked. *)
Lemma club_violations_nil dc h club :
  club_violations dc h club = [] <-> club_valid dc h club.
Proof.
  unfold club_violations, club_valid.
  rewrite !app_nil, !flat_map_nil.
  assert (A1 : forall (P : Prop) `{Decision P} (v : Violation),
            (if bool_decide P then [] else [v]) = [] <-> P).
  { intros P ? v. case_bool_decide; split; try done. }
  rewrite !A1.
  rewrite <- (length_fmap (key h) (all_opponents (deref h club))), size_list_to_set_eq.
  split.
  - intros (H1 & H2 & H3 & H4 & H5). split_and!; try done.
    + intros opp Ho. specialize (H3 opp Ho). by case_bool_decide.
    + intros opp Ho.
      set (k := country (deref h opp)).
      set (c := count_in h (all_opponents (deref h club)) k).
      assert (Hpos : 0 < c) by (apply count_in_pos; eauto).
      assert (Hin : In (k, c) (opponent_countries_items h (deref h club))).
      { apply list_elem_of_In, opponent_countries_items_spec. done. }
      specialize (H4 _ Hin). simpl in H4.
      destruct (Z.gtb_spec (Z.of_nat c) (max_same_country dc)); [done|lia].
  - intros (H1 & H2 & H3 & H4 & H5). split_and!; try done.
    + intros opp Ho. specialize (H3 opp Ho). by case_bool_decide.
    + intros [k c] Hin. simpl.
      apply list_elem_of_In, opponent_countries_items_spec in Hin as [-> Hpos].
      apply count_in_pos in Hpos as (o & Ho & <-).
      specialize (H4 o Ho).
      destruct (Z.gtb_spec
        (Z.of_nat (count_in h (all_opponents (deref h club)) (country (deref h o))))
        (max_same_country dc)); [lia|done].
Qed.

(** X8.  [validate_final_draw] is a sound and complete oracle: it answers
    True, with no violation listed, exactly when every club of the list
    meets both quotas, has no opponent of its own country, meets no country
    more often than [max_same_country] and has no opponent twice. *)
Theorem validate_final_draw_correct dc h (clubs : list nat) :
  (fst (validate_final_draw dc h clubs) = true <-> Forall (club_valid dc h) clubs) /\
  (fst (validate_final_draw dc h clubs) = true <-> snd (validate_final_draw dc h clubs) = []).
Proof.
  unfold validate_final_draw. cbn [fst snd].
  assert (E : (length (flat_map (club_violations dc h) clubs) =? 0) = true
              <-> flat_map (club_violations dc h) clubs = []).
  { rewrite Nat.eqb_eq. apply length_zero_iff_nil. }
  split; [|done]. rewrite E, flat_map_nil, Forall_forall.
  split; intros H x Hx.
  - apply club_violations_nil, H. by apply list_elem_of_In.
  - apply club_violations_nil, H. by apply list_elem_of_In.
Qed.

Lemma validate_final_draw_passes dc h (clubs : list nat) :
  Forall (club_valid dc h) clubs -> validate_final_draw dc h clubs = (true, []).
Proof.
  intros H. unfold validate_final_draw.
  assert (E : flat_map (club_violations dc h) clubs = []).
  { apply flat_map_nil. intros x Hx. apply club_violations_nil.
    rewrite Forall_forall in H. by apply H, list_elem_of_In. }
  by rewrite E.
Qed.

(** ** The result of [draw] *)

Lemma in_active h c :
  In c (active h) <-> c < length h /\ (1 <= pot (deref h c) <= 4)%Z.
Proof.
  unfold active, pot_clubs. simpl. rewrite app_nil_r, !in_app_iff, !filter_In, !in_seq.
  rewrite !bool_decide_eq_true. split.
  - intros [H|[H|[H|H]]]; destruct H as [? ->]; lia.
  - intros [? ?]. assert (pot (deref h c) = 1 \/ pot (deref h c) = 2 \/
                          pot (deref h c) = 3 \/ pot (deref h c) = 4)%Z as [E|[E|[E|E]]]
      by lia; rewrite E; [left|right;left|right;right;left|right;right;right];
      (split; [lia|done]).
Qed.

Lemma same_ids_pot h h' c : same_ids h h' -> pot (deref h c) = pot (deref h' c).
Proof.
  intros H. pose proof (deref_ident h h' c H) as E. unfold ident in E. congruence.
Qed.

(** What every result of [draw] satisfies. *)
Lemma draw_result_facts {RNG} (shuffle : RNG -> list nat -> list nat * RNG)
    (s : Simulator RNG) (fuel : nat) :
  (forall g l, (shuffle g l).1 ≡ₚ l) ->
  (0 <= home_matches (constraints s) <= 4)%Z ->
  (0 <= away_matches (constraints s) <= 4)%Z ->
  (0 <= max_same_country (constraints s))%Z ->
  4 * length (clubs (prepare s)) < fuel ->
  exists r s',
    draw shuffle fuel s = Ret (r, s') /\
    same_ids (clubs (prepare s)) (r_clubs r) /\
    store_ok (constraints s) (r_clubs r) /\
    mirror_ok (r_clubs r) /\ foreign_ok (r_clubs r) /\
    limit_ok (constraints s) (r_clubs r) /\
    idle_ok (active (r_clubs r)) (r_clubs r) /\
    fixtures r = (if is_valid r then _generate_fixtures (r_clubs r) else []) /\
    (is_valid r = false -> r_clubs r = clubs (prepare s)) /\
    (is_valid r = true ->
       Forall (fun c => is_complete (deref (r_clubs r) c) = true) (active (r_clubs r))).
Proof.
  intros Hp Hh Ha Hm Hf.
  destruct (draw_with_built shuffle Hp _ cached_frame s fuel Hh Ha Hf)
    as (r & s' & Hd & Hb & Hok & Hfx & Hinv & Hval).
  exists r, s'. split; [done|].
  pose proof (built_ids _ _ _ _ Hb) as Hids.
  destruct (prepare_clubs s) as [hr Ehr].
  destruct (reset_properties (constraints s) (active (clubs (prepare s))) hr Hm)
    as (M0 & F0 & L0 & I0).
  rewrite <- Ehr in M0, F0, L0, I0.
  destruct (built_properties _ _ _ _ Hok M0 F0 L0 I0 Hb) as (M & F & L & I).
  assert (Eact : forall c, In c (active (r_clubs r)) <-> In c (active (clubs (prepare s)))).
  { intros c. rewrite !in_active, <- (same_ids_length _ _ Hids),
      <- (same_ids_pot _ _ c Hids). done. }
  split_and!; try done.
  - by eapply built_store_ok.
  - intros a Ha' Hna. apply I; [done|]. by rewrite <- Eact.
  - intros Hv. specialize (Hval Hv). rewrite Forall_forall in *.
    intros c Hc. apply Hval. apply list_elem_of_In, Eact. by apply list_elem_of_In.
Qed.

Lemma result_of_drawn {RNG} (x : result (DrawResult * Simulator RNG)) r s' :
  x = Ret (r, s') -> forall r', drawn x = Some r' -> r' = r.
Proof. intros -> r'. simpl. congruence. Qed.

(** The facts of [draw_result_facts], for the result a run has returned. *)
Lemma drawn_facts {RNG} (shuffle : RNG -> list nat -> list nat * RNG)
    (s : Simulator RNG) (fuel : nat) (r : DrawResult) :
  ready shuffle s fuel ->
  drawn (draw shuffle fuel s) = Some r ->
  same_ids (clubs (prepare s)) (r_clubs r) /\
  store_ok (constraints s) (r_clubs r) /\
  mirror_ok (r_clubs r) /\ foreign_ok (r_clubs r) /\
  limit_ok (constraints s) (r_clubs r) /\
  idle_ok (active (r_clubs r)) (r_clubs r) /\
  fixtures r = (if is_valid r then _generate_fixtures (r_clubs r) else []) /\
  (is_valid r = false -> r_clubs r = clubs (prepare s)) /\
  (is_valid r = true ->
     Forall (fun c => is_complete (deref (r_clubs r) c) = true) (active (r_clubs r))).
Proof.
  intros (Hp & Hh & Ha & Hm & Hf) Hd.
  destruct (draw_result_facts shuffle s fuel Hp Hh Ha Hm Hf) as (r0 & s' & Hr & H).
  rewrite (result_of_drawn _ _ _ Hr r Hd). exact H.
Qed.

Ltac python_ready :=
  split; [apply PyRandomFacts.shuffle_perm|];
  split; [simpl; lia|]; split; [simpl; lia|]; split; [simpl; lia|];
  vm_compute; lia.

(** X1.  In a valid result every club of pots 1 to 4 has exactly four
    home and four away opponents. *)
Theorem valid_draw_fills_every_club {RNG} (shuffle : RNG -> list nat -> list nat * RNG)
    (s : Simulator RNG) (fuel : nat) (r : DrawResult) :
  ready shuffle s fuel ->
  drawn (draw shuffle fuel s) = Some r -> is_valid r = true ->
  forall c, c < length (r_clubs r) -> (1 <= pot (deref (r_clubs r) c) <= 4)%Z ->
    length (home_opponents (deref (r_clubs r) c)) = 4 /\
    length (away_opponents (deref (r_clubs r) c)) = 4.
Proof.
  intros Hr Hd Hv c Hc Hpot.
  destruct (drawn_facts shuffle s fuel r Hr Hd) as (_ & _ & _ & _ & _ & _ & _ & _ & Hcomp).
  specialize (Hcomp Hv). rewrite Forall_forall in Hcomp.
  assert (Hin : c ∈ active (r_clubs r)) by (apply list_elem_of_In, in_active; done).
  specialize (Hcomp c Hin). unfold is_complete in Hcomp.
  apply andb_true_iff in Hcomp as [H1 H2]. by apply Nat.eqb_eq in H1, H2.
Qed.

Lemma valid_draw_fills_every_club_witness :
  let r := result_of (draw PyRandom.shuffle 50 sim_nine) in
  length (home_opponents (deref (r_clubs r) 8)) = 4 /\
  length (away_opponents (deref (r_clubs r) 8)) = 4.
Proof.
  apply (valid_draw_fills_every_club PyRandom.shuffle sim_nine 50).
  - python_ready.
  - vm_compute. reflexivity.
  - vm_compute. reflexivity.
  - vm_compute. lia.
  - vm_compute. split; discriminate.
Defined.

(** X2.  In an invalid result every club has empty opponent lists and
    there is no fixture: every assignment of the search was undone. *)
Theorem invalid_draw_leaves_nothing {RNG} (shuffle : RNG -> list nat -> list nat * RNG)
    (s : Simulator RNG) (fuel : nat) (r : DrawResult) :
  ready shuffle s fuel ->
  drawn (draw shuffle fuel s) = Some r -> is_valid r = false ->
  fixtures r = [] /\
  forall c, home_opponents (deref (r_clubs r) c) = [] /\
            away_opponents (deref (r_clubs r) c) = [].
Proof.
  intros Hr Hd Hv.
  destruct (drawn_facts shuffle s fuel r Hr Hd) as (_ & _ & _ & _ & _ & _ & Hfx & Hinv & _).
  rewrite Hv in Hfx. split; [done|]. intros c. rewrite (Hinv Hv).
  destruct (prepare_clubs s) as [h0 ->].
  unfold deref. rewrite list_lookup_total_alt.
  change (map reset h0) with (reset <$> h0). rewrite list_lookup_fmap.
  by destruct (h0 !! c).
Qed.

Lemma invalid_draw_leaves_nothing_witness :
  let r := result_of (draw PyRandom.shuffle 50 sim_four) in
  fixtures r = [] /\
  forall c, home_opponents (deref (r_clubs r) c) = [] /\
            away_opponents (deref (r_clubs r) c) = [].
Proof.
  apply (invalid_draw_leaves_nothing PyRandom.shuffle sim_four 50).
  - python_ready.
  - vm_compute. reflexivity.
  - vm_compute. reflexivity.
Defined.

(** X3.  In every result the lists mirror each other: club [b] is among
    the home opponents of club [a] exactly when [a] is among the away
    opponents of [b]. *)
Theorem draw_lists_mirror {RNG} (shuffle : RNG -> list nat -> list nat * RNG)
    (s : Simulator RNG) (fuel : nat) (r : DrawResult) :
  ready shuffle s fuel ->
  drawn (draw shuffle fuel s) = Some r ->
  forall a b, a < length (r_clubs r) -> b < length (r_clubs r) ->
    (In b (home_opponents (deref (r_clubs r) a))
     <-> In a (away_opponents (deref (r_clubs r) b))).
Proof.
  intros Hr Hd. by destruct (drawn_facts shuffle s fuel r Hr Hd) as (_ & _ & M & _).
Qed.

Lemma draw_lists_mirror_witness :
  let r := result_of (draw PyRandom.shuffle 50 sim_nine) in
  In 7 (home_opponents (deref (r_clubs r) 0))
  <-> In 0 (away_opponents (deref (r_clubs r) 7)).
Proof.
  apply (draw_lists_mirror PyRandom.shuffle sim_nine 50).
  - python_ready.
  - vm_compute. reflexivity.
  - vm_compute. lia.
  - vm_compute. lia.
Defined.

(** X4.  In every result no club has an opponent of its own country. *)
Theorem draw_keeps_countries_apart {RNG} (shuffle : RNG -> list nat -> list nat * RNG)
    (s : Simulator RNG) (fuel : nat) (r : DrawResult) :
  ready shuffle s fuel ->
  drawn (draw shuffle fuel s) = Some r ->
  forall a x, a < length (r_clubs r) ->
    In x (home_opponents (deref (r_clubs r) a) ++ away_opponents (deref (r_clubs r) a)) ->
    country (deref (r_clubs r) x) <> country (deref (r_clubs r) a).
Proof.
  intros Hr Hd. by destruct (drawn_facts shuffle s fuel r Hr Hd) as (_ & _ & _ & F & _).
Qed.

Lemma draw_keeps_countries_apart_witness :
  let r := result_of (draw PyRandom.shuffle 50 sim_nine) in
  In 7 (home_opponents (deref (r_clubs r) 0) ++ away_opponents (deref (r_clubs r) 0)) /\
  country (deref (r_clubs r) 7) <> country (deref (r_clubs r) 0).
Proof.
  split; [vm_compute; tauto|].
  apply (draw_keeps_countries_apart PyRandom.shuffle sim_nine 50).
  - python_ready.
  - vm_compute. reflexivity.
  - vm_compute. lia.
  - vm_compute. tauto.
Defined.

(** X5.  In every result no club has more opponents of one country than
    the profile's [max_same_country]. *)
Theorem draw_respects_country_limit {RNG} (shuffle : RNG -> list nat -> list nat * RNG)
    (s : Simulator RNG) (fuel : nat) (r : DrawResult) :
  ready shuffle s fuel ->
  drawn (draw shuffle fuel s) = Some r ->
  forall a k, a < length (r_clubs r) ->
    (count_from (r_clubs r) (deref (r_clubs r) a) k <= max_same_country (constraints s))%Z.
Proof.
  intros Hr Hd a k Ha.
  destruct (drawn_facts shuffle s fuel r Hr Hd) as (_ & _ & _ & _ & L & _).
  rewrite count_from_spec. by apply L.
Qed.

Lemma draw_respects_country_limit_witness :
  let r := result_of (draw PyRandom.shuffle 50 sim_nine) in
  (count_from (r_clubs r) (deref (r_clubs r) 0) "ENG"
   <= max_same_country (constraints sim_nine))%Z.
Proof.
  apply (draw_respects_country_limit PyRandom.shuffle sim_nine 50).
  - python_ready.
  - vm_compute. reflexivity.
  - vm_compute. lia.
Defined.

(** X6.  A club whose pot is not 1, 2, 3 or 4 takes no part in the draw:
    in every result its opponent lists are empty, and it is nobody's
    opponent. *)
Theorem draw_ignores_other_pots {RNG} (shuffle : RNG -> list nat -> list nat * RNG)
    (s : Simulator RNG) (fuel : nat) (r : DrawResult) :
  ready shuffle s fuel ->
  drawn (draw shuffle fuel s) = Some r ->
  forall c, c < length (r_clubs r) -> ~ (1 <= pot (deref (r_clubs r) c) <= 4)%Z ->
    home_opponents (deref (r_clubs r) c) = [] /\
    away_opponents (deref (r_clubs r) c) = [] /\
    forall a, a < length (r_clubs r) ->
      ~ In c (home_opponents (deref (r_clubs r) a) ++ away_opponents (deref (r_clubs r) a)).
Proof.
  intros Hr Hd c Hc Hpot.
  destruct (drawn_facts shuffle s fuel r Hr Hd) as (_ & _ & M & _ & _ & I & _).
  assert (E : all_opponents (deref (r_clubs r) c) = []).
  { apply I; [done|]. rewrite in_active. tauto. }
  unfold all_opponents in E. apply app_eq_nil in E as [E1 E2].
  split_and!; try done.
  intros a Ha Hin. apply in_app_iff in Hin as [Hin|Hin].
  - apply (M a c Ha Hc) in Hin. by rewrite E2 in Hin.
  - apply (M c a Hc Ha) in Hin. by rewrite E1 in Hin.
Qed.

Lemma draw_ignores_other_pots_witness :
  let r := result_of (draw PyRandom.shuffle 50 sim_guest) in
  home_opponents (deref (r_clubs r) 9) = [] /\
  away_opponents (deref (r_clubs r) 9) = [] /\
  forall a, a < length (r_clubs r) ->
    ~ In 9 (home_opponents (deref (r_clubs r) a) ++ away_opponents (deref (r_clubs r) a)).
Proof.
  apply (draw_ignores_other_pots PyRandom.shuffle sim_guest 50).
  - python_ready.
  - vm_compute. reflexivity.
  - vm_compute. lia.
  - vm_compute. intros [_ H]. apply H. reflexivity.
Defined.

(** X7.  A valid result of a draw whose clubs all lie in pots 1 to 4,
    under a profile of four home and four away matches, passes
    [validate_final_draw] as [run_single_draw] calls it: the answer is True
    and the list of violations is empty. *)
Theorem valid_draw_passes_validation {RNG} (shuffle : RNG -> list nat -> list nat * RNG)
    (s : Simulator RNG) (fuel : nat) (r : DrawResult) :
  ready shuffle s fuel ->
  drawn (draw shuffle fuel s) = Some r -> is_valid r = true ->
  home_matches (constraints s) = 4%Z -> away_matches (constraints s) = 4%Z ->
  (forall c, c < length (r_clubs r) -> (1 <= pot (deref (r_clubs r) c) <= 4)%Z) ->
  validate_final_draw (constraints s) (r_clubs r) (seq 0 (length (r_clubs r))) = (true, []).
Proof.
  intros Hr Hd Hv Hh Ha Hpots.
  destruct (drawn_facts shuffle s fuel r Hr Hd)
    as (_ & Hok & _ & F & L & _ & _ & _ & Hcomp).
  specialize (Hcomp Hv). rewrite Forall_forall in Hcomp.
  apply validate_final_draw_passes.
  apply Forall_forall. intros c Hc. apply elem_of_seq in Hc.
  assert (Hlt : c < length (r_clubs r)) by lia.
  assert (Hin : c ∈ active (r_clubs r)) by (apply list_elem_of_In, in_active; auto).
  specialize (Hcomp c Hin). unfold is_complete in Hcomp.
  apply andb_true_iff in Hcomp as [C1 C2]. apply Nat.eqb_eq in C1, C2.
  destruct (Hok c Hlt) as (_ & _ & D & _).
  unfold club_valid, len. split_and!; try done; try lia.
  - intros opp Ho. by apply F.
  - intros opp Ho. by apply L.
Qed.

Lemma valid_draw_passes_validation_witness :
  let r := result_of (draw PyRandom.shuffle 50 sim_nine) in
  validate_final_draw (constraints sim_nine) (r_clubs r) (seq 0 (length (r_clubs r)))
  = (true, []).
Proof.
  apply (valid_draw_passes_validation PyRandom.shuffle sim_nine 50).
  - python_ready.
  - vm_compute. reflexivity.
  - vm_compute. reflexivity.
  - reflexivity.
  - reflexivity.
  - intros c Hc. vm_compute in Hc.
    do 9 (destruct c as [|c]; [vm_compute; split; discriminate|]). lia.
Defined.

(** ** The fixture list *)

Lemma fixtures_of_club_spec (h : list Club) (club : nat) (opps : list nat)
    (fs : list Fixture) (seen : gset (string * string)) :
  (forall k : string * string, k ∈ seen <-> k ∈ fixture_key h <$> fs) ->
  exists new : list Fixture,
    (fixtures_of_club h club opps (fs, seen)).1 = fs ++ new /\
    (forall k : string * string,
        k ∈ (fixtures_of_club h club opps (fs, seen)).2 <-> k ∈ fixture_key h <$> (fs ++ new)) /\
    sublist new (mkFixture club <$> opps) /\
    (forall opp, opp ∈ opps ->
        fixture_key h (mkFixture club opp) ∈ fixture_key h <$> (fs ++ new)) /\
    (NoDup (fixture_key h <$> (fs ++ (mkFixture club <$> opps))) ->
       new = mkFixture club <$> opps).
Proof.
  revert fs seen. induction opps as [|opp rest IH]; intros fs seen Hseen.
  { exists []. cbn [fixtures_of_club fst snd]. rewrite app_nil_r.
    split_and!; try done. intros opp Ho. by apply elem_of_nil in Ho. }
  cbn [fixtures_of_club fst snd].
  change (name (deref h club), name (deref h opp))
    with (fixture_key h (mkFixture club opp)).
  case_bool_decide as Hk.
  - destruct (IH fs seen Hseen) as (new & E & Hs & Hsub & Hall & Hex).
    exists new. split_and!; try done.
    + rewrite fmap_cons. by apply sublist_cons.
    + intros o Ho. apply elem_of_cons in Ho as [->|Ho]; [|by apply Hall].
      rewrite fmap_app, elem_of_app. left. by apply Hseen.
    + intros Hnd. exfalso. rewrite fmap_app, fmap_cons in Hnd.
      apply NoDup_app in Hnd as (_ & Hd & _).
      apply Hseen in Hk. apply (Hd _ Hk). apply elem_of_cons. by left.
  - destruct (IH (fs ++ [mkFixture club opp])
                 ({[fixture_key h (mkFixture club opp)]} ∪ seen))
      as (new & E & Hs & Hsub & Hall & Hex).
    { intros k. rewrite elem_of_union, elem_of_singleton, fmap_app, elem_of_app.
      rewrite Hseen. simpl. rewrite list_elem_of_singleton. tauto. }
    exists (mkFixture club opp :: new). rewrite <- app_assoc in E, Hs, Hall. simpl in E, Hs, Hall.
    split_and!; try done.
    + rewrite fmap_cons. by apply sublist_skip.
    + intros o Ho. apply elem_of_cons in Ho as [->|Ho]; [|by apply Hall].
      rewrite fmap_app, elem_of_app. right. rewrite fmap_cons. apply elem_of_cons. by left.
    + intros Hnd. rewrite fmap_cons. f_equal. apply Hex.
      by rewrite <- app_assoc.
Qed.

Lemma generate_fixtures_spec (h : list Club) (l : list nat)
    (fs : list Fixture) (seen : gset (string * string)) :
  let entries := flat_map (fun club => mkFixture club <$> home_opponents (deref h club)) l in
  (forall k : string * string, k ∈ seen <-> k ∈ fixture_key h <$> fs) ->
  exists new : list Fixture,
    (foldl (fun acc club => fixtures_of_club h club (home_opponents (deref h club)) acc)
           (fs, seen) l).1 = fs ++ new /\
    sublist new entries /\
    (forall f, f ∈ entries -> fixture_key h f ∈ fixture_key h <$> (fs ++ new)) /\
    (NoDup (fixture_key h <$> (fs ++ entries)) -> new = entries).
Proof.
  cbn zeta. revert fs seen. induction l as [|c l IH]; intros fs seen Hseen.
  { exists []. simpl. rewrite app_nil_r. split_and!; try done.
    intros f Hf. by apply elem_of_nil in Hf. }
  cbn [foldl flat_map].
  destruct (fixtures_of_club_spec h c (home_opponents (deref h c)) fs seen Hseen)
    as (new1 & E1 & Hs1 & Hsub1 & Hall1 & Hex1).
  destruct (fixtures_of_club h c (home_opponents (deref h c)) (fs, seen)) as [fs1 seen1].
  simpl in E1, Hs1. subst fs1.
  destruct (IH (fs ++ new1) seen1 Hs1) as (new2 & E2 & Hsub2 & Hall2 & Hex2).
  exists (new1 ++ new2). rewrite app_assoc. split_and!; try done.
  - by apply sublist_app.
  - intros f Hf. apply elem_of_app in Hf as [Hf|Hf]; [|by apply Hall2].
    apply list_elem_of_fmap in Hf as (opp & -> & Ho).
    specialize (Hall1 opp Ho). rewrite fmap_app, elem_of_app.
    left. exact Hall1.
  - intros Hnd. rewrite app_assoc, fmap_app in Hnd.
    pose proof Hnd as Hnd1. apply NoDup_app in Hnd1 as (Hnd1 & _ & _).
    pose proof (Hex1 Hnd1) as ->. f_equal. apply Hex2. by rewrite fmap_app.
Qed.

(** X9.  The fixture list is a sub-list of the home entries of the clubs,
    in club order, and it names every pairing: for each home entry there
    is a fixture with the same home and away names. *)
Theorem generate_fixtures_sound_complete (h : list Club) :
  sublist (_generate_fixtures h) (home_entries h) /\
  forall club opp, club < length h -> In opp (home_opponents (deref h club)) ->
    (name (deref h club), name (deref h opp)) ∈ fixture_key h <$> _generate_fixtures h.
Proof.
  unfold _generate_fixtures, home_entries.
  destruct (generate_fixtures_spec h (seq 0 (length h)) [] ∅)
    as (new & E & Hsub & Hall & _).
  { intros k. simpl. rewrite elem_of_nil. set_solver. }
  rewrite E. simpl in *. split; [done|].
  intros club opp Hc Ho.
  apply (Hall (mkFixture club opp)).
  apply list_elem_of_In, in_flat_map. exists club. split; [apply in_seq; lia|].
  apply list_elem_of_In, list_elem_of_fmap. exists opp. split; [done|].
  by apply list_elem_of_In.
Qed.

Lemma generate_fixtures_exact (h : list Club) :
  NoDup (fixture_key h <$> home_entries h) -> _generate_fixtures h = home_entries h.
Proof.
  intros Hnd. unfold _generate_fixtures.
  destruct (generate_fixtures_spec h (seq 0 (length h)) [] ∅)
    as (new & E & _ & _ & Hex).
  { intros k. simpl. rewrite elem_of_nil. set_solver. }
  rewrite E. simpl. by apply Hex.
Qed.

(** X10.  When no two home entries carry the same pair of names, nothing
    is dropped: the fixture list is exactly the list of home entries, club
    by club in the order of the club list, each club's in the order of its
    home list. *)
Theorem generate_fixtures_all (h : list Club) :
  NoDup (fixture_key h <$> home_entries h) ->
  _generate_fixtures h = home_entries h.
Proof.
  intros Hnd. unfold _generate_fixtures.
  destruct (generate_fixtures_spec h (seq 0 (length h)) [] ∅)
    as (new & E & _ & _ & Hex).
  { intros k. simpl. rewrite elem_of_nil. set_solver. }
  rewrite E. simpl. by apply Hex.
Qed.

Lemma generate_fixtures_all_witness :
  let h := [mkClub "A" "AAA" 1 [1; 2] []; mkClub "B" "BBB" 1 [2] [0];
            mkClub "C" "CCC" 2 [] [0; 1]] in
  _generate_fixtures h = home_entries h.
Proof.
  apply (generate_fixtures_all
           [mkClub "A" "AAA" 1 [1; 2] []; mkClub "B" "BBB" 1 [2] [0];
            mkClub "C" "CCC" 2 [] [0; 1]]).
  apply (bool_decide_unpack _). vm_compute. reflexivity.
Defined.

Lemma same_ids_names h h' : same_ids h h' -> name <$> h = name <$> h'.
Proof.
  intros H. unfold same_ids in H.
  assert (E : forall l : list Club,
             name <$> l = (fun i : string * string * Z => i.1.1) <$> (ident <$> l)).
  { intros l. rewrite <- list_fmap_compose. by apply list_fmap_ext. }
  by rewrite !E, H.
Qed.

Lemma names_inj h a b :
  NoDup (name <$> h) -> a < length h -> b < length h ->
  name (deref h a) = name (deref h b) -> a = b.
Proof.
  intros Hnd Ha Hb E.
  apply (NoDup_lookup (name <$> h) a b (name (deref h a))); [done| |].
  - rewrite list_lookup_fmap. unfold deref. by rewrite list_lookup_lookup_total_lt.
  - rewrite E, list_lookup_fmap. unfold deref. by rewrite list_lookup_lookup_total_lt.
Qed.

Lemma home_entries_in h f :
  f ∈ home_entries h <-> home f < length h /\ away f ∈ home_opponents (deref h (home f)).
Proof.
  unfold home_entries. rewrite list_elem_of_In, in_flat_map. split.
  - intros (a & Ha & Hf). apply list_elem_of_In, list_elem_of_fmap in Hf as (o & -> & Ho).
    simpl. apply in_seq in Ha. split; [lia|done].
  - intros [Hh Ha]. exists (home f). split; [apply in_seq; lia|].
    apply list_elem_of_In, list_elem_of_fmap. exists (away f). by destruct f.
Qed.

Lemma entries_NoDup (g : nat -> list nat) l :
  NoDup l -> (forall a, a ∈ l -> NoDup (g a)) ->
  NoDup (flat_map (fun a => mkFixture a <$> g a) l).
Proof.
  induction 1 as [|a l Hnot Hnd IH]; intros Hg; [apply NoDup_nil_2|].
  cbn [flat_map]. apply NoDup_app. split_and!.
  - apply NoDup_fmap_2; [|apply Hg; by left]. intros x y E. by injection E.
  - intros f Hf Hin. apply list_elem_of_In, in_flat_map in Hin as (b & Hb & Hin).
    apply list_elem_of_In, list_elem_of_fmap in Hin as (o' & -> & _).
    apply list_elem_of_fmap in Hf as (o & E & _). injection E as -> _.
    by apply Hnot, list_elem_of_In.
  - apply IH. intros b Hb. apply Hg. by right.
Qed.

Lemma opponents_NoDup dc h c :
  store_ok dc h -> c < length h ->
  NoDup (home_opponents (deref h c)) /\ NoDup (away_opponents (deref h c)).
Proof.
  intros Hok Hc. destruct (Hok c Hc) as (_ & _ & Hnd & _).
  apply NoDup_fmap_1 in Hnd. unfold all_opponents in Hnd.
  apply NoDup_app in Hnd as (? & _ & ?). done.
Qed.

Lemma home_entries_NoDup dc h : store_ok dc h -> NoDup (home_entries h).
Proof.
  intros Hok. apply entries_NoDup; [apply NoDup_seq|].
  intros a Ha. apply elem_of_seq in Ha. apply (opponents_NoDup dc); [done|lia].
Qed.

Lemma home_entries_keys dc h :
  store_ok dc h -> NoDup (name <$> h) -> NoDup (fixture_key h <$> home_entries h).
Proof.
  intros Hok Hn. apply NoDup_fmap_2_strong; [|by apply (home_entries_NoDup dc)].
  intros [a b] [a' b'] Hf Hf' E.
  apply home_entries_in in Hf as [Ha Hb], Hf' as [Ha' Hb']. simpl in *.
  unfold fixture_key in E. simpl in E. injection E as E1 E2.
  assert (a = a') as <- by (by apply (names_inj h)).
  destruct (Hok a Ha) as (Hlt & _). rewrite Forall_forall in Hlt.
  assert (b = b') as <-; [|done].
  apply (names_inj h); [done| | |done]; apply Hlt; unfold all_opponents;
    rewrite elem_of_app; by left.
Qed.

Lemma entries_length h (g : nat -> list nat) l :
  (forall a, a ∈ l ->
     length (g a) = if decide (1 <= pot (deref h a) <= 4)%Z then 4 else 0) ->
  length (flat_map (fun a => mkFixture a <$> g a) l)
  = 4 * length (filter (fun a => (1 <= pot (deref h a) <= 4)%Z) l).
Proof.
  induction l as [|a l IH]; intros Hg; [done|].
  cbn [flat_map]. rewrite length_app, length_fmap, filter_cons.
  rewrite IH by (intros b Hb; apply Hg; by right).
  rewrite (Hg a) by (by left). case_decide; simpl; lia.
Qed.

Lemma active_length h :
  length (active h)
  = length (filter (fun a => (1 <= pot (deref h a) <= 4)%Z) (seq 0 (length h))).
Proof.
  unfold active, pot_clubs. simpl. rewrite app_nil_r, !length_app.
  induction (seq 0 (length h)) as [|a l IH]; [done|].
  rewrite filter_cons. simpl.
  repeat case_bool_decide; case_decide; simpl; lia.
Qed.

(** X11.  In a valid result of clubs with pairwise distinct names, the
    fixture list is the list of all home entries; it holds four fixtures
    per club of pots 1 to 4, and each such club is the home side of
    exactly four fixtures and the away side of exactly four. *)
Theorem valid_draw_fixture_counts {RNG} (shuffle : RNG -> list nat -> list nat * RNG)
    (s : Simulator RNG) (fuel : nat) (r : DrawResult) :
  ready shuffle s fuel ->
  drawn (draw shuffle fuel s) = Some r -> is_valid r = true ->
  NoDup (name <$> clubs (prepare s)) ->
  fixtures r = home_entries (r_clubs r) /\
  length (fixtures r) = 4 * length (active (r_clubs r)) /\
  forall c, c < length (r_clubs r) -> (1 <= pot (deref (r_clubs r) c) <= 4)%Z ->
    length (filter (fun f => home f = c) (fixtures r)) = 4 /\
    length (filter (fun f => away f = c) (fixtures r)) = 4.
Proof.
  intros Hr Hd Hv Hn.
  destruct (drawn_facts shuffle s fuel r Hr Hd)
    as (Hids & Hok & M & _ & _ & I & Hfx & _ & Hcomp).
  specialize (Hcomp Hv). rewrite Forall_forall in Hcomp. rewrite Hv in Hfx.
  rewrite (same_ids_names _ _ Hids) in Hn.
  set (h := r_clubs r) in *.
  assert (Hfour : forall c, c < length h -> (1 <= pot (deref h c) <= 4)%Z ->
            length (home_opponents (deref h c)) = 4 /\
            length (away_opponents (deref h c)) = 4).
  { intros c Hc Hp.
    assert (Hin : c ∈ active h) by (apply list_elem_of_In, in_active; done).
    specialize (Hcomp c Hin). unfold is_complete in Hcomp.
    apply andb_true_iff in Hcomp as [H1 H2]. by apply Nat.eqb_eq in H1, H2. }
  assert (Hall : fixtures r = home_entries h).
  { rewrite Hfx. apply generate_fixtures_exact. by apply (home_entries_keys (constraints s)). }
  rewrite Hall. split; [done|]. split.
  - rewrite active_length. unfold home_entries. apply entries_length.
    intros a Ha. apply elem_of_seq in Ha. case_decide as Hp.
    + apply Hfour; [lia|done].
    + assert (E : all_opponents (deref h a) = []).
      { apply I; [lia|]. rewrite in_active. tauto. }
      apply app_eq_nil in E as [-> _]. done.
  - intros c Hc Hp. destruct (Hfour c Hc Hp) as [F1 F2].
    destruct (opponents_NoDup _ _ c Hok Hc) as [N1 N2].
    pose proof (home_entries_NoDup _ _ Hok) as Hnd. split.
    + rewrite <- F1, <- (length_fmap (mkFixture c)). apply Permutation_length.
      apply NoDup_Permutation; [by apply NoDup_filter| |].
      { apply NoDup_fmap_2; [|done]. intros x y E. by injection E. }
      intros f. rewrite list_elem_of_filter, home_entries_in, list_elem_of_fmap. split.
      * intros (<- & _ & Ha). exists (away f). by destruct f.
      * intros (o & -> & Ho). simpl. done.
    + rewrite <- F2, <- (length_fmap (fun a => mkFixture a c)). apply Permutation_length.
      apply NoDup_Permutation; [by apply NoDup_filter| |].
      { apply NoDup_fmap_2; [|done]. intros x y E. by injection E. }
      intros f. rewrite list_elem_of_filter, home_entries_in, list_elem_of_fmap. split.
      * intros (<- & Hh & Ha). exists (home f). split; [by destruct f|].
        apply list_elem_of_In, (M (home f) (away f) Hh Hc), list_elem_of_In, Ha.
      * intros (a & -> & Ha). simpl.
        assert (Hlt : a < length h).
        { destruct (Hok c Hc) as (Hlt & _). rewrite Forall_forall in Hlt.
          apply Hlt. unfold all_opponents. rewrite elem_of_app. by right. }
        split_and!; try done.
        apply list_elem_of_In, (M a c Hlt Hc), list_elem_of_In, Ha.
Qed.

Lemma valid_draw_fixture_counts_witness :
  let r := result_of (draw PyRandom.shuffle 50 sim_nine) in
  fixtures r = home_entries (r_clubs r) /\
  length (fixtures r) = 4 * length (active (r_clubs r)) /\
  forall c, c < length (r_clubs r) -> (1 <= pot (deref (r_clubs r) c) <= 4)%Z ->
    length (filter (fun f => home f = c) (fixtures r)) = 4 /\
    length (filter (fun f => away f = c) (fixtures r)) = 4.
Proof.
  apply (valid_draw_fixture_counts PyRandom.shuffle sim_nine 50).
  - python_ready.
  - vm_compute. reflexivity.
  - vm_compute. reflexivity.
  - apply (bool_decide_unpack _). vm_compute. reflexivity.
Defined.

(** ** The candidate list *)

Lemma insert_by_perm {A} (k : A -> nat) x l : insert_by k x l ≡ₚ x :: l.
Proof.
  induction l as [|y l IH]; simpl; [done|].
  destruct (k x <=? k y); [done|]. rewrite IH. apply Permutation_swap.
Qed.

Lemma sort_by_perm {A} (k : A -> nat) l : sort_by k l ≡ₚ l.
Proof.
  induction l as [|x l IH]; simpl; [done|].
  rewrite insert_by_perm. unfold sort_by in IH. by rewrite IH.
Qed.

Lemma insert_by_sorted {A} (k : A -> nat) x l :
  StronglySorted (fun a b => k a <= k b) l ->
  StronglySorted (fun a b => k a <= k b) (insert_by k x l).
Proof.
  induction 1 as [|y l Hs IH Hy]; simpl; [by repeat constructor|].
  destruct (k x <=? k y) eqn:E.
  - apply Nat.leb_le in E. constructor; [by constructor|].
    constructor; [done|]. eapply Forall_impl; [exact Hy|]. simpl. intros; lia.
  - apply Nat.leb_gt in E. constructor; [done|].
    rewrite Forall_forall. intros z Hz. apply list_elem_of_In, insert_by_in in Hz as [->|Hz]; [lia|].
    rewrite Forall_forall in Hy. by apply Hy, list_elem_of_In.
Qed.

Lemma sort_by_sorted {A} (k : A -> nat) l :
  StronglySorted (fun a b => k a <= k b) (sort_by k l).
Proof.
  induction l as [|x l IH]; simpl; [constructor|]. by apply insert_by_sorted.
Qed.

Lemma insert_by_ties {A} (k : A -> nat) n x l :
  filter (fun a => k a = n) (insert_by k x l) = filter (fun a => k a = n) (x :: l).
Proof.
  induction l as [|y l IH]; simpl; [done|].
  destruct (k x <=? k y) eqn:E; [done|]. apply Nat.leb_gt in E.
  rewrite (filter_cons _ y), IH, !filter_cons.
  repeat case_decide; try done; lia.
Qed.

Lemma sort_by_ties {A} (k : A -> nat) n l :
  filter (fun a => k a = n) (sort_by k l) = filter (fun a => k a = n) l.
Proof.
  induction l as [|x l IH]; [done|].
  change (sort_by k (x :: l)) with (insert_by k x (sort_by k l)).
  by rewrite insert_by_ties, !filter_cons, IH.
Qed.

(** X12.  The candidates the loop tries are the valid opponents, each
    once, in non-decreasing order of their own count of valid opponents
    (most constrained first); candidates of equal count keep the order the
    shuffle gave them. *)
Theorem candidates_sorted_by_count {RNG} (shuffle : RNG -> list nat -> list nat * RNG)
    (s : Simulator RNG) (club : nat) (all_clubs : list nat) (as_home : bool) :
  (forall g l, (shuffle g l).1 ≡ₚ l) ->
  let count c := _count_valid_opponents (constraints s) (clubs s) c all_clubs in
  let valid := _get_valid_opponents (constraints s) (clubs s) club all_clubs as_home in
  let candidates := (_get_valid_opponents_sorted shuffle s club all_clubs as_home).1 in
  candidates ≡ₚ valid /\
  StronglySorted (fun a b => count a <= count b) candidates /\
  forall n, filter (fun c => count c = n) candidates
            = filter (fun c => count c = n) (shuffle (rng s) valid).1.
Proof.
  intros Hp count valid candidates. subst candidates.
  unfold _get_valid_opponents_sorted. fold valid.
  pose proof (Hp (rng s) valid) as Hperm.
  destruct (shuffle (rng s) valid) as [l g]. cbn [fst snd] in *.
  split_and!.
  - by rewrite sort_by_perm.
  - apply sort_by_sorted.
  - intros n. apply sort_by_ties.
Qed.

Lemma candidates_sorted_by_count_witness :
  let s := prepare sim_nine in
  let count c := _count_valid_opponents (constraints s) (clubs s) c (seq 0 9) in
  let valid := _get_valid_opponents (constraints s) (clubs s) 0 (seq 0 9) true in
  let candidates := (_get_valid_opponents_sorted PyRandom.shuffle s 0 (seq 0 9) true).1 in
  candidates ≡ₚ valid /\
  StronglySorted (fun a b => count a <= count b) candidates /\
  forall n, filter (fun c => count c = n) candidates
            = filter (fun c => count c = n) (PyRandom.shuffle (rng s) valid).1.
Proof.
  apply (candidates_sorted_by_count PyRandom.shuffle (prepare sim_nine) 0 (seq 0 9) true).
  apply PyRandomFacts.shuffle_perm.
Defined.

(** ** The memoized counts *)

Lemma invalidate_twice_lookup (n1 n2 : string) (cache : gmap string nat) k :
  substring_of n1 k = true \/ substring_of n2 k = true ->
  invalidate n2 (invalidate n1 cache) !! k = None.
Proof.
  intros H. rewrite !invalidate_lookup.
  destruct (substring_of n2 k); [done|]. destruct H as [->|?]; done.
Qed.

Lemma own_key (c : Club) : substring_of (name c) (cache_key c) = true.
Proof. unfold cache_key. apply substring_of_prefix, prefix_app_self. Qed.

(** X13.  Right after an assignment, and right after an undo, the
    memoized counter has no entry left for either club of the pair: asked
    for one of them, it returns the count computed afresh on the new
    store. *)
Theorem counts_fresh_after_change {RNG} (s s' : Simulator RNG)
    (club opponent : nat) (as_home : bool) (all_clubs : list nat) :
  s' = do_assign club opponent as_home s \/
  do_backtrack club opponent as_home s = Ret s' ->
  (_count_valid_opponents_cached s' club all_clubs).1
    = _count_valid_opponents (constraints s') (clubs s') club all_clubs /\
  (_count_valid_opponents_cached s' opponent all_clubs).1
    = _count_valid_opponents (constraints s') (clubs s') opponent all_clubs.
Proof.
  assert (G : forall (t : Simulator RNG) c,
            _opponent_count_cache t !! cache_key (deref (clubs t) c) = None ->
            (_count_valid_opponents_cached t c all_clubs).1
            = _count_valid_opponents (constraints t) (clubs t) c all_clubs).
  { intros t c E. unfold _count_valid_opponents_cached. by rewrite E. }
  intros [->|H].
  - split; apply G; unfold do_assign; cbn [_opponent_count_cache clubs log _invalidate_cache
      set_cache set_clubs]; apply invalidate_twice_lookup; [left|right]; apply own_key.
  - unfold do_backtrack in H.
    destruct (unassign _ club opponent as_home) as [h|]; [|done].
    injection H as <-.
    split; apply G; cbn [_opponent_count_cache clubs log _invalidate_cache
      set_cache set_clubs]; apply invalidate_twice_lookup; [left|right]; apply own_key.
Qed.

Lemma counts_fresh_after_change_witness :
  let s' := do_assign 1 2 true sim_inter in
  (_count_valid_opponents_cached s' 1 [0; 1; 2]).1
    = _count_valid_opponents (constraints s') (clubs s') 1 [0; 1; 2] /\
  (_count_valid_opponents_cached s' 2 [0; 1; 2]).1
    = _count_valid_opponents (constraints s') (clubs s') 2 [0; 1; 2].
Proof.
  apply (counts_fresh_after_change sim_inter (do_assign 1 2 true sim_inter) 1 2 true).
  left. reflexivity.
Defined.

(** ** The count against the candidates *)

(** X15.  Under quotas of at most four, the count of valid opponents is
    never below the number of candidates the loop finds for the club, home
    and away together; so when forward checking reads a count of zero off
    the store, the club has no candidate in either direction. *)
Theorem count_bounds_candidates (dc : DrawConstraints) (h : list Club)
    (club : nat) (all_clubs : list nat) :
  (home_matches dc <= 4)%Z -> (away_matches dc <= 4)%Z ->
  length (_get_valid_opponents dc h club all_clubs true)
  + length (_get_valid_opponents dc h club all_clubs false)
  <= _count_valid_opponents dc h club all_clubs /\
  (_count_valid_opponents dc h club all_clubs = 0 ->
   forall as_home, _get_valid_opponents dc h club all_clubs as_home = []).
Proof.
  intros Hh Ha.
  assert (G : length (_get_valid_opponents dc h club all_clubs true)
              + length (_get_valid_opponents dc h club all_clubs false)
              <= _count_valid_opponents dc h club all_clubs).
  { unfold _get_valid_opponents, _count_valid_opponents.
    assert (Gen : forall l acc,
      acc + length (List.filter (fun other =>
                 negb (ref_eq h other club || is_complete (deref h other))
                 && fst (can_pair dc h club other true)
                 && fst (can_pair dc h other club (negb true))) l)
          + length (List.filter (fun other =>
                 negb (ref_eq h other club || is_complete (deref h other))
                 && fst (can_pair dc h club other false)
                 && fst (can_pair dc h other club (negb false))) l)
      <= foldl (fun count other =>
           if ref_eq h other club || is_complete (deref h other) then count
           else
             let count1 :=
               if (needs_home (deref h club) >? 0)%Z && fst (can_pair dc h club other true)
               then S count else count in
             if (needs_away (deref h club) >? 0)%Z && fst (can_pair dc h club other false)
             then S count1 else count1) acc l).
    { induction l as [|o l IH]; intros acc; [simpl; lia|].
      cbn [foldl List.filter].
      destruct (ref_eq h o club || is_complete (deref h o)) eqn:Eskip.
      { cbn [negb andb]. apply IH. }
      cbn [negb andb].
      etransitivity; [|apply IH].
      destruct (fst (can_pair dc h club o true)) eqn:P1;
        destruct (fst (can_pair dc h club o false)) eqn:P2; cbn [andb].
      - pose proof (can_pair_true _ _ _ _ _ P1) as (_ & _ & C1 & _).
        pose proof (can_pair_true _ _ _ _ _ P2) as (_ & _ & C2 & _).
        assert ((needs_home (deref h club) >? 0)%Z = true) as ->
          by (apply Z.gtb_lt; unfold needs_home, len in *; lia).
        assert ((needs_away (deref h club) >? 0)%Z = true) as ->
          by (apply Z.gtb_lt; unfold needs_away, len in *; lia).
        cbn [andb].
        destruct (fst (can_pair dc h o club false));
          destruct (fst (can_pair dc h o club true)); simpl; lia.
      - pose proof (can_pair_true _ _ _ _ _ P1) as (_ & _ & C1 & _).
        assert ((needs_home (deref h club) >? 0)%Z = true) as ->
          by (apply Z.gtb_lt; unfold needs_home, len in *; lia).
        rewrite andb_false_r. cbn [andb].
        destruct (fst (can_pair dc h o club false)); simpl; lia.
      - pose proof (can_pair_true _ _ _ _ _ P2) as (_ & _ & C2 & _).
        assert ((needs_away (deref h club) >? 0)%Z = true) as ->
          by (apply Z.gtb_lt; unfold needs_away, len in *; lia).
        rewrite andb_false_r. cbn [andb].
        destruct (fst (can_pair dc h o club true)); simpl; lia.
      - rewrite !andb_false_r. simpl. lia. }
    exact (Gen all_clubs 0). }
  split; [done|]. intros E [|]; apply length_zero_iff_nil; lia.
Qed.

Lemma count_bounds_candidates_witness :
  let h := clubs (prepare sim_nine) in
  length (_get_valid_opponents ChampionsLeagueConstraints h 0 (seq 0 9) true)
  + length (_get_valid_opponents ChampionsLeagueConstraints h 0 (seq 0 9) false)
  <= _count_valid_opponents ChampionsLeagueConstraints h 0 (seq 0 9) /\
  (_count_valid_opponents ChampionsLeagueConstraints h 0 (seq 0 9) = 0 ->
   forall as_home, _get_valid_opponents ChampionsLeagueConstraints h 0 (seq 0 9) as_home = []).
Proof.
  apply (count_bounds_candidates ChampionsLeagueConstraints (clubs (prepare sim_nine)) 0 (seq 0 9)).
  - simpl. lia.
  - simpl. lia.
Defined.

(** ** The reverse check *)

Lemma distinct_ids_inj h a b :
  distinct_ids h -> a < length h -> b < length h -> key h a = key h b -> a = b.
Proof.
  intros Hnd Ha Hb E.
  apply (NoDup_lookup (key h <$> seq 0 (length h)) a b (key h a)); [done| |].
  - by rewrite list_lookup_fmap, lookup_seq_lt.
  - by rewrite E, list_lookup_fmap, lookup_seq_lt.
Qed.

Lemma club_eq_sym c1 c2 : club_eq c1 c2 = club_eq c2 c1.
Proof.
  unfold club_eq. apply eq_true_iff_eq.
  rewrite !andb_true_iff, !bool_decide_eq_true. intuition congruence.
Qed.

(** In a store whose lists mirror each other and whose clubs have distinct
    identities, a pair [can_pair] accepts is accepted the other way round
    with the role flipped. *)
Lemma can_pair_flip dc h a b d :
  store_ok dc h -> mirror_ok h -> distinct_ids h ->
  a < length h -> b < length h ->
  fst (can_pair dc h a b d) = true -> fst (can_pair dc h b a (negb d)) = true.
Proof.
  intros Hok M Hnd Ha Hb. unfold can_pair.
  destruct (club_eq (deref h a) (deref h b)) eqn:E1; [done|].
  case_bool_decide as E2; [done|].
  destruct (contains h (all_opponents (deref h a)) b) eqn:E3; [done|].
  destruct (count_from h (deref h a) (country (deref h b)) >=? max_same_country dc)%Z
    eqn:E4; [done|].
  destruct (count_from h (deref h b) (country (deref h a)) >=? max_same_country dc)%Z
    eqn:E5; [done|].
  intros H.
  rewrite club_eq_sym, E1.
  rewrite bool_decide_eq_false_2 by congruence.
  assert (contains h (all_opponents (deref h b)) a = false) as ->.
  { apply contains_false_key. intros Hin.
    apply list_elem_of_fmap in Hin as (x & Hk & Hx).
    destruct (Hok b Hb) as (Hlt & _). rewrite Forall_forall in Hlt.
    assert (a = x) as <- by (apply (distinct_ids_inj h); auto).
    apply contains_false_key in E3. apply E3.
    apply list_elem_of_fmap. exists b. split; [done|].
    unfold all_opponents in *. rewrite elem_of_app in *.
    destruct Hx as [Hx|Hx]; apply list_elem_of_In in Hx.
    - right. by apply list_elem_of_In, (M b a Hb Ha).
    - left. by apply list_elem_of_In, (M a b Ha Hb). }
  destruct d; cbn [negb] in *.
  - destruct (len (home_opponents (deref h a)) >=? home_matches dc)%Z; [done|].
    by destruct (len (away_opponents (deref h b)) >=? away_matches dc)%Z.
  - destruct (len (away_opponents (deref h a)) >=? away_matches dc)%Z; [done|].
    by destruct (len (home_opponents (deref h b)) >=? home_matches dc)%Z.
Qed.

(** X14.  In a store that satisfies the invariants, whose home and away
    lists mirror each other and whose clubs have pairwise distinct
    identities, the reverse check of the simulator's filter rejects
    nothing: its candidates are the incomplete clubs among those the
    constraint engine's one-directional filter returns. *)
Theorem reverse_check_redundant (dc : DrawConstraints) (h : list Club)
    (club : nat) (all_clubs : list nat) (as_home : bool) :
  store_ok dc h -> mirror_ok h -> distinct_ids h ->
  club < length h -> Forall (fun o => o < length h) all_clubs ->
  _get_valid_opponents dc h club all_clubs as_home
  = List.filter (fun o => negb (is_complete (deref h o)))
                (get_valid_opponents dc h club all_clubs as_home).
Proof.
  intros Hok M Hnd Hc Hall. unfold _get_valid_opponents, get_valid_opponents.
  induction Hall as [|o l Ho Hl IH]; [done|].
  cbn [List.filter]. rewrite IH.
  destruct (fst (can_pair dc h club o as_home)) eqn:P.
  - rewrite (can_pair_flip dc h club o as_home Hok M Hnd Hc Ho P).
    pose proof (can_pair_true _ _ _ _ _ P) as (K & _).
    assert (ref_eq h o club = false) as -> by (apply ref_eq_false_key; congruence).
    cbn [orb List.filter]. rewrite !andb_true_r. done.
  - by rewrite andb_false_r.
Qed.

Lemma reverse_check_redundant_witness :
  let h := assign (map reset (map club_of_data nine_clubs)) 0 5 true in
  _get_valid_opponents ChampionsLeagueConstraints h 0 (seq 0 9) true
  = List.filter (fun o => negb (is_complete (deref h o)))
                (get_valid_opponents ChampionsLeagueConstraints h 0 (seq 0 9) true).
Proof.
  apply (reverse_check_redundant ChampionsLeagueConstraints
           (assign (map reset (map club_of_data nine_clubs)) 0 5 true) 0 (seq 0 9) true).
  - apply assign_ok; [simpl; lia | simpl; lia | split; vm_compute; reflexivity |].
    apply reset_store_ok; simpl; lia.
  - apply assign_mirror; [lia | simpl; lia | simpl; lia |].
    apply (reset_properties ChampionsLeagueConstraints []). simpl. lia.
  - apply (bool_decide_unpack _). vm_compute. reflexivity.
  - simpl. lia.
  - apply Forall_forall. intros o Ho. apply elem_of_seq in Ho. simpl. lia.
Defined.

(** ** Success and the backtrack budget *)

Section Budget.

Context {RNG : Type}.
Variable shuffle : RNG -> list nat -> list nat * RNG.
Variable counter : Simulator RNG -> nat -> list nat -> nat * Simulator RNG.

Lemma try_candidates_budget (rec : Simulator RNG -> result (bool * Simulator RNG))
    club as_home :
  (forall s s', rec s = Ret (true, s') -> within_budget s') ->
  forall candidates s s',
    try_candidates rec club as_home candidates s = Ret (true, s') -> within_budget s'.
Proof.
  intros Hrec. induction candidates as [|o rest IH]; intros s s' H; [done|].
  cbn [try_candidates] in H.
  destruct (rec (do_assign club o as_home s)) as [[[|] s1]| |] eqn:E; try done.
  - assert (s1 = s') as <- by congruence. exact (Hrec _ _ E).
  - destruct (do_backtrack club o as_home s1) as [s2| |]; try done. exact (IH _ _ H).
Qed.

Lemma try_directions_budget (rec : Simulator RNG -> result (bool * Simulator RNG))
    all_clubs club :
  (forall s s', rec s = Ret (true, s') -> within_budget s') ->
  forall directions s s',
    try_directions shuffle rec all_clubs club directions s = Ret (true, s') ->
    within_budget s'.
Proof.
  intros Hrec. induction directions as [|d rest IH]; intros s s' H; [done|].
  cbn [try_directions] in H.
  destruct (_get_valid_opponents_sorted shuffle s club all_clubs d) as [cands s1].
  destruct (try_candidates rec club d cands s1) as [[[|] s2]| |] eqn:E; try done.
  - assert (s2 = s') as <- by congruence. exact (try_candidates_budget rec club d Hrec cands s1 s2 E).
  - exact (IH _ _ H).
Qed.

(** The search returns True only from a call that found the counter
    within the budget, and hands that state up unchanged. *)
Lemma assign_opponents_budget fuel all_clubs :
  forall s s', assign_opponents shuffle counter fuel all_clubs s = Ret (true, s') ->
    within_budget s'.
Proof.
  induction fuel as [|fuel IH]; intros s s' H; [done|].
  cbn [assign_opponents] in H.
  destruct (Z.of_nat (backtrack_count s) >? max_backtrack s)%Z eqn:Eb; [done|].
  destruct (List.filter _ all_clubs) as [|c inc] eqn:Ei.
  { assert (s = s') as <- by congruence. unfold within_budget.
    rewrite Z.gtb_ltb in Eb. by apply Z.ltb_ge in Eb. }
  destruct (forward_check counter all_clubs (c :: inc) s) as [ok s1].
  destruct ok; cbn [negb] in H; [|done].
  destruct (min_by_count counter all_clubs (c :: inc) s1) as [[club s2]| |]; try done.
  destruct (negb _ && negb _).
  - exact (IH _ _ H).
  - eapply try_directions_budget; [|exact H]. intros ? ?. apply IH.
Qed.

End Budget.

(** X16.  A valid result never reports more backtracks than
    [max_backtrack]: once the counter has passed the limit, the draw is
    reported as failed. *)
Theorem valid_draw_within_budget {RNG} (shuffle : RNG -> list nat -> list nat * RNG)
    (s : Simulator RNG) (fuel : nat) (r : DrawResult) :
  ready shuffle s fuel ->
  drawn (draw shuffle fuel s) = Some r -> is_valid r = true ->
  (Z.of_nat (r_backtrack_count r) <= max_backtrack s)%Z.
Proof.
  intros (Hp & [Hh0 Hh] & [Ha0 Ha] & Hm & Hf) Hd Hv.
  unfold draw in Hd. rewrite draw_with_unfold in Hd.
  unfold draw_with_backtracking in Hd.
  pose proof (shuffle_pots_perm shuffle Hp
                (clubs (prepare s)) [1; 2; 3; 4]%Z (rng (prepare s))) as Hperm.
  destruct (shuffle_pots shuffle _ _ _) as [shuffled g]. cbn [fst] in Hperm.
  fold (active (clubs (prepare s))) in Hperm.
  destruct (prepare_clubs s) as [h0 Eh0].
  assert (Hok : store_ok (constraints s) (clubs (prepare s))).
  { rewrite Eh0. by apply reset_store_ok. }
  assert (Htot : total (clubs (prepare s)) = 0).
  { rewrite Eh0. apply total_reset. }
  destruct (assign_opponents_post shuffle Hp _ cached_frame
              (constraints s) Hh Ha (length (clubs (prepare s))) shuffled)
    with (fuel := fuel) (s := set_rng g (prepare s))
    as (b & s' & Hr & (evs & _ & _ & _ & _ & _ & M1 & _) & _).
  { rewrite Hperm. apply active_lt. }
  { split; [done|]. split; [|done]. apply prepare_constraints. }
  { change (clubs (set_rng g (prepare s))) with (clubs (prepare s)).
    rewrite Htot. lia. }
  rewrite Hr in Hd. cbn [drawn] in Hd. injection Hd as <-.
  cbn [is_valid r_backtrack_count] in *. subst b.
  apply assign_opponents_budget in Hr. unfold within_budget in Hr.
  rewrite M1 in Hr.
  change (max_backtrack (set_rng g (prepare s))) with (max_backtrack (prepare s)) in Hr.
  by rewrite prepare_max_backtrack in Hr.
Qed.

Lemma valid_draw_within_budget_witness :
  (Z.of_nat (r_backtrack_count (result_of (draw PyRandom.shuffle 50 sim_nine)))
   <= max_backtrack sim_nine)%Z.
Proof.
  apply (valid_draw_within_budget PyRandom.shuffle sim_nine 50).
  - python_ready.
  - vm_compute. reflexivity.
  - vm_compute. reflexivity.
Defined.

(** ** No second meeting *)

Lemma can_pair_already dc h a b d :
  key h a <> key h b -> country (deref h a) <> country (deref h b) ->
  In b (all_opponents (deref h a)) ->
  can_pair dc h a b d = (false, Some AlreadyOpponents).
Proof.
  intros K C Hin. unfold can_pair.
  assert (club_eq (deref h a) (deref h b) = false) as -> by (by apply ref_eq_false_key).
  rewrite bool_decide_eq_false_2 by done.
  assert (contains h (all_opponents (deref h a)) b = true) as ->; [|done].
  apply contains_key, list_elem_of_fmap. exists b. split; [done|].
  by apply list_elem_of_In.
Qed.

(** X17.  Once a pair that [can_pair] accepts has been assigned,
    [can_pair] rejects it with "Already opponents", whichever of the two is
    asked first and whichever of them would play at home. *)
Theorem assigned_pair_rejected (dc : DrawConstraints) (h : list Club)
    (club opponent : nat) (as_home d : bool) :
  club < length h -> opponent < length h ->
  fst (can_pair dc h club opponent as_home) = true ->
  can_pair dc (assign h club opponent as_home) club opponent d
    = (false, Some AlreadyOpponents) /\
  can_pair dc (assign h club opponent as_home) opponent club d
    = (false, Some AlreadyOpponents).
Proof.
  intros Hc Ho P.
  pose proof (can_pair_true _ _ _ _ _ P) as (K & _).
  pose proof (can_pair_true_countries _ _ _ _ _ P) as (C & _).
  pose proof (key_neq_ref _ _ _ K) as Hne.
  pose proof (assign_ids h club opponent as_home) as Hids.
  set (h' := assign h club opponent as_home) in *.
  assert (K' : key h' club <> key h' opponent).
  { by rewrite <- !(same_ids_key h h' _ Hids). }
  assert (C' : country (deref h' club) <> country (deref h' opponent)).
  { pose proof (deref_ident h h' club Hids) as E1.
    pose proof (deref_ident h h' opponent Hids) as E2.
    unfold ident in E1, E2. congruence. }
  split; apply can_pair_already; try done; try congruence.
  - apply list_elem_of_In. subst h'. rewrite all_opponents_assign by done.
    rewrite decide_True by done. apply elem_of_app. left. by apply list_elem_of_singleton.
  - apply list_elem_of_In. subst h'. rewrite all_opponents_assign by done.
    rewrite decide_False by congruence. rewrite decide_True by done.
    apply elem_of_app. left. by apply list_elem_of_singleton.
Qed.

Lemma assigned_pair_rejected_witness :
  let h := map club_of_data four_clubs in
  can_pair ChampionsLeagueConstraints (assign h 0 2 true) 0 2 false
    = (false, Some AlreadyOpponents) /\
  can_pair ChampionsLeagueConstraints (assign h 0 2 true) 2 0 false
    = (false, Some AlreadyOpponents).
Proof.
  apply (assigned_pair_rejected ChampionsLeagueConstraints
           (map club_of_data four_clubs) 0 2 true false).
  - simpl. lia.
  - simpl. lia.
  - vm_compute. reflexivity.
Defined.

(** ** [DrawState]: save and restore *)

Lemma by_name_fold_lookup h (f : Club -> list nat) clubs (m : gmap string (list nat)) k :
  k ∉ (fun c => name (deref h c)) <$> clubs ->
  foldl (fun m c => <[name (deref h c) := f (deref h c)]> m) m clubs !! k = m !! k.
Proof.
  revert m. induction clubs as [|c l IH]; intros m Hk; [done|].
  rewrite fmap_cons, not_elem_of_cons in Hk. destruct Hk as [Hne Hk].
  cbn [foldl]. rewrite IH by done. by rewrite lookup_insert_ne.
Qed.

Lemma by_name_lookup h (f : Club -> list nat) clubs c :
  NoDup ((fun c => name (deref h c)) <$> clubs) -> c ∈ clubs ->
  by_name h f clubs !! name (deref h c) = Some (f (deref h c)).
Proof.
  unfold by_name. generalize (∅ : gmap string (list nat)).
  induction clubs as [|x l IH]; intros m Hnd Hc; [by apply elem_of_nil in Hc|].
  rewrite fmap_cons in Hnd. apply NoDup_cons in Hnd as [Hx Hnd].
  cbn [foldl]. destruct (decide (c = x)) as [->|Hne].
  - rewrite by_name_fold_lookup by done. by rewrite lookup_insert_eq.
  - apply elem_of_cons in Hc as [?|Hc]; [done|]. by apply IH.
Qed.

Lemma alter_self (f : Club -> Club) (h : list Club) i :
  f (deref h i) = deref h i -> alter f i h = h.
Proof.
  intros Hf. apply list_eq. intros j. rewrite list_lookup_alter.
  case_decide as E; [subst j|done].
  destruct (h !! i) as [c|] eqn:Hi; [|done]. simpl. f_equal.
  unfold deref in Hf. by rewrite (list_lookup_total_correct _ _ _ Hi) in Hf.
Qed.

Lemma restore_clubs_names state h clubs h' :
  restore_clubs state h clubs = Some h' -> same_ids h h'.
Proof.
  revert h. induction clubs as [|c l IH]; intros h H; cbn [restore_clubs] in H.
  - injection H as <-. apply same_ids_refl.
  - destruct (sv_home_opponents state !! _) as [l1|]; [|done].
    destruct (sv_away_opponents state !! _) as [l2|]; [|done].
    apply IH in H. eapply same_ids_trans; [|exact H].
    eapply same_ids_trans; by apply same_ids_alter.
Qed.

(** X18.  Restoring a [DrawState] from what [save] has just returned
    changes nothing, neither in the state nor in the opponent lists of any
    club, provided the clubs of the state have pairwise distinct names (the
    saved dicts are keyed by name alone). *)
Theorem restore_save_roundtrip (h : list Club) (st : DrawState) :
  NoDup ((fun c => name (deref h c)) <$> ds_clubs st) ->
  restore h st (save h st) = Some (h, st).
Proof.
  intros Hnd. unfold restore.
  assert (G : forall l, (forall c, c ∈ l -> c ∈ ds_clubs st) ->
            restore_clubs (save h st) h l = Some h).
  { induction l as [|c l IH]; intros Hsub; [done|].
    cbn [restore_clubs save sv_home_opponents sv_away_opponents].
    rewrite (by_name_lookup h home_opponents) by (try done; apply Hsub; by left).
    rewrite (alter_self _ h c) by (by destruct (deref h c)).
    rewrite (by_name_lookup h away_opponents) by (try done; apply Hsub; by left).
    rewrite (alter_self _ h c) by (by destruct (deref h c)).
    apply IH. intros x Hx. apply Hsub. by right. }
  cbn [ds_clubs]. rewrite G by done. by destruct st.
Qed.

Lemma restore_save_roundtrip_witness :
  let h := r_clubs (result_of (draw PyRandom.shuffle 50 sim_nine)) in
  let st := mkDrawState (seq 0 9) [(0, 7, true)] 3 in
  restore h st (save h st) = Some (h, st).
Proof.
  apply (restore_save_roundtrip
           (r_clubs (result_of (draw PyRandom.shuffle 50 sim_nine)))
           (mkDrawState (seq 0 9) [(0, 7, true)] 3)).
  apply (bool_decide_unpack _). vm_compute. reflexivity.
Defined.

(** X19.  From a saved state that holds the four keys [save] writes,
    [restore] raises KeyError exactly when the name of one of the clubs of
    the state is missing from the saved home dict or from the saved away
    dict. *)
Theorem restore_raises_iff_name_missing (h : list Club) (st : DrawState)
    (state : SavedState) :
  restore h st state = None <->
  exists c, In c (ds_clubs st) /\
    (sv_home_opponents state !! name (deref h c) = None \/
     sv_away_opponents state !! name (deref h c) = None).
Proof.
  unfold restore. cbn [ds_clubs].
  assert (G : forall l h1, same_ids h h1 ->
            (restore_clubs state h1 l = None <->
             exists c, In c l /\
               (sv_home_opponents state !! name (deref h c) = None \/
                sv_away_opponents state !! name (deref h c) = None))).
  { induction l as [|c l IH]; intros h1 Hids; cbn [restore_clubs].
    - split; [done|]. by intros (c & [] & _).
    - assert (N1 : name (deref h1 c) = name (deref h c)).
      { pose proof (deref_ident h h1 c Hids) as E. unfold ident in E. congruence. }
      rewrite N1.
      destruct (sv_home_opponents state !! name (deref h c)) as [l1|] eqn:E1.
      2:{ split; [|done]. intros _. exists c. split; [by left|by left]. }
      assert (Hids1 : same_ids h (alter (set_home l1) c h1)).
      { eapply same_ids_trans; [exact Hids|]. by apply same_ids_alter. }
      assert (N2 : name (deref (alter (set_home l1) c h1) c) = name (deref h c)).
      { pose proof (deref_ident _ _ c Hids1) as E. unfold ident in E. congruence. }
      rewrite N2.
      destruct (sv_away_opponents state !! name (deref h c)) as [l2|] eqn:E2.
      2:{ split; [|done]. intros _. exists c. split; [by left|by right]. }
      rewrite IH.
      2:{ eapply same_ids_trans; [exact Hids1|]. by apply same_ids_alter. }
      split.
      + intros (x & Hx & Hm). exists x. split; [by right|done].
      + intros (x & [->|Hx] & Hm); [|by exists x].
        destruct Hm; congruence. }
  specialize (G (ds_clubs st) h (same_ids_refl h)).
  destruct (restore_clubs state h (ds_clubs st)); [|by rewrite <- G].
  split; [done|]. intros Hex. apply G in Hex. done.
Qed.

(** ** [can_face] against [can_pair] *)

(** X20.  Between clubs of different names, every pair the constraint
    engine's [can_pair] accepts is a pair [Club.can_face] accepts under the
    same country limit, in both directions; [can_face] compares names
    alone, so it turns down two clubs that share a name even when their
    countries differ. *)
Theorem can_pair_implies_can_face (dc : DrawConstraints) (h : list Club)
    (club1 club2 : nat) (as_home : bool) :
  fst (can_pair dc h club1 club2 as_home) = true ->
  fst (can_pair dc h club2 club1 (negb as_home)) = true ->
  name (deref h club1) <> name (deref h club2) ->
  can_face h club1 club2 (max_same_country dc) = true /\
  can_face h club2 club1 (max_same_country dc) = true.
Proof.
  assert (G : forall a b d, fst (can_pair dc h a b d) = true ->
            name (deref h a) <> name (deref h b) ->
            can_face h a b (max_same_country dc) = true).
  { intros a b d P Hn.
    pose proof (can_pair_true _ _ _ _ _ P) as (_ & Hnot & _).
    pose proof (can_pair_true_countries _ _ _ _ _ P) as (C & L & _).
    unfold can_face. rewrite !bool_decide_eq_false_2 by done.
    apply contains_false_key in Hnot. rewrite Hnot.
    cbv zeta. destruct (Z.geb_spec
      (count_from h (deref h a) (country (deref h b))) (max_same_country dc)); [lia|done]. }
  intros P1 P2 Hn. split; [by eapply G|]. eapply G; [exact P2|congruence].
Qed.

Lemma can_pair_implies_can_face_witness :
  let h := map club_of_data four_clubs in
  can_face h 0 2 (max_same_country ChampionsLeagueConstraints) = true /\
  can_face h 2 0 (max_same_country ChampionsLeagueConstraints) = true.
Proof.
  apply (can_pair_implies_can_face ChampionsLeagueConstraints
           (map club_of_data four_clubs) 0 2 true).
  - vm_compute. reflexivity.
  - vm_compute. reflexivity.
  - vm_compute. discriminate.
Defined.

(** ** [get_club_fixtures] against the fixture list *)

Lemma club_fixtures_loop_found h cs i c :
  NoDup (name <$> cs) -> cs !! i = Some c ->
  club_fixtures_loop h cs (name c)
  = ((fun o => name (deref h o)) <$> home_opponents c,
     (fun o => name (deref h o)) <$> away_opponents c).
Proof.
  revert i. induction cs as [|x cs IH]; intros i Hnd Hi; [done|].
  rewrite fmap_cons in Hnd. apply NoDup_cons in Hnd as [Hx Hnd].
  cbn [club_fixtures_loop]. destruct i as [|i]; simpl in Hi.
  - injection Hi as ->. by rewrite bool_decide_eq_true_2.
  - rewrite bool_decide_eq_false_2; [by eapply IH|].
    intros E. apply Hx. rewrite E. apply list_elem_of_fmap. exists c.
    split; [done|]. by eapply list_elem_of_lookup_2.
Qed.

Lemma club_fixtures_loop_missing h cs club_name :
  club_name ∉ name <$> cs -> club_fixtures_loop h cs club_name = ([], []).
Proof.
  induction cs as [|x cs IH]; intros Hn; [done|].
  rewrite fmap_cons, not_elem_of_cons in Hn. destruct Hn as [Hne Hn].
  cbn [club_fixtures_loop]. rewrite bool_decide_eq_false_2 by congruence. by apply IH.
Qed.

Lemma filter_home_entries (g : nat -> list nat) l c :
  NoDup l -> c ∈ l ->
  filter (fun f => home f = c) (flat_map (fun a => mkFixture a <$> g a) l)
  = mkFixture c <$> g c.
Proof.
  assert (One : forall a, filter (fun f => home f = c) (mkFixture a <$> g a)
                          = if decide (a = c) then mkFixture a <$> g a else []).
  { intros a. induction (g a) as [|o os IH]; [by case_decide|].
    rewrite fmap_cons, filter_cons, IH. simpl. by repeat case_decide. }
  assert (Out : forall l', c ∉ l' ->
            filter (fun f => home f = c) (flat_map (fun a => mkFixture a <$> g a) l') = []).
  { induction l' as [|a l' IH]; intros Hc; [done|].
    apply not_elem_of_cons in Hc as [Hne Hc].
    cbn [flat_map]. rewrite filter_app, One, decide_False by congruence.
    by rewrite IH. }
  induction 1 as [|a l' Ha Hnd IH]; intros Hc; [by apply elem_of_nil in Hc|].
  cbn [flat_map]. rewrite filter_app, One.
  case_decide as E.
  - subst a. rewrite Out by done. by rewrite app_nil_r.
  - apply elem_of_cons in Hc as [?|Hc]; [congruence|]. by rewrite IH.
Qed.

(** X21.  In a valid result of clubs with pairwise distinct names,
    [get_club_fixtures] and the fixture list tell the same: asked for a
    club, the "home" names are the away sides of the fixtures the club
    hosts, in the order of the fixture list, and the "away" names are the
    home sides of the fixtures the club visits, up to order; a name no
    club has gives two empty lists. *)
Theorem club_fixtures_agree {RNG} (shuffle : RNG -> list nat -> list nat * RNG)
    (s : Simulator RNG) (fuel : nat) (r : DrawResult) (c : nat) :
  ready shuffle s fuel ->
  drawn (draw shuffle fuel s) = Some r -> is_valid r = true ->
  NoDup (name <$> clubs (prepare s)) ->
  c < length (r_clubs r) ->
  (get_club_fixtures r (name (deref (r_clubs r) c))).1
    = (fun f => name (deref (r_clubs r) (away f)))
        <$> filter (fun f => home f = c) (fixtures r) /\
  (get_club_fixtures r (name (deref (r_clubs r) c))).2
    ≡ₚ (fun f => name (deref (r_clubs r) (home f)))
        <$> filter (fun f => away f = c) (fixtures r) /\
  forall club_name, club_name ∉ name <$> r_clubs r ->
    get_club_fixtures r club_name = ([], []).
Proof.
  intros Hr Hd Hv Hn Hc.
  destruct (drawn_facts shuffle s fuel r Hr Hd)
    as (Hids & Hok & M & _ & _ & _ & Hfx & _).
  rewrite (same_ids_names _ _ Hids) in Hn. rewrite Hv in Hfx.
  rewrite (generate_fixtures_exact (r_clubs r)) in Hfx
    by (by apply (home_entries_keys (constraints s))).
  set (h := r_clubs r) in *.
  assert (Hget : get_club_fixtures r (name (deref h c))
                 = ((fun o => name (deref h o)) <$> home_opponents (deref h c),
                    (fun o => name (deref h o)) <$> away_opponents (deref h c))).
  { unfold get_club_fixtures. fold h.
    apply (club_fixtures_loop_found h h c); [done|].
    unfold deref. by apply list_lookup_lookup_total_lt. }
  rewrite Hget, Hfx. cbn [fst snd]. split_and!.
  - unfold home_entries. rewrite filter_home_entries.
    + rewrite <- list_fmap_compose. by apply list_fmap_ext.
    + apply NoDup_seq.
    + apply elem_of_seq. lia.
  - destruct (opponents_NoDup _ _ c Hok Hc) as [_ N2].
    assert (P : filter (fun f => away f = c) (home_entries h)
                ≡ₚ (fun a => mkFixture a c) <$> away_opponents (deref h c)).
    { apply NoDup_Permutation.
      - apply NoDup_filter. by apply (home_entries_NoDup (constraints s)).
      - apply NoDup_fmap_2; [|done]. intros x y E. by injection E.
      - intros f. rewrite list_elem_of_filter, home_entries_in, list_elem_of_fmap. split.
        + intros (<- & Hh & Ha). exists (home f). split; [by destruct f|].
          apply list_elem_of_In, (M (home f) (away f) Hh Hc), list_elem_of_In, Ha.
        + intros (a & -> & Ha). simpl.
          assert (Hlt : a < length h).
          { destruct (Hok c Hc) as (Hlt & _). rewrite Forall_forall in Hlt.
            apply Hlt. unfold all_opponents. rewrite elem_of_app. by right. }
          split_and!; try done.
          apply list_elem_of_In, (M a c Hlt Hc), list_elem_of_In, Ha. }
    rewrite P, <- list_fmap_compose. done.
  - intros club_name Hmiss. by apply club_fixtures_loop_missing.
Qed.

Lemma club_fixtures_agree_witness :
  let r := result_of (draw PyRandom.shuffle 50 sim_nine) in
  (get_club_fixtures r (name (deref (r_clubs r) 0))).1
    = (fun f => name (deref (r_clubs r) (away f)))
        <$> filter (fun f => home f = 0) (fixtures r) /\
  (get_club_fixtures r (name (deref (r_clubs r) 0))).2
    ≡ₚ (fun f => name (deref (r_clubs r) (home f)))
        <$> filter (fun f => away f = 0) (fixtures r) /\
  forall club_name, club_name ∉ name <$> r_clubs r ->
    get_club_fixtures r club_name = ([], []).
Proof.
  apply (club_fixtures_agree PyRandom.shuffle sim_nine 50).
  - python_ready.
  - vm_compute. reflexivity.
  - vm_compute. reflexivity.
  - apply (bool_decide_unpack _). vm_compute. reflexivity.
  - vm_compute. lia.
Defined.

(** ** Malformed input *)

(** *** A complete club has eight rivals, of enough countries *)

Lemma count_in_filter_le h (P : nat -> Prop) `{!forall x, Decision (P x)} l k :
  count_in h (filter P l) k <= count_in h l k.
Proof.
  induction l as [|x l IH]; [done|].
  rewrite filter_cons. case_decide; rewrite !count_in_cons; [lia|].
  case_decide; lia.
Qed.

Lemma countries_of_cons h x l :
  countries_of h (x :: l) = {[country (deref h x)]} ∪ countries_of h l.
Proof. done. Qed.

Lemma elem_of_countries_of h l k :
  k ∈ countries_of h l <-> exists o, o ∈ l /\ country (deref h o) = k.
Proof.
  unfold countries_of. rewrite elem_of_list_to_set, list_elem_of_fmap.
  split; intros (o & ? & ?); exists o; done.
Qed.

(** A list that holds at most [M] clubs of each country is no longer than
    [M] times the number of its countries. *)
Lemma length_by_countries h (M : Z) :
  (0 <= M)%Z ->
  forall n l, length l <= n ->
    (forall k, (Z.of_nat (count_in h l k) <= M)%Z) ->
    (Z.of_nat (length l) <= Z.of_nat (size (countries_of h l)) * M)%Z.
Proof.
  intros HM. induction n as [|n IH]; intros l Hn Hc.
  { destruct l; simpl in *; lia. }
  destruct l as [|x l0]; [simpl; lia|].
  set (l := x :: l0) in *. set (k := country (deref h x)).
  set (l2 := filter (fun o => country (deref h o) <> k) l).
  assert (Hsplit : length l = count_in h l k + length l2).
  { unfold count_in, l2. rewrite <- length_app.
    apply Permutation_length. symmetry. apply filter_app_complement. }
  assert (Hx : x ∈ l) by (by left).
  assert (Hlt : length l2 < length l).
  { apply (length_filter_lt _ l x); [done|]. intros H. by apply H. }
  assert (IH2 : (Z.of_nat (length l2) <= Z.of_nat (size (countries_of h l2)) * M)%Z).
  { apply IH; [simpl in *; lia|]. intros k'.
    pose proof (count_in_filter_le h (fun o => country (deref h o) <> k) l k').
    specialize (Hc k'). fold l2 in H. lia. }
  assert (Hsize : S (size (countries_of h l2)) <= size (countries_of h l)).
  { assert (Hsub : {[k]} ∪ countries_of h l2 ⊆ countries_of h l).
    { intros k'. rewrite elem_of_union, elem_of_singleton, !elem_of_countries_of.
      intros [->|(o & Ho & <-)]; [by exists x|].
      exists o. split; [|done]. unfold l2 in Ho.
      by apply list_elem_of_filter in Ho as [_ ?]. }
    apply subseteq_size in Hsub. rewrite size_union in Hsub.
    - rewrite size_singleton in Hsub. lia.
    - intros k'. rewrite elem_of_singleton, elem_of_countries_of.
      intros -> (o & Ho & E). unfold l2 in Ho.
      apply list_elem_of_filter in Ho as [Hne _]. done. }
  specialize (Hc k). nia.
Qed.

Lemma active_same_ids h h' : same_ids h h' -> active h = active h'.
Proof.
  intros Hids. unfold active, pot_clubs. rewrite (same_ids_length _ _ Hids).
  f_equal. apply map_ext. intros p. apply List.filter_ext. intros c.
  by rewrite (same_ids_pot h h' c Hids).
Qed.

Lemma rivals_same_ids h h' c : same_ids h h' -> rivals h c = rivals h' c.
Proof.
  intros Hids. unfold rivals. rewrite (active_same_ids _ _ Hids).
  apply list_filter_iff. intros o.
  pose proof (deref_ident h h' o Hids) as E1.
  pose proof (deref_ident h h' c Hids) as E2.
  unfold ident in E1, E2. split; intros H; congruence.
Qed.

Lemma countries_of_same_ids h h' l : same_ids h h' -> countries_of h l = countries_of h' l.
Proof.
  intros Hids. unfold countries_of. f_equal. apply list_fmap_ext. intros _ o _.
  pose proof (deref_ident h h' o Hids) as E. unfold ident in E. congruence.
Qed.

(** In a store the search has left, the opponents of a club are rivals of
    it, each once. *)
Lemma opponents_are_rivals dc h c :
  store_ok dc h -> mirror_ok h -> foreign_ok h -> idle_ok (active h) h ->
  c < length h ->
  NoDup (all_opponents (deref h c)) /\
  forall o, o ∈ all_opponents (deref h c) -> o ∈ rivals h c.
Proof.
  intros Hok M F I Hc. destruct (Hok c Hc) as (Hlt & _ & Hnd & _).
  split; [by apply NoDup_fmap_1 in Hnd|].
  intros o Ho. rewrite Forall_forall in Hlt. pose proof (Hlt o Ho) as Holt.
  unfold rivals. apply list_elem_of_filter. split.
  - apply F; [done|]. by apply list_elem_of_In.
  - apply list_elem_of_In.
    destruct (in_dec Nat.eq_dec o (active h)) as [|Hout]; [done|exfalso].
    pose proof (I o Holt Hout) as E. unfold all_opponents in E, Ho.
    apply app_eq_nil in E as [E1 E2].
    apply elem_of_app in Ho as [Ho|Ho]; apply list_elem_of_In in Ho.
    + apply (M c o Hc Holt) in Ho. by rewrite E2 in Ho.
    + apply (M o c Holt Hc) in Ho. by rewrite E1 in Ho.
Qed.

Lemma complete_needs_rivals dc h c :
  (0 <= max_same_country dc)%Z ->
  store_ok dc h -> mirror_ok h -> foreign_ok h -> limit_ok dc h ->
  idle_ok (active h) h -> c < length h ->
  is_complete (deref h c) = true ->
  8 <= length (rivals h c) /\
  (8 <= Z.of_nat (rival_countries h c) * max_same_country dc)%Z.
Proof.
  intros HM Hok M F L I Hc Hcomp.
  destruct (opponents_are_rivals dc h c Hok M F I Hc) as [Hnd Hsub].
  assert (H8 : length (all_opponents (deref h c)) = 8).
  { unfold is_complete in Hcomp. apply andb_true_iff in Hcomp as [H1 H2].
    apply Nat.eqb_eq in H1, H2. unfold all_opponents. rewrite length_app. lia. }
  split.
  - rewrite <- H8. apply submseteq_length. by apply NoDup_submseteq.
  - pose proof (length_by_countries h (max_same_country dc) HM _
                  (all_opponents (deref h c)) (le_n _) (fun k => L c k Hc)) as Hlen.
    rewrite H8 in Hlen.
    assert (Hs : size (countries_of h (all_opponents (deref h c)))
                 <= rival_countries h c).
    { apply subseteq_size. intros k. rewrite !elem_of_countries_of.
      intros (o & Ho & E). exists o. split; [by apply Hsub|done]. }
    nia.
Qed.
(** *** The first call of the search spends budget *)

Lemma reset_lists h a :
  home_opponents (deref (map reset h) a) = [] /\
  away_opponents (deref (map reset h) a) = [].
Proof.
  unfold deref. rewrite list_lookup_total_alt.
  change (map reset h) with (reset <$> h). rewrite list_lookup_fmap.
  by destruct (h !! a).
Qed.

(** On reset clubs [can_pair] asks for different countries only, once the
    quotas and the country limit allow one match. *)
Lemma can_pair_reset dc h a b d :
  (1 <= home_matches dc)%Z -> (1 <= away_matches dc)%Z ->
  (1 <= max_same_country dc)%Z ->
  country (deref (map reset h) a) <> country (deref (map reset h) b) ->
  fst (can_pair dc (map reset h) a b d) = true.
Proof.
  intros Hh Ha Hm Hc. unfold can_pair.
  assert (club_eq (deref (map reset h) a) (deref (map reset h) b) = false) as ->.
  { unfold club_eq. rewrite (bool_decide_eq_false_2 (country _ = country _)) by done.
    apply andb_false_r. }
  rewrite bool_decide_eq_false_2 by done.
  rewrite !count_from_spec. unfold all_opponents, len.
  destruct (reset_lists h a) as [-> ->], (reset_lists h b) as [-> ->].
  cbn [app contains existsb count_in filter length].
  destruct (Z.geb_spec (Z.of_nat (count_in (map reset h) [] (country (deref (map reset h) b))))
              (max_same_country dc)) as [G|_]; [unfold count_in in G; simpl in G; lia|].
  destruct (Z.geb_spec (Z.of_nat (count_in (map reset h) [] (country (deref (map reset h) a))))
              (max_same_country dc)) as [G|_]; [unfold count_in in G; simpl in G; lia|].
  destruct d.
  - destruct (Z.geb_spec (Z.of_nat 0) (home_matches dc)); [lia|].
    destruct (Z.geb_spec (Z.of_nat 0) (away_matches dc)); [lia|done].
  - destruct (Z.geb_spec (Z.of_nat 0) (away_matches dc)); [lia|].
    destruct (Z.geb_spec (Z.of_nat 0) (home_matches dc)); [lia|done].
Qed.

(** A club that may still play at home against some club of the list has
    a positive count. *)
Lemma count_positive dc h club all_clubs o :
  In o all_clubs -> ref_eq h o club = false -> is_complete (deref h o) = false ->
  (needs_home (deref h club) >? 0)%Z = true ->
  fst (can_pair dc h club o true) = true ->
  0 < _count_valid_opponents dc h club all_clubs.
Proof.
  intros Hin Hne Hinc Hn Hp. unfold _count_valid_opponents.
  set (f := fun (count other : nat) => _).
  assert (Mono : forall l acc, acc <= foldl f acc l).
  { induction l as [|x l IH]; intros acc; [done|]. cbn [foldl].
    etransitivity; [|apply IH]. unfold f.
    destruct (_ || _); [done|]. cbv zeta.
    destruct (_ && _); destruct (_ && _); lia. }
  assert (Gen : forall l acc, In o l -> acc < foldl f acc l).
  { induction l as [|x l IH]; intros acc Ho; [done|]. cbn [foldl].
    destruct Ho as [->|Ho]; [|eapply Nat.le_lt_trans; [|by apply IH]].
    - eapply Nat.lt_le_trans; [|apply Mono]. unfold f.
      rewrite Hne, Hinc, Hn, Hp. cbn [orb andb]. cbv zeta.
      destruct (_ && _); lia.
    - unfold f. destruct (_ || _); [done|]. cbv zeta.
      destruct (_ && _); destruct (_ && _); lia. }
  by apply Gen.
Qed.

Section FirstCall.

Context {RNG : Type}.
Variable shuffle : RNG -> list nat -> list nat * RNG.
Hypothesis shuffle_perm : forall g l, (shuffle g l).1 ≡ₚ l.

#[local] Abbreviation cached := (@_count_valid_opponents_cached RNG).

(** Forward checking passes when every club it asks about has a positive
    count and the cache holds positive counts only. *)
Lemma forward_check_passes all_clubs incomplete :
  forall s : Simulator RNG,
    (forall c, In c incomplete ->
       0 < _count_valid_opponents (constraints s) (clubs s) c all_clubs) ->
    (forall k v, _opponent_count_cache s !! k = Some v -> 0 < v) ->
    (forward_check cached all_clubs incomplete s).1 = true.
Proof.
  induction incomplete as [|c l IH]; intros s Hpos Hcache; [done|].
  cbn [forward_check]. unfold _count_valid_opponents_cached.
  destruct (_opponent_count_cache s !! cache_key (deref (clubs s) c)) as [v|] eqn:E.
  - pose proof (Hcache _ _ E) as Hv.
    destruct (v =? 0) eqn:Ev; [apply Nat.eqb_eq in Ev; lia|].
    apply IH; [|done]. intros x Hx. apply Hpos. by right.
  - pose proof (Hpos c (or_introl eq_refl)) as Hv.
    destruct (_count_valid_opponents (constraints s) (clubs s) c all_clubs =? 0) eqn:Ev;
      [apply Nat.eqb_eq in Ev; lia|].
    apply IH.
    + intros x Hx. cbn [constraints clubs set_cache]. apply Hpos. by right.
    + intros k v. cbn [_opponent_count_cache set_cache].
      destruct (decide (k = cache_key (deref (clubs s) c))) as [->|Hne].
      * rewrite lookup_insert_eq. intros [= <-]. done.
      * rewrite lookup_insert_ne by done. apply Hcache.
Qed.

(** The counter of backtracks never goes down. *)
Lemma try_candidates_mono (rec : Simulator RNG -> result (bool * Simulator RNG))
    club as_home :
  (forall s b s', rec s = Ret (b, s') -> backtrack_count s <= backtrack_count s') ->
  forall candidates s b s',
    try_candidates rec club as_home candidates s = Ret (b, s') ->
    backtrack_count s <= backtrack_count s'.
Proof.
  intros Hrec. induction candidates as [|o rest IH]; intros s b s' H.
  - cbn [try_candidates] in H. assert (s = s') as <- by congruence. done.
  - cbn [try_candidates] in H.
    destruct (rec (do_assign club o as_home s)) as [[[|] s1]| |] eqn:E; try done.
    + assert (s1 = s') as <- by congruence. apply Hrec in E. exact E.
    + apply Hrec in E. cbn [do_assign backtrack_count log _invalidate_cache set_cache
        set_clubs] in E.
      unfold do_backtrack in H.
      destruct (unassign _ club o as_home) as [h|]; [|done].
      apply IH in H. cbn [backtrack_count log _invalidate_cache set_cache set_clubs
        set_backtrack_count] in H. lia.
Qed.

Lemma try_directions_mono (rec : Simulator RNG -> result (bool * Simulator RNG))
    all_clubs club :
  (forall s b s', rec s = Ret (b, s') -> backtrack_count s <= backtrack_count s') ->
  forall directions s b s',
    try_directions shuffle rec all_clubs club directions s = Ret (b, s') ->
    backtrack_count s <= backtrack_count s'.
Proof.
  intros Hrec. induction directions as [|d rest IH]; intros s b s' H.
  - cbn [try_directions] in H. assert (s = s') as <- by congruence. done.
  - cbn [try_directions] in H. unfold _get_valid_opponents_sorted in H.
    destruct (shuffle (rng s) _) as [valid g].
    destruct (try_candidates rec club d _ (set_rng g s)) as [[[|] s2]| |] eqn:E; try done.
    + assert (s2 = s') as <- by congruence.
      by apply (try_candidates_mono rec club d Hrec) in E.
    + apply (try_candidates_mono rec club d Hrec) in E. apply IH in H.
      cbn [backtrack_count set_rng] in E. lia.
Qed.

Lemma assign_opponents_mono fuel all_clubs :
  forall s b s',
    assign_opponents shuffle cached fuel all_clubs s = Ret (b, s') ->
    backtrack_count s <= backtrack_count s'.
Proof.
  induction fuel as [|fuel IH]; intros s b s' H; [done|].
  cbn [assign_opponents] in H.
  destruct (Z.of_nat (backtrack_count s) >? max_backtrack s)%Z.
  { assert (s = s') as <- by congruence. done. }
  destruct (List.filter _ all_clubs) as [|c inc].
  { assert (s = s') as <- by congruence. done. }
  destruct (forward_check_frame cached cached_frame all_clubs (c :: inc) s) as [m Hm].
  destruct (forward_check cached all_clubs (c :: inc) s) as [ok s1].
  cbn [snd] in Hm. subst s1.
  destruct ok; cbn [negb] in H.
  2:{ assert (set_cache m s = s') as <- by congruence. done. }
  destruct (min_by_count_spec cached cached_frame all_clubs (c :: inc) (set_cache m s))
    as (club & m' & Hmin & _); [done|].
  rewrite Hmin in H.
  destruct (negb _ && negb _).
  - apply IH in H. exact H.
  - apply (try_directions_mono _ all_clubs club IH) in H. exact H.
Qed.

(** The first candidate of a loop is assigned; when the loop does not
    end in success, that assignment was undone and counted. *)
Lemma try_candidates_spends (rec : Simulator RNG -> result (bool * Simulator RNG))
    club as_home o rest :
  (forall s b s', rec s = Ret (b, s') -> backtrack_count s <= backtrack_count s') ->
  forall s b s',
    try_candidates rec club as_home (o :: rest) s = Ret (b, s') ->
    b = true \/ 1 <= backtrack_count s'.
Proof.
  intros Hrec s b s' H. cbn [try_candidates] in H.
  destruct (rec (do_assign club o as_home s)) as [[[|] s1]| |] eqn:E; try done.
  - left. congruence.
  - right. unfold do_backtrack in H.
    destruct (unassign _ club o as_home) as [h|]; [|done].
    apply (try_candidates_mono rec club as_home Hrec) in H.
    cbn [backtrack_count log _invalidate_cache set_cache set_clubs
      set_backtrack_count] in H. lia.
Qed.

(** On reset clubs, each with a rival among the clubs passed, with an
    empty cache and a budget that is not negative, the search either
    succeeds or has undone an assignment when it returns. *)
Lemma first_call_spends fuel all_clubs h0 (s s' : Simulator RNG) b :
  clubs s = map reset h0 -> _opponent_count_cache s = ∅ ->
  (Z.of_nat (backtrack_count s) <= max_backtrack s)%Z ->
  (1 <= home_matches (constraints s))%Z -> (1 <= away_matches (constraints s))%Z ->
  (1 <= max_same_country (constraints s))%Z ->
  (forall c, In c all_clubs ->
     exists o, In o all_clubs /\
       country (deref (clubs s) o) <> country (deref (clubs s) c)) ->
  assign_opponents shuffle cached fuel all_clubs s = Ret (b, s') ->
  b = true \/ 1 <= backtrack_count s'.
Proof.
  intros Hh Hcache Hbud Hhm Ham Hmax Hriv H.
  destruct fuel as [|fuel]; [done|]. cbn [assign_opponents] in H.
  destruct (Z.gtb_spec (Z.of_nat (backtrack_count s)) (max_backtrack s)) as [?|_]; [lia|].
  destruct (List.filter _ all_clubs) as [|c0 l0] eqn:E.
  { left. congruence. }
  assert (Hsub : forall c, In c (c0 :: l0) -> In c all_clubs).
  { intros c Hc. rewrite <- E in Hc. by apply filter_In in Hc as [? _]. }
  assert (Hfacts : forall c o, country (deref (clubs s) o) <> country (deref (clubs s) c) ->
            ref_eq (clubs s) o c = false /\ is_complete (deref (clubs s) o) = false /\
            (needs_home (deref (clubs s) c) >? 0)%Z = true /\
            fst (can_pair (constraints s) (clubs s) c o true) = true /\
            fst (can_pair (constraints s) (clubs s) o c false) = true).
  { intros c o Hne. rewrite Hh in *.
    split_and!.
    - apply ref_eq_false_key. unfold key. congruence.
    - unfold is_complete. by destruct (reset_lists h0 o) as [-> _].
    - unfold needs_home. by destruct (reset_lists h0 c) as [-> _].
    - apply can_pair_reset; auto.
    - apply can_pair_reset; auto. }
  assert (Hpos : forall c, In c all_clubs ->
            0 < _count_valid_opponents (constraints s) (clubs s) c all_clubs).
  { intros c Hc. destruct (Hriv c Hc) as (o & Ho & Hne).
    destruct (Hfacts c o Hne) as (F1 & F2 & F3 & F4 & _).
    by apply (count_positive _ _ c all_clubs o). }
  pose proof (forward_check_passes all_clubs (c0 :: l0) s) as Hfc.
  destruct (forward_check_frame cached cached_frame all_clubs (c0 :: l0) s) as [m Hm].
  destruct (forward_check cached all_clubs (c0 :: l0) s) as [ok s1].
  cbn [fst snd] in Hfc, Hm. subst s1.
  rewrite Hfc in H.
  2:{ intros c Hc. by apply Hpos, Hsub. }
  2:{ intros k v. rewrite Hcache, lookup_empty. done. }
  cbn [negb] in H.
  destruct (min_by_count_spec cached cached_frame all_clubs (c0 :: l0) (set_cache m s))
    as (club & m' & Hmin & Hin); [done|].
  rewrite Hmin in H. apply Hsub in Hin.
  destruct (Hriv club Hin) as (o & Ho & Hne).
  destruct (Hfacts club o Hne) as (F1 & F2 & F3 & F4 & F5).
  cbn [clubs set_cache] in H. rewrite F3 in H. cbn [negb andb app] in H.
  cbn [try_directions] in H.
  assert (Hvalid : In o (_get_valid_opponents (constraints s) (clubs s) club all_clubs true)).
  { unfold _get_valid_opponents. apply filter_In. split; [done|].
    rewrite F1, F2, F4. cbn [negb orb andb]. exact F5. }
  unfold _get_valid_opponents_sorted in H. cbn [clubs constraints rng set_cache] in H.
  pose proof (shuffle_perm (rng s)
    (_get_valid_opponents (constraints s) (clubs s) club all_clubs true)) as Hperm.
  destruct (shuffle (rng s) _) as [valid g]. cbn [fst] in Hperm.
  match type of H with
  | context [try_candidates ?r club true ?l ?t] =>
      set (rec := r) in *; set (cands := l) in *; set (st := t) in *
  end.
  assert (Hc : In o cands).
  { unfold cands. apply sort_by_in, list_elem_of_In. rewrite Hperm.
    by apply list_elem_of_In. }
  destruct cands as [|o1 rest]; [done|].
  assert (Hrec : forall s b s', rec s = Ret (b, s') ->
            backtrack_count s <= backtrack_count s').
  { apply assign_opponents_mono. }
  destruct (try_candidates rec club true (o1 :: rest) st) as [[[|] s2]| |] eqn:Et;
    try done.
  - left. congruence.
  - apply (try_candidates_spends rec club true o1 rest Hrec) in Et as [?|Et]; [done|].
    right. apply (try_directions_mono rec all_clubs club Hrec) in H. lia.
Qed.

End FirstCall.
(** *** C4: malformed input *)

Lemma prepare_cache {RNG} (s : Simulator RNG) : _opponent_count_cache (prepare s) = ∅.
Proof. unfold prepare. by destruct (clubs s). Qed.

(** C4, as stated, fails: with two clubs, fewer than any profile needs,
    [draw] runs the search; the result carries two undos and the log four
    mutation steps. *)
Lemma C4_counterexample :
  match draw PyRandom.shuffle 20
          (python_simulator CHAMPIONS_LEAGUE 0 [mkData "A" "AAA" 1; mkData "B" "BBB" 2]) with
  | Ret (r, s') => (is_valid r, r_backtrack_count r, length (history s'))
  | _ => (true, 0, 0)
  end = (false, 2, 4).
Proof. vm_compute. reflexivity. Qed.

(** C4, amended.  [draw] has no check of its input: malformed input is
    reported by the search alone.  On every malformed input (a quota below
    four, fewer than nine entrants, a club of pots 1 to 4 with fewer than
    eight rivals or with rivals of too few countries for the country
    limit) [draw] returns a result with [is_valid = False], whose
    [backtrack_count] is the number of undos the search has logged; and
    whenever the search can make a first assignment (every club of pots 1
    to 4 has a rival, quotas and country limit of at least one, a budget
    that is not negative) that number is at least one: budget has been
    spent before the input is reported. *)
Theorem C4_malformed_reported_by_search {RNG}
    (shuffle : RNG -> list nat -> list nat * RNG) (s : Simulator RNG) (fuel : nat) :
  ready shuffle s fuel -> malformed s ->
  exists r s',
    draw shuffle fuel s = Ret (r, s') /\
    is_valid r = false /\
    r_backtrack_count r = undo_count (history s') /\
    (startable s -> 1 <= r_backtrack_count r).
Proof.
  intros (Hp & Hh & Ha & Hm & Hf) Hmal.
  destruct (draw_result_facts shuffle s fuel Hp Hh Ha Hm Hf)
    as (r & s' & Hd & Hids & Hok & M & F & L & I & _ & _ & Hcomp).
  exists r, s'. split; [done|].
  assert (Hv : is_valid r = false).
  { destruct Hmal as [[Hact Hq]|(c & Hc & Hr)].
    - destruct (draw_invalid shuffle Hp s fuel Hh Ha Hf Hact) as (r0 & s0 & Hd0 & Hv0);
        [tauto|]. rewrite Hd in Hd0. congruence.
    - destruct (is_valid r) eqn:Ev; [exfalso|done].
      specialize (Hcomp eq_refl). rewrite Forall_forall in Hcomp.
      rewrite (active_same_ids _ _ Hids) in Hc.
      pose proof (Hcomp c (proj2 (list_elem_of_In _ _) Hc)) as Hcc.
      assert (Hlt : c < length (r_clubs r)) by (apply in_active in Hc; tauto).
      destruct (complete_needs_rivals (constraints s) (r_clubs r) c Hm Hok M F L I Hlt Hcc)
        as [R1 R2].
      unfold rival_countries in *.
      rewrite (rivals_same_ids _ _ c Hids) in Hr.
      rewrite (countries_of_same_ids _ _ _ Hids) in Hr. lia. }
  split; [done|].
  destruct (draw_with_post shuffle Hp _ cached_frame s fuel Hh Ha Hf)
    as (r1 & s1 & Hd1 & _ & Hb1 & _ & _ & _ & _ & _ & Hu1 & _).
  fold (draw shuffle fuel s) in Hd1. rewrite Hd in Hd1.
  assert (r1 = r) as -> by congruence. assert (s1 = s') as -> by congruence.
  split; [congruence|].
  intros (Hbud & Hh1 & Ha1 & Hm1 & Hriv).
  unfold draw in Hd. rewrite draw_with_unfold in Hd.
  unfold draw_with_backtracking in Hd.
  pose proof (shuffle_pots_perm shuffle Hp
                (clubs (prepare s)) [1; 2; 3; 4]%Z (rng (prepare s))) as Hperm.
  destruct (shuffle_pots shuffle _ _ _) as [shuffled g]. cbn [fst] in Hperm.
  fold (active (clubs (prepare s))) in Hperm.
  destruct (assign_opponents shuffle _ fuel shuffled (set_rng g (prepare s)))
    as [[b s2]| |] eqn:Es; try done.
  assert (Hr : r = mkDrawResult (competition s2) (clubs s2)
                 (if b then _generate_fixtures (clubs s2) else []) b (backtrack_count s2))
    by congruence.
  rewrite Hr in Hv |- *. cbn [is_valid r_backtrack_count] in *. subst b.
  destruct (prepare_clubs s) as [h0 Eh0].
  assert (Hsp : false = true \/ 1 <= backtrack_count s2); [|by destruct Hsp].
  apply (first_call_spends shuffle Hp fuel shuffled h0 (set_rng g (prepare s)) s2 false);
    [exact Eh0 | apply prepare_cache | | | | | | exact Es].
  - cbn [backtrack_count max_backtrack set_rng].
    rewrite prepare_backtrack_count, prepare_max_backtrack. simpl. lia.
  - cbn [constraints set_rng]. by rewrite prepare_constraints.
  - cbn [constraints set_rng]. by rewrite prepare_constraints.
  - cbn [constraints set_rng]. by rewrite prepare_constraints.
  - intros c Hc. cbn [clubs set_rng].
    assert (Hca : In c (active (clubs (prepare s)))).
    { apply list_elem_of_In. rewrite <- Hperm. by apply list_elem_of_In. }
    specialize (Hriv c Hca).
    destruct (rivals (clubs (prepare s)) c) as [|o l] eqn:Er; [done|].
    assert (Ho : o ∈ rivals (clubs (prepare s)) c) by (rewrite Er; by left).
    unfold rivals in Ho. apply list_elem_of_filter in Ho as [Hne Ho].
    exists o. split; [|done].
    apply list_elem_of_In. rewrite Hperm. exact Ho.
Qed.
Lemma C4_witness :
  startable sim_two_countries /\
  exists r s',
    draw PyRandom.shuffle 50 sim_two_countries = Ret (r, s') /\
    is_valid r = false /\
    r_backtrack_count r = undo_count (history s') /\
    (startable sim_two_countries -> 1 <= r_backtrack_count r).
Proof.
  split.
  - split; [vm_compute; discriminate|].
    split; [simpl; lia|]. split; [simpl; lia|]. split; [simpl; lia|].
    intros c Hc. vm_compute in Hc.
    repeat (destruct Hc as [<-|Hc]; [vm_compute; discriminate|]). destruct Hc.
  - apply (C4_malformed_reported_by_search PyRandom.shuffle sim_two_countries 50).
    + python_ready.
    + right. exists 0. split; [vm_compute; tauto|].
      left. vm_compute. lia.
Defined.
